(** * Device-side tensor operators: concatenation, fused linear post-ops,
      triangular masking and LU status handling

    A shallow embedding of the operator sources

    - [csrc/gpu/aten/operators/Linear.cpp]            (module [Linear]),
    - [torch_ipex/.../operators/BatchLinearAlgebra.cpp] (module [BatchLinearAlgebra]),
    - [csrc/aten/operators/Cat.cpp]                   (module [Cat]),

    together with the properties their specification states about them.

    Conventions.
    - Machine integers are [Z] with the wrap-around written out
      ([wrap32], [wrap64], [to_signed]).
    - Undefined behaviour of the C++ source (division by zero, access
      outside a buffer) is an explicit failure of the model, never a
      silent default.
    - Floating-point scalars of the linear family are exact rationals
      ([Qc]); the rounding of float arithmetic is not modelled.  The
      conversion [Scalar::toFloat] that [linear_scalar_div] tests is a
      parameter.
    - An element type is a tag of the descriptor; the dispatch macros
      and the typed [data_ptr<scalar_t>()] fail on the tags the source
      does not accept.
    - Device memory is a finite map from storage identifiers to buffers;
      a tensor is a descriptor (sizes, strides, offset) over a storage, so
      that two descriptors may alias. *)

From Stdlib Require Import ZArith List Lia Bool QArith Qcanon String.
From stdpp Require Import base numbers list gmap.

Local Open Scope Z_scope.

(* ===================================================================== *)
(** * Linear.cpp: linear operators with fused post-operations            *)
(* ===================================================================== *)

Module Linear.

Local Open Scope Qc_scope.

(** ** Data model *)

(** The linear family allocates its results; no claim about it depends on
    storage sharing, so a tensor is modelled by value: its shape and its
    elements in row-major order.  [defined = false] is [at::Tensor()]. *)
Record Tensor : Type := mkTensor {
  defined : bool;
  sizes : list Z;
  data : list Qc
}.

Definition undefined_tensor : Tensor :=
  {| defined := false; sizes := [0%Z]; data := [] |}.

Definition dim (t : Tensor) : Z := Z.of_nat (length (sizes t)).

(** [Tensor::contiguous()] changes the layout, never the values. *)
Definition contiguous (t : Tensor) : Tensor := t.

(** The algorithms named by [attr.kind_with_*] in the source. *)
Inductive algorithm : Set :=
| kind_with_sqrt | kind_with_abs | kind_with_tanh | kind_with_square
| kind_with_exp | kind_with_log | kind_with_round | kind_with_sigmoid
| kind_with_relu | kind_with_hardswish | kind_with_mish
| kind_with_log_sigmoid | kind_with_swish | kind_with_linear
| kind_with_gelu_erf | kind_with_gelu_tanh | kind_with_hardsigmoid
| kind_with_pow | kind_with_clip | kind_with_elu
| kind_with_binary_add | kind_with_binary_mul | kind_with_binary_div
| kind_with_binary_min | kind_with_binary_max | kind_with_binary_eq
| kind_with_binary_ne | kind_with_binary_ge | kind_with_binary_gt
| kind_with_binary_le | kind_with_binary_lt.

(** Modelled from the spec: the class [Attr] (declared in the oneDNN
    wrapper headers, which are not among the sources).  A post-op
    attribute is an ordered sequence of records, each either
    [{kind: eltwise, algorithm, scale, alpha, beta}] or
    [{kind: binary, algorithm, operandTensor, scale}]; every append adds
    exactly one record, in call order. *)
Inductive PostOpParam : Type :=
| eltwise (scale alpha beta : Qc) (algo : algorithm)
| binary (algo : algorithm) (operand : Tensor) (scale : Qc).

Definition Attr : Type := list PostOpParam.

Definition Attr_new : Attr := [].

Definition append_post_eltwise
    (scale alpha beta : Qc) (algo : algorithm) (attr : Attr) : Attr :=
  attr ++ [eltwise scale alpha beta algo].

Definition append_scale_binary
    (algo : algorithm) (operand : Tensor) (scale : Qc) (attr : Attr) : Attr :=
  attr ++ [binary algo operand scale].

(** [struct LinearConverter]: the wrapper that owns the fusion flag. *)
Record LinearConverter : Type := mkLinearConverter { is_fused_ : bool }.

Definition LinearConverter_new : LinearConverter := {| is_fused_ := false |}.

Definition is_fused (c : LinearConverter) : bool := is_fused_ c.

(** Result of an entry point that may hit [TORCH_INTERNAL_ASSERT], or
    whose scalar does not convert. *)
Inductive outcome : Type :=
| Returned (t : Tensor)
| InternalAssertFailed (msg : string)
| ConversionFailed.

(** ** Elementwise reference operations *)

Definition Qc_max (x y : Qc) : Qc := if decide (x < y) then y else x.
Definition Qc_min (x y : Qc) : Qc := if decide (x < y) then x else y.
Definition Qc_of_bool (b : bool) : Qc := if b then 1 else 0.

(** The leaky-relu law the specification quotes:
    [max(x,0) + slope * min(x,0)]. *)
Definition leaky_relu (slope x : Qc) : Qc :=
  Qc_max x 0 + slope * Qc_min x 0.

(** [at::func(output, binary)] of the binary macro, one element. *)
Definition binary_apply (algo : algorithm) (x y : Qc) : Qc :=
  match algo with
  | kind_with_binary_add => x + y
  | kind_with_binary_mul => x * y
  | kind_with_binary_div => x / y
  | kind_with_binary_min => Qc_min x y
  | kind_with_binary_max => Qc_max x y
  | kind_with_binary_eq => Qc_of_bool (bool_decide (x = y))
  | kind_with_binary_ne => Qc_of_bool (bool_decide (x <> y))
  | kind_with_binary_ge => Qc_of_bool (bool_decide (y <= x))
  | kind_with_binary_gt => Qc_of_bool (bool_decide (y < x))
  | kind_with_binary_le => Qc_of_bool (bool_decide (x <= y))
  | kind_with_binary_lt => Qc_of_bool (bool_decide (x < y))
  | _ => x
  end.

Definition map_data (f : Qc -> Qc) (t : Tensor) : Tensor :=
  {| defined := defined t; sizes := sizes t; data := List.map f (data t) |}.

Definition zip_data (f : Qc -> Qc -> Qc) (t u : Tensor) : Tensor :=
  {| defined := defined t; sizes := sizes t;
     data := zip_with f (data t) (data u) |}.

(** [at::func(output, binary)] on same-shape operands. *)
Definition at_binary (algo : algorithm) (output operand : Tensor) : Tensor :=
  zip_data (binary_apply algo) output operand.

(** [at::AtenIpexTypeXPU::add(output, accumul, alpha)]:
    [output + alpha * accumul]. *)
Definition add (output accumul : Tensor) (alpha : Qc) : Tensor :=
  zip_data (fun x y => x + alpha * y) output accumul.

(** ** The entry points, over an arbitrary fused-matmul service *)

Section EntryPoints.

(** [matmul_fusion_variants(tensor1, tensor2, trans, attr, is_fused, bias)]
    is declared in [Linear.h], outside the sources: it is a parameter.  The
    second component of its result is the value it stores into the
    [bool& is_fused] argument. *)
Variable matmul_fusion_variants :
  Tensor -> Tensor -> bool -> Attr -> Tensor -> Tensor * bool.

(** [LinearConverter::call]. *)
Definition call (self : LinearConverter)
    (input weight bias : Tensor) (func : unit -> Attr)
    : Tensor * LinearConverter :=
  let attr := func tt in
  let _bias := if defined bias then bias else undefined_tensor in
  let _input := if (dim input <=? 2)%Z then input else contiguous input in
  let '(r, fused) := matmul_fusion_variants _input weight false attr _bias in
  (r, {| is_fused_ := fused |}).

(** [IPEX_LINEAR_DEFINATION(func)], with [kind] for [attr.kind_with_##func]. *)
Definition IPEX_LINEAR_DEFINATION (kind : algorithm)
    (input weight bias : Tensor) : Tensor :=
  let linear_wrapper := LinearConverter_new in
  let post_op := fun _ : unit =>
    append_post_eltwise 1 0 0 kind Attr_new in
  fst (call linear_wrapper input weight bias post_op).

(** [IPEX_LINEAR_BINARY_DEFINATION(func)]. *)
Definition IPEX_LINEAR_BINARY_DEFINATION (kind : algorithm)
    (input weight bias operand : Tensor) : Tensor :=
  let linear_wrapper := LinearConverter_new in
  let post_op := fun _ : unit =>
    append_scale_binary kind operand 1 Attr_new in
  let '(output, linear_wrapper) :=
    call linear_wrapper input weight bias post_op in
  if negb (is_fused linear_wrapper) then at_binary kind output operand
  else output.

Definition linear_sqrt := IPEX_LINEAR_DEFINATION kind_with_sqrt.
Definition linear_abs := IPEX_LINEAR_DEFINATION kind_with_abs.
Definition linear_tanh := IPEX_LINEAR_DEFINATION kind_with_tanh.
Definition linear_square := IPEX_LINEAR_DEFINATION kind_with_square.
Definition linear_exp := IPEX_LINEAR_DEFINATION kind_with_exp.
Definition linear_log := IPEX_LINEAR_DEFINATION kind_with_log.
Definition linear_round := IPEX_LINEAR_DEFINATION kind_with_round.
Definition linear_sigmoid := IPEX_LINEAR_DEFINATION kind_with_sigmoid.
Definition linear_relu := IPEX_LINEAR_DEFINATION kind_with_relu.
Definition linear_hardswish := IPEX_LINEAR_DEFINATION kind_with_hardswish.
Definition linear_mish := IPEX_LINEAR_DEFINATION kind_with_mish.
Definition linear_log_sigmoid := IPEX_LINEAR_DEFINATION kind_with_log_sigmoid.

Definition linear_binary_mul := IPEX_LINEAR_BINARY_DEFINATION kind_with_binary_mul.
Definition linear_binary_div := IPEX_LINEAR_BINARY_DEFINATION kind_with_binary_div.
Definition linear_binary_min := IPEX_LINEAR_BINARY_DEFINATION kind_with_binary_min.
Definition linear_binary_max := IPEX_LINEAR_BINARY_DEFINATION kind_with_binary_max.
Definition linear_binary_eq := IPEX_LINEAR_BINARY_DEFINATION kind_with_binary_eq.
Definition linear_binary_ne := IPEX_LINEAR_BINARY_DEFINATION kind_with_binary_ne.
Definition linear_binary_ge := IPEX_LINEAR_BINARY_DEFINATION kind_with_binary_ge.
Definition linear_binary_gt := IPEX_LINEAR_BINARY_DEFINATION kind_with_binary_gt.
Definition linear_binary_le := IPEX_LINEAR_BINARY_DEFINATION kind_with_binary_le.
Definition linear_binary_lt := IPEX_LINEAR_BINARY_DEFINATION kind_with_binary_lt.

Definition linear_silu (input weight bias : Tensor) : Tensor :=
  let linear_wrapper := LinearConverter_new in
  let post_op := fun _ : unit =>
    append_post_eltwise 1 1 0 kind_with_swish Attr_new in
  fst (call linear_wrapper input weight bias post_op).

Definition linear_scalar_mul (input weight bias : Tensor) (scalar : Qc)
    : Tensor :=
  let linear_wrapper := LinearConverter_new in
  let post_op := fun _ : unit =>
    append_post_eltwise 1 scalar 0 kind_with_linear Attr_new in
  fst (call linear_wrapper input weight bias post_op).

(** [Scalar::toFloat()]: the [float] the scalar converts to, itself a
    rational, or [None] when the scalar is beyond the range of [float]
    and the conversion raises.  The conversion rounds, so that a scalar
    other than zero may convert to zero.  The other entry points only
    hand the converted value on and take it as their argument;
    [linear_scalar_div] tests it, so there the argument is the scalar
    before the conversion. *)
Variable toFloat : Qc -> option Qc.

Definition linear_scalar_div (input weight bias : Tensor) (scalar : Qc)
    : outcome :=
  match toFloat scalar with
  | None => ConversionFailed
  | Some f =>
      if bool_decide (f = 0)
      then InternalAssertFailed "div zero in linear_scalar_div"
      else
        let linear_wrapper := LinearConverter_new in
        let post_op := fun _ : unit =>
          append_post_eltwise 1 (1 / f) 0 kind_with_linear Attr_new in
        Returned (fst (call linear_wrapper input weight bias post_op))
  end.

Definition linear_scalar_add (input weight bias : Tensor) (scalar scale : Qc)
    : Tensor :=
  let linear_wrapper := LinearConverter_new in
  let post_op := fun _ : unit =>
    append_post_eltwise 1 1 (scalar * scale) kind_with_linear Attr_new in
  fst (call linear_wrapper input weight bias post_op).

Definition linear_scalar_sub (input weight bias : Tensor) (scalar scale : Qc)
    : Tensor :=
  linear_scalar_add input weight bias scalar (- scale).

Definition linear_gelu (input weight bias : Tensor) (approximate : string)
    : outcome :=
  let linear_wrapper := LinearConverter_new in
  if String.eqb approximate "none" then
    Returned (fst (call linear_wrapper input weight bias (fun _ =>
      append_post_eltwise 1 0 0 kind_with_gelu_erf Attr_new)))
  else if String.eqb approximate "tanh" then
    Returned (fst (call linear_wrapper input weight bias (fun _ =>
      append_post_eltwise 1 0 0 kind_with_gelu_tanh Attr_new)))
  else InternalAssertFailed ("Unsupported gelu algorithm: " ++ approximate).

Definition linear_hardsigmoid (input weight bias : Tensor) : Tensor :=
  let linear_wrapper := LinearConverter_new in
  let post_op := fun _ : unit =>
    append_post_eltwise 1 (1 / Q2Qc 6) (1 / 2) kind_with_hardsigmoid Attr_new in
  fst (call linear_wrapper input weight bias post_op).

Definition linear_pow (input weight bias : Tensor) (exponent : Qc) : Tensor :=
  let linear_wrapper := LinearConverter_new in
  let post_op := fun _ : unit =>
    append_post_eltwise 1 1 exponent kind_with_pow Attr_new in
  fst (call linear_wrapper input weight bias post_op).

Definition linear_leaky_relu (input weight bias : Tensor)
    (negative_slope : Qc) : Tensor :=
  let linear_wrapper := LinearConverter_new in
  let post_op := fun _ : unit =>
    append_post_eltwise 1 negative_slope 0 kind_with_relu Attr_new in
  fst (call linear_wrapper input weight bias post_op).

Definition linear_hardtanh (input weight bias : Tensor) (minval maxval : Qc)
    : Tensor :=
  let linear_wrapper := LinearConverter_new in
  let post_op := fun _ : unit =>
    append_post_eltwise 1 minval maxval kind_with_clip Attr_new in
  fst (call linear_wrapper input weight bias post_op).

Definition linear_elu (input weight bias : Tensor)
    (alpha scale input_scale : Qc) : Tensor :=
  let linear_wrapper := LinearConverter_new in
  let post_op := fun _ : unit =>
    append_post_eltwise 1 alpha 1 kind_with_elu Attr_new in
  fst (call linear_wrapper input weight bias post_op).

(** [linear_sum]: result = input * weight + bias + alpha * accumul.  (The
    local [output_sizes] of the source is never used.) *)
Definition linear_sum (input weight bias accumul : Tensor) (alpha : Qc)
    : Tensor :=
  let post_op := fun _ : unit =>
    append_scale_binary kind_with_binary_add accumul alpha Attr_new in
  let linear_wrapper := LinearConverter_new in
  let '(output, linear_wrapper) :=
    call linear_wrapper input weight bias post_op in
  if negb (is_fused linear_wrapper) then add output accumul alpha
  else output.

Definition linear_binary_sub (input weight bias operand : Tensor) (alpha : Qc)
    : Tensor :=
  linear_sum input weight bias operand (- alpha).

Definition dpcpp_linear (input weight bias : Tensor) : Tensor :=
  let post_op := fun _ : unit => Attr_new in
  let linear_wrapper := LinearConverter_new in
  fst (call linear_wrapper input weight bias post_op).

End EntryPoints.

(** ** The fused-matmul service of the specification *)

Section Service.

(** The plain product [input * weight + bias] (external linear algebra). *)
Variable plain_matmul : Tensor -> Tensor -> bool -> Tensor -> Tensor.

(** Which attribute combinations the device can fuse. *)
Variable fusible : Attr -> bool.

(** The activations that have no rational closed form. *)
Variable transcendental : algorithm -> Qc -> Qc -> Qc -> Qc.

(** One elementwise algorithm with its [alpha] and [beta]; [relu] with a
    non-zero [alpha] is the leaky relu, [linear] is [alpha * x + beta]. *)
Definition eltwise_apply (algo : algorithm) (alpha beta x : Qc) : Qc :=
  match algo with
  | kind_with_relu => if decide (0 < x) then x else alpha * x
  | kind_with_linear => alpha * x + beta
  | kind_with_abs => Qc_max x (- x)
  | kind_with_square => x * x
  | kind_with_clip => Qc_max alpha (Qc_min beta x)
  | _ => transcendental algo alpha beta x
  end.

Definition apply_post_op (t : Tensor) (p : PostOpParam) : Tensor :=
  match p with
  | eltwise scale alpha beta algo =>
      map_data (fun x => scale * eltwise_apply algo alpha beta x) t
  | binary algo operand scale =>
      zip_data (fun x y => binary_apply algo x (scale * y)) t operand
  end.

(** Modelled from the spec: the fused-matmul service behind
    [matmul_fusion_variants].  It "either (a) executes the matmul with all
    post-ops fused into one kernel and reports isFused = true, or (b)
    reports isFused = false when fusion is not supported for this
    attribute combination, in which case the plain matmul result is
    returned"; post-ops apply in sequence to the primary result. *)
Definition fused_matmul_service
    (tensor1 tensor2 : Tensor) (trans : bool) (attr : Attr) (bias : Tensor)
    : Tensor * bool :=
  let r := plain_matmul tensor1 tensor2 trans bias in
  if fusible attr then (fold_left apply_post_op attr r, true)
  else (r, false).

End Service.

(** A concrete product for two-dimensional operands, used to run the
    entry points on explicit inputs: [input] is [m x k], [weight] is
    [k x n] (or [n x k] when [trans]), [bias] has [n] elements or is
    undefined. *)
Definition at_index (d : list Qc) (i : nat) : Qc := default 0 (d !! i).

Definition matmul2d (input weight : Tensor) (trans : bool) (bias : Tensor)
    : Tensor :=
  match sizes input, sizes weight with
  | [m; k], [w0; w1] =>
      let n := if trans then w0 else w1 in
      let k' := Z.to_nat k in
      let n' := Z.to_nat n in
      let cell (i j : nat) : Qc :=
        foldr Qcplus (if defined bias then at_index (data bias) j else 0)
          (List.map (fun l =>
             at_index (data input) (i * k' + l) *
             at_index (data weight)
               (if trans then j * k' + l else l * n' + j)%nat)
             (seq 0 k')) in
      {| defined := true; sizes := [m; n];
         data := List.flat_map
                   (fun i => List.map (cell i) (seq 0 n'))
                   (seq 0 (Z.to_nat m)) |}
  | _, _ => undefined_tensor
  end.

(** ** Properties of the linear family *)

(** The inputs handed to the service by [LinearConverter::call]. *)
Definition call_input (input : Tensor) : Tensor :=
  if (dim input <=? 2)%Z then input else contiguous input.

Definition call_bias (bias : Tensor) : Tensor :=
  if defined bias then bias else undefined_tensor.

Lemma call_unfold svc self input weight bias func :
  call svc self input weight bias func =
  (fst (svc (call_input input) weight false (func tt) (call_bias bias)),
   {| is_fused_ := snd (svc (call_input input) weight false (func tt)
                           (call_bias bias)) |}).
Proof.
  unfold call, call_input, call_bias.
  destruct (svc _ _ _ _ _) as [r f]; reflexivity.
Qed.

(** Every macro-generated elementwise entry point hands back the tensor
    of the service, whatever the fusion flag says. *)
Lemma IPEX_LINEAR_DEFINATION_result svc kind input weight bias :
  IPEX_LINEAR_DEFINATION svc kind input weight bias =
  fst (svc (call_input input) weight false [eltwise 1 0 0 kind]
         (call_bias bias)).
Proof. unfold IPEX_LINEAR_DEFINATION. rewrite call_unfold. reflexivity. Qed.

Lemma linear_leaky_relu_result svc input weight bias slope :
  linear_leaky_relu svc input weight bias slope =
  fst (svc (call_input input) weight false [eltwise 1 slope 0 kind_with_relu]
         (call_bias bias)).
Proof. unfold linear_leaky_relu. rewrite call_unfold. reflexivity. Qed.

Lemma linear_sum_result svc input weight bias accumul alpha :
  linear_sum svc input weight bias accumul alpha =
  let r := svc (call_input input) weight false
             [binary kind_with_binary_add accumul alpha] (call_bias bias) in
  if snd r then fst r else add (fst r) accumul alpha.
Proof.
  unfold linear_sum. rewrite call_unfold. cbn.
  destruct (snd _); reflexivity.
Qed.

(** The relu algorithm with [alpha = slope] is the quoted leaky-relu law. *)
Lemma eltwise_relu_is_leaky_relu tr slope beta (x : Qc) :
  eltwise_apply tr kind_with_relu slope beta x = leaky_relu slope x.
Proof.
  unfold eltwise_apply, leaky_relu, Qc_max, Qc_min.
  destruct (decide (0 < x)) as [Hpos|Hneg];
    destruct (decide (x < 0)) as [Hlt|Hge].
  - exfalso. apply (Qclt_not_le _ _ Hpos). apply Qclt_le_weak, Hlt.
  - ring.
  - ring.
  - assert (x = 0) as ->.
    { apply Qcle_antisym; apply Qcnot_lt_le; assumption. }
    ring.
Qed.

(** A service that fuses applies the leaky relu to every element. *)
Lemma linear_leaky_relu_fused plain fus tr input weight bias slope :
  fus [eltwise 1 slope 0 kind_with_relu] = true ->
  data (linear_leaky_relu (fused_matmul_service plain fus tr)
          input weight bias slope) =
  List.map (leaky_relu slope)
    (data (plain (call_input input) weight false (call_bias bias))).
Proof.
  intros Hf. rewrite linear_leaky_relu_result.
  unfold fused_matmul_service. rewrite Hf.
  cbn [fst fold_left apply_post_op map_data data].
  apply List.map_ext. intros x.
  rewrite eltwise_relu_is_leaky_relu. ring.
Qed.

(** Concrete operands: a [1 x 1] product whose plain result is [-1]. *)
Definition t_minus_one : Tensor :=
  {| defined := true; sizes := [1%Z; 1%Z]; data := [- 1] |}.
Definition t_one : Tensor :=
  {| defined := true; sizes := [1%Z; 1%Z]; data := [1] |}.
Definition t_three : Tensor :=
  {| defined := true; sizes := [1%Z; 1%Z]; data := [Q2Qc 3] |}.
Definition one_tenth : Qc := Q2Qc (Qmake 1 10).

(** A service in the sense of the specification that never fuses. *)
Definition unfused_service : Tensor -> Tensor -> bool -> Attr -> Tensor
                             -> Tensor * bool :=
  fused_matmul_service matmul2d (fun _ => false) (fun _ _ _ x => x).

(** A service in the sense of the specification that always fuses. *)
Definition fusing_service : Tensor -> Tensor -> bool -> Attr -> Tensor
                            -> Tensor * bool :=
  fused_matmul_service matmul2d (fun _ => true) (fun _ _ _ x => x).

(** C1. The elementwise entry points of the linear family never apply
    the post-op themselves: [linear_leaky_relu] and every instance of
    [IPEX_LINEAR_DEFINATION] return the tensor of the fused-matmul service
    as it is.  With a service that reports isFused = false and returns
    the plain product (here the [1 x 1] product [-1]) [linear_leaky_relu]
    with slope [1/10] returns [-1], whereas the requested post-op value
    is [max(x,0) + slope * min(x,0) = -1/10]; the sibling [linear_sum]
    does apply its fallback on the same service. *)
Theorem linear_leaky_relu_unfused_keeps_plain_result :
  (forall svc kind input weight bias,
     IPEX_LINEAR_DEFINATION svc kind input weight bias =
     fst (svc (call_input input) weight false [eltwise 1 0 0 kind]
            (call_bias bias))) /\
  (forall svc input weight bias slope,
     linear_leaky_relu svc input weight bias slope =
     fst (svc (call_input input) weight false
            [eltwise 1 slope 0 kind_with_relu] (call_bias bias))) /\
  snd (unfused_service t_minus_one t_one false
         [eltwise 1 one_tenth 0 kind_with_relu] undefined_tensor) = false /\
  List.map this
    (data (linear_leaky_relu unfused_service t_minus_one t_one
             undefined_tensor one_tenth)) = [Qmake (-1) 1] /\
  List.map this (List.map (leaky_relu one_tenth) (data t_minus_one)) =
    [Qmake (-1) 10] /\
  List.map this
    (data (linear_sum unfused_service t_minus_one t_one undefined_tensor
             t_one one_tenth)) = [Qmake (-9) 10].
Proof.
  split; [exact IPEX_LINEAR_DEFINATION_result|].
  split; [exact linear_leaky_relu_result|].
  repeat split; vm_compute; reflexivity.
Qed.

(** C6. [linear_binary_sub] with operand [B] and scale [s] is the
    binary-add path [linear_sum] with operand [B] and scale [-s], for any
    service; with the service of the specification the result is the
    plain product minus [s * B] element by element, both when the binary
    add is fused and when the fallback adds [-s * B] afterwards. *)
Theorem linear_binary_sub_is_negated_add
    plain fus tr input weight bias B (s : Qc) :
  (forall svc, linear_binary_sub svc input weight bias B s =
               linear_sum svc input weight bias B (- s)) /\
  data (linear_binary_sub (fused_matmul_service plain fus tr)
          input weight bias B s) =
  zip_with (fun x b => x - s * b)
    (data (plain (call_input input) weight false (call_bias bias)))
    (data B).
Proof.
  split; [reflexivity|].
  unfold linear_binary_sub. rewrite linear_sum_result.
  unfold fused_matmul_service.
  destruct (fus _); cbn; apply zip_with_ext; try reflexivity;
    intros x b; ring.
Qed.

(** C9. [linear_scalar_div] tests the scalar after its conversion to
    [float].  When the converted scalar [f] is zero, which is the case of
    the scalar zero and of every scalar too small for a [float], it stops
    with a failed internal assertion, whatever the service would do (the
    service is not consulted).  Otherwise it requests exactly one linear
    post-op with [alpha = 1 / f] and [beta = 0] and returns the tensor
    of the service.  When the service fuses, every element is the plain
    product divided by the converted scalar; when the service reports
    isFused = false the plain product comes back undivided (here [3]
    for the scalar [2], not [3/2]). *)
Theorem linear_scalar_div_zero_check_and_reciprocal :
  (forall svc toFloat input weight bias (scalar : Qc),
     toFloat scalar = Some 0 ->
     linear_scalar_div svc toFloat input weight bias scalar =
     InternalAssertFailed "div zero in linear_scalar_div") /\
  (forall svc toFloat input weight bias (scalar f : Qc),
     toFloat scalar = Some f -> f <> 0 ->
     linear_scalar_div svc toFloat input weight bias scalar =
     Returned (fst (svc (call_input input) weight false
                      [eltwise 1 (1 / f) 0 kind_with_linear]
                      (call_bias bias)))) /\
  (forall plain fus tr toFloat input weight bias (scalar f : Qc),
     toFloat scalar = Some f -> f <> 0 ->
     fus [eltwise 1 (1 / f) 0 kind_with_linear] = true ->
     exists r,
       linear_scalar_div (fused_matmul_service plain fus tr) toFloat
         input weight bias scalar = Returned r /\
       data r = List.map (fun x => x / f)
                  (data (plain (call_input input) weight false
                           (call_bias bias)))) /\
  (exists r,
     linear_scalar_div unfused_service Some t_three t_one
       undefined_tensor 2 = Returned r /\
     List.map this (data r) = [Qmake 3 1]).
Proof.
  split; [|split; [|split]].
  - intros svc toFloat input weight bias scalar Hs. unfold linear_scalar_div.
    rewrite Hs. reflexivity.
  - intros svc toFloat input weight bias scalar f Hs Hf.
    unfold linear_scalar_div. rewrite Hs.
    rewrite bool_decide_eq_false_2 by exact Hf.
    rewrite call_unfold. reflexivity.
  - intros plain fus tr toFloat input weight bias scalar f Hs Hf Hfus.
    unfold linear_scalar_div. rewrite Hs.
    rewrite bool_decide_eq_false_2 by exact Hf.
    rewrite call_unfold. eexists; split; [reflexivity|].
    unfold fused_matmul_service. cbn. rewrite Hfus. cbn.
    apply List.map_ext. intros x. field. exact Hf.
  - eexists; split; [reflexivity|]. vm_compute. reflexivity.
Qed.

Lemma linear_scalar_div_zero_check_and_reciprocal_witness :
  (Some (2 : Qc) = Some 2 /\ (2 : Qc) <> 0) /\
  linear_scalar_div fusing_service Some t_three t_one undefined_tensor 2 =
  Returned (fst (fusing_service (call_input t_three) t_one false
                   [eltwise 1 (1 / 2) 0 kind_with_linear]
                   (call_bias undefined_tensor))).
Proof.
  assert (H2 : (2 : Qc) <> 0) by (intros H; discriminate H).
  split; [split; [reflexivity|exact H2]|].
  exact (proj1 (proj2 linear_scalar_div_zero_check_and_reciprocal)
           fusing_service Some t_three t_one undefined_tensor 2 2
           eq_refl H2).
Defined.

(** ** Further properties of the entry points *)

(** X2. [linear_scalar_sub] requests one linear post-op with [alpha = 1] and
    [beta = - (scalar * scale)]: it is [linear_scalar_add] of the negated
    scalar with the same scale. *)
Theorem linear_scalar_sub_negates svc input weight bias (scalar scale : Qc) :
  linear_scalar_sub svc input weight bias scalar scale =
    fst (svc (call_input input) weight false
           [eltwise 1 1 (- (scalar * scale)) kind_with_linear]
           (call_bias bias)) /\
  linear_scalar_sub svc input weight bias scalar scale =
    linear_scalar_add svc input weight bias (- scalar) scale.
Proof.
  assert (E1 : scalar * - scale = - (scalar * scale)) by ring.
  assert (E2 : - scalar * scale = - (scalar * scale)) by ring.
  unfold linear_scalar_sub, linear_scalar_add. rewrite !call_unfold.
  cbn [fst]. unfold append_post_eltwise, Attr_new. cbn [app].
  rewrite E1, E2. split; reflexivity.
Qed.

End Linear.

(* ===================================================================== *)
(** * The tensor framework boundary: descriptors over device memory      *)
(* ===================================================================== *)

Module ATen.

(** ** Machine integers *)

Definition wrap32 (z : Z) : Z := z mod 2 ^ 32.
Definition wrap64 (z : Z) : Z := z mod 2 ^ 64.

(** Conversion to a signed [w]-bit integer. *)
Definition to_signed (w z : Z) : Z :=
  let m := z mod 2 ^ w in
  if m <? 2 ^ (w - 1) then m else m - 2 ^ w.

Definition in_signed_range (w z : Z) : bool :=
  (- 2 ^ (w - 1) <=? z) && (z <? 2 ^ (w - 1)).

(** ** Descriptors *)

Inductive ScalarType : Set :=
| Byte | Char | Short | Int | Long | Half | Float | Double
| ComplexFloat | ComplexDouble | Bool | BFloat16.

Global Instance ScalarType_eq_dec : EqDecision ScalarType.
Proof. solve_decision. Defined.

Inductive MemoryFormat : Set := Contiguous | ChannelsLast | ChannelsLast3d.

(** A defined tensor: a view (sizes, strides, offset) of a storage. *)
Record TensorImpl : Type := mkTensorImpl {
  scalar_type : ScalarType;
  sizes : list Z;
  strides : list Z;
  storage : nat;
  storage_offset : Z
}.

(** A tensor handle; [None] is the undefined tensor [at::Tensor()], whose
    implementation object reports one dimension of size zero. *)
Abbreviation Tensor := (option TensorImpl).

Definition defined (t : Tensor) : bool :=
  match t with Some _ => true | None => false end.

Definition sizes_of (t : Tensor) : list Z :=
  match t with Some i => sizes i | None => [0] end.

Definition strides_of (t : Tensor) : list Z :=
  match t with Some i => strides i | None => [1] end.

Definition dim (t : Tensor) : Z := Z.of_nat (length (sizes_of t)).

Definition prod_list (l : list Z) : Z := foldr Z.mul 1 l.

Definition numel (t : Tensor) : Z := prod_list (sizes_of t).

(** Strides of the dense row-major layout:
    [stride[last] = 1], [stride[i] = stride[i+1] * max(size[i+1], 1)]. *)
Fixpoint contiguous_strides (sz : list Z) : list Z :=
  match sz with
  | [] => []
  | _ :: rest => prod_list (List.map (Z.max 1) rest) :: contiguous_strides rest
  end.

(** [Tensor::is_contiguous()]: empty tensors are contiguous; otherwise,
    from the last dimension to the first, every dimension of size other
    than one has the stride of the dense row-major layout. *)
Fixpoint is_contiguous_from (rsizes rstrides : list Z) (z : Z) : bool :=
  match rsizes, rstrides with
  | s :: rs, st :: rst =>
      if s =? 1 then is_contiguous_from rs rst z
      else if st =? z then is_contiguous_from rs rst (z * s)
      else false
  | _, _ => true
  end.

Definition is_contiguous (t : Tensor) : bool :=
  (numel t =? 0) ||
  is_contiguous_from (rev (sizes_of t)) (rev (strides_of t)) 1.

(** Modelled from the spec: [canUse32BitIndexMath] (declared in
    [core/detail/IndexUtils.h], outside the sources).  "32-bit indexable:
    total element count of a tensor fits within a 32-bit unsigned
    index". *)
Definition canUse32BitIndexMath (t : Tensor) : bool := numel t <? 2 ^ 32.

(** ** Device memory *)

Record pointer : Type := mkPointer { ptr_storage : nat; ptr_offset : Z }.

Definition data_ptr (t : TensorImpl) : pointer :=
  {| ptr_storage := storage t; ptr_offset := storage_offset t |}.

Section Memory.

Context {T : Type}.

(** [p[i]] as an rvalue; [None] when the access leaves the buffer. *)
Definition load (h : gmap nat (list T)) (p : pointer) (i : Z) : option T :=
  match h !! ptr_storage p with
  | Some buf =>
      if 0 <=? ptr_offset p + i then buf !! Z.to_nat (ptr_offset p + i)
      else None
  | None => None
  end.

(** [p[i] = v]; [None] when the access leaves the buffer. *)
Definition store (h : gmap nat (list T)) (p : pointer) (i : Z) (v : T)
    : option (gmap nat (list T)) :=
  match h !! ptr_storage p with
  | Some buf =>
      if (0 <=? ptr_offset p + i) &&
         (ptr_offset p + i <? Z.of_nat (length buf))
      then Some (<[ptr_storage p := <[Z.to_nat (ptr_offset p + i) := v]> buf]> h)
      else None
  | None => None
  end.

(** Growing a storage keeps its contents; the new cells hold whatever
    [uninit] says. *)
Definition grow (uninit : nat -> T) (buf : list T) (n : nat) : list T :=
  buf ++ List.map uninit (seq (length buf) (n - length buf)).

(** [Tensor::resize_]: the view takes the given sizes and strides and its
    storage is enlarged when the view no longer fits. *)
Definition resize_ (uninit : nat -> T) (h : gmap nat (list T))
    (t : TensorImpl) (size stride : list Z)
    : gmap nat (list T) * TensorImpl :=
  let t' := {| scalar_type := scalar_type t; sizes := size;
               strides := stride; storage := storage t;
               storage_offset := storage_offset t |} in
  let need := Z.to_nat (storage_offset t + prod_list size) in
  (<[storage t := grow uninit (default [] (h !! storage t)) need]> h, t').

(** A kernel launch runs its work items one after the other, in the
    order of the list; a failing work item fails the launch. *)
Fixpoint run_items {I : Type}
    (f : gmap nat (list T) -> I -> option (gmap nat (list T)))
    (h : gmap nat (list T)) (ids : list I) : option (gmap nat (list T)) :=
  match ids with
  | [] => Some h
  | gid :: rest =>
      match f h gid with
      | Some h' => run_items f h' rest
      | None => None
      end
  end.

End Memory.

(** ** Facts about element counts, loads and stores *)

Lemma prod_list_nonneg l : Forall (fun n => 0 <= n) l -> 0 <= prod_list l.
Proof.
  induction 1 as [|n l Hn _ IH]; [cbn; lia|].
  change (0 <= n * prod_list l). apply Z.mul_nonneg_nonneg; lia.
Qed.

Section MemoryFacts.

Context {T : Type}.
Implicit Types (h : gmap nat (list T)) (p q : pointer).

Lemma store_Some h p i v h' :
  store h p i v = Some h' ->
  exists buf, h !! ptr_storage p = Some buf /\ 0 <= ptr_offset p + i < Z.of_nat (length buf) /\
    h' = <[ptr_storage p := <[Z.to_nat (ptr_offset p + i) := v]> buf]> h.
Proof.
  unfold store. destruct (h !! ptr_storage p) as [buf|]; [|discriminate].
  destruct (andb _ _) eqn:E; [|discriminate].
  intros [= <-]. exists buf. split; [reflexivity|]. split; [lia|reflexivity].
Qed.

Lemma load_store_eq h p i v h' :
  store h p i v = Some h' -> load h' p i = Some v.
Proof.
  intros (buf & Hb & Hr & ->)%store_Some. unfold load.
  rewrite lookup_insert_eq.
  destruct (0 <=? ptr_offset p + i) eqn:E; [|lia].
  apply list_lookup_insert_eq. lia.
Qed.

Lemma load_store_ne h p i v h' q j :
  store h p i v = Some h' ->
  (ptr_storage q <> ptr_storage p \/ ptr_offset q + j <> ptr_offset p + i) ->
  load h' q j = load h q j.
Proof.
  intros (buf & Hb & Hr & ->)%store_Some Hne. unfold load.
  destruct (decide (ptr_storage q = ptr_storage p)) as [e|n].
  - rewrite e, lookup_insert_eq, Hb.
    destruct (0 <=? ptr_offset q + j) eqn:E; [|reflexivity].
    apply list_lookup_insert_ne. lia.
  - rewrite lookup_insert_ne by congruence. reflexivity.
Qed.

Lemma store_is_Some h p i v :
  is_Some (load h p i) -> is_Some (store h p i v).
Proof.
  unfold load, store. destruct (h !! ptr_storage p) as [buf|]; [|intros [? [=]]].
  destruct (0 <=? ptr_offset p + i) eqn:E; [|intros [? [=]]].
  intros Hs. apply lookup_lt_is_Some in Hs.
  rewrite (proj2 (Z.ltb_lt _ _)) by lia. eauto.
Qed.

Lemma store_load_is_Some h p i v h' :
  store h p i v = Some h' -> is_Some (load h p i).
Proof.
  intros (buf & Hb & Hr & ->)%store_Some. unfold load. rewrite Hb.
  destruct (0 <=? ptr_offset p + i) eqn:E; [|lia].
  apply lookup_lt_is_Some. lia.
Qed.

Lemma load_is_Some_store h p i v h' q j :
  store h p i v = Some h' -> is_Some (load h q j) -> is_Some (load h' q j).
Proof.
  intros Hst Hl.
  destruct (decide (ptr_storage q = ptr_storage p /\ ptr_offset q + j = ptr_offset p + i)) as [[e1 e2]|n].
  - pose proof (load_store_eq _ _ _ _ _ Hst) as Hs.
    unfold load in *. rewrite e1, e2. rewrite Hs. eauto.
  - erewrite load_store_ne; eauto.
    destruct (decide (ptr_storage q = ptr_storage p)); [right|left]; tauto.
Qed.

Lemma store_other_storage h p i v h' s :
  store h p i v = Some h' -> s <> ptr_storage p -> h' !! s = h !! s.
Proof.
  intros (buf & Hb & Hr & ->)%store_Some Hne.
  rewrite lookup_insert_ne by congruence. reflexivity.
Qed.
End MemoryFacts.

End ATen.

(* ===================================================================== *)
(** * BatchLinearAlgebra.cpp: triangular masks and LU status handling    *)
(* ===================================================================== *)

Module BatchLinearAlgebra.

Import ATen.

(** ** The triangular-mask kernel *)

(** The element types of [IPEX_DISPATCH_ALL_TYPES_AND2(Half, Bool, ...)]:
    the integral and the floating types, [Half] and [Bool]. *)
Definition dispatch_all_types_and_half_bool (t : ScalarType) : bool :=
  match t with
  | Byte | Char | Short | Int | Long | Float | Double | Half | Bool => true
  | ComplexFloat | ComplexDouble | BFloat16 => false
  end.

Section TriuTril.

Context {T : Type}.

(** [scalar_t(0)]. *)
Variable zero : T.

(** Contents of freshly allocated memory. *)
Variable uninit : nat -> T.

(** [dpcppMaxWorkGroupSize(queue)], a property of the device. *)
Variable dpcppMaxWorkGroupSize : Z.

Definition CeilDiv (a b : Z) : Z := (a + b - 1) / b.

(** Row and column of a linear index.  [linearIndex] is a [size_t]; the
    strides are [IndexType] values ([w] bits, signed) converted to
    [size_t] by the division; a zero divisor has no defined result. *)
Definition row_col (w stride0 stride1 linearIndex : Z) : option (Z * Z) :=
  if (wrap64 stride0 =? 0) || (wrap64 stride1 =? 0) then None
  else if stride0 >? stride1 then
    Some (to_signed w (linearIndex / wrap64 stride0),
          to_signed w (linearIndex mod wrap64 stride0 / wrap64 stride1))
  else
    Some (to_signed w (linearIndex mod wrap64 stride1 / wrap64 stride0),
          to_signed w (linearIndex / wrap64 stride1)).

(** [upper ? (col - row >= k) : (col - row <= k)]; the difference is
    computed in [IndexType] and must not overflow it. *)
Definition mask_of (w : Z) (upper : bool) (k row col : Z) : option bool :=
  if in_signed_range w (col - row)
  then Some (if upper then k <=? col - row else col - row <=? k)
  else None.

(** The right-hand side [mask ? src_ptr[linearIndex] : scalar_t(0)]. *)
Definition masked_value (w : Z) (upper : bool) (src : pointer)
    (stride0 stride1 k : Z) (h : gmap nat (list T)) (linearIndex : Z)
    : option T :=
  match row_col w stride0 stride1 linearIndex with
  | Some (row, col) =>
      match mask_of w upper k row col with
      | Some mask => if mask then load h src linearIndex else Some zero
      | None => None
      end
  | None => None
  end.

(** The body of the loop of one work item. *)
Definition triu_tril_body (w : Z) (upper : bool) (result src : pointer)
    (stride0 stride1 k : Z) (h : gmap nat (list T)) (linearIndex : Z)
    : option (gmap nat (list T)) :=
  match masked_value w upper src stride0 stride1 k h linearIndex with
  | Some v => store h result linearIndex v
  | None => None
  end.

(** The strided loop of one work item, from its global id; [fuel] bounds
    the number of iterations. *)
Fixpoint work_item (fuel : nat) (w : Z) (upper : bool) (result src : pointer)
    (stride0 stride1 k N global_range : Z)
    (h : gmap nat (list T)) (linearIndex : Z) : option (gmap nat (list T)) :=
  match fuel with
  | O => None
  | S fuel' =>
      if linearIndex <? wrap64 N then
        match triu_tril_body w upper result src stride0 stride1 k h
                linearIndex with
        | Some h' =>
            work_item fuel' w upper result src stride0 stride1 k N
              global_range h' (wrap64 (linearIndex + global_range))
        | None => None
        end
      else Some h
  end.

(** [triu_tril_dpcpp_kernel<scalar_t, IndexType, upper>]; [w] is the
    width of [IndexType].  Every work item gets fuel for [N + 1]
    iterations. *)
Definition triu_tril_dpcpp_kernel (w : Z) (upper : bool)
    (h : gmap nat (list T)) (result src : pointer)
    (stride0 stride1 k N : Z) : option (gmap nat (list T)) :=
  let group_size := dpcppMaxWorkGroupSize in
  if group_size =? 0 then None else
  let num_groups := CeilDiv N group_size in
  let total_items := num_groups * group_size in
  run_items
    (work_item (S (Z.to_nat N)) w upper result src stride0 stride1 k N
       total_items)
    h (seqZ 0 total_items).

(** [triu_tril_dpcpp_template<upper>]: both operands must be defined, and
    the source must have the two strides the kernel reads.  The dispatch
    on [self.scalar_type()] raises for an element type it does not list,
    and [result.data_ptr<scalar_t>()] raises for a result of another
    element type than the source; like a fault of the kernel, an
    exception leaves no result. *)
Definition triu_tril_dpcpp_template (upper : bool)
    (h : gmap nat (list T)) (result self : Tensor) (k : Z)
    : option (gmap nat (list T) * Tensor) :=
  match result, self with
  | Some r, Some s =>
      let N := numel self in
      if negb (dispatch_all_types_and_half_bool (scalar_type s)) then None
      else
      match strides s with
      | st0 :: st1 :: _ =>
          let w := if canUse32BitIndexMath self then 32 else 64 in
          if negb (bool_decide (scalar_type r = scalar_type s)) then None
          else
          match triu_tril_dpcpp_kernel w upper h (data_ptr r) (data_ptr s)
                  (to_signed w st0) (to_signed w st1) k N with
          | Some h' => Some (h', result)
          | None => None
          end
      | _ => None
      end
  | _, _ => None
  end.

(** [result.resize_as_(self)]. *)
Definition resize_as_ (h : gmap nat (list T)) (result self : Tensor)
    : option (gmap nat (list T) * Tensor) :=
  match result with
  | Some r =>
      let '(h', r') :=
        resize_ uninit h r (sizes_of self)
          (contiguous_strides (sizes_of self)) in
      Some (h', Some r')
  | None => None
  end.

Definition tri_dpcpp_out (upper : bool)
    (h : gmap nat (list T)) (result self : Tensor) (k : Z)
    : option (gmap nat (list T) * Tensor) :=
  match
    (if bool_decide (sizes_of result <> sizes_of self)
     then resize_as_ h result self
     else Some (h, result))
  with
  | Some (h1, result1) =>
      (* when [result] is [self] the resize above did nothing *)
      if numel self =? 0 then Some (h1, result1)
      else triu_tril_dpcpp_template upper h1 result1 self k
  | None => None
  end.

Definition tril_dpcpp_out := tri_dpcpp_out false.
Definition triu_dpcpp_out := tri_dpcpp_out true.

Definition tril_dpcpp_ (h : gmap nat (list T)) (self : Tensor) (k : Z) :=
  tril_dpcpp_out h self self k.

Definition triu_dpcpp_ (h : gmap nat (list T)) (self : Tensor) (k : Z) :=
  triu_dpcpp_out h self self k.

Definition triu_out (h : gmap nat (list T)) (out self : Tensor)
    (diagonal : Z) := triu_dpcpp_out h out self diagonal.

Definition tril_out (h : gmap nat (list T)) (out self : Tensor)
    (diagonal : Z) := tril_dpcpp_out h out self diagonal.

Definition tril_ (h : gmap nat (list T)) (self : Tensor) (diagonal : Z) :=
  tril_out h self self diagonal.

Definition triu_ (h : gmap nat (list T)) (self : Tensor) (diagonal : Z) :=
  triu_out h self self diagonal.

End TriuTril.

(** ** LU factorization with status reporting *)

(** The LU entry point allocates all its results: its tensors are
    modelled by value (element type, shape and elements). *)
Record Values (A : Type) : Type := mkValues {
  dtype : ScalarType;
  shape : list Z;
  elements : list A
}.

Arguments mkValues {A} _ _ _.
Arguments dtype {A} _.
Arguments shape {A} _.
Arguments elements {A} _.

(** The element types of [IPEX_DISPATCH_FLOATING_TYPES] and of
    [AT_DISPATCH_FLOATING_TYPES]. *)
Definition is_floating_type (t : ScalarType) : bool :=
  match t with Float | Double => true | _ => false end.

(** [TooFewDimensions msg size rest] is the failed rank check: the
    message [msg], the sizes of the input, and the words [rest].
    [DispatchError name ty] is the failed dispatch
    ["name" not implemented for 'ty']. *)
Inductive lu_error : Type :=
| NotImplemented (msg : string)
| InvalidArgument (msg : string)
| TooFewDimensions (msg : string) (size : list Z) (rest : string)
| DispatchError (name : string) (ty : ScalarType)
| BackendMissing (msg : string)
| IllegalValue (name : string) (batch : option nat) (argument : Z)
| SingularU (name : string) (batch : option nat) (info : Z).

Inductive lu_result (A : Type) : Type :=
| LuOk (a : A)
| LuError (e : lu_error).

Arguments LuOk {A} _.
Arguments LuError {A} _.

(** Modelled from the spec: [native::singleCheckErrors] (tensor
    framework).  The "caller converts non-zero codes into a reported
    failure"; for one matrix the scalar status itself is the failure. *)
Definition singleCheckErrors (info : Z) (name : string) : lu_result unit :=
  if info <? 0 then LuError (IllegalValue name None (- info))
  else if 0 <? info then LuError (SingularU name None info)
  else LuOk tt.

(** Modelled from the spec: [native::batchCheckErrors] (tensor
    framework).  The first non-zero status is reported together with the
    index of its batch element. *)
Fixpoint batchCheckErrors_from (i : nat) (infos : list Z) (name : string)
    : lu_result unit :=
  match infos with
  | [] => LuOk tt
  | info :: rest =>
      if info <? 0 then LuError (IllegalValue name (Some i) (- info))
      else if 0 <? info then LuError (SingularU name (Some i) info)
      else batchCheckErrors_from (S i) rest name
  end.

Definition batchCheckErrors (infos : Values Z) (name : string)
    : lu_result unit :=
  batchCheckErrors_from 0 (elements infos) name.

Section LU.

(** Matrix elements ([scalar_t], a floating type). *)
Context {R : Type}.

(** Whether the library was built with [USE_ONEMKL]. *)
Variable USE_ONEMKL : bool.

(** Modelled from the spec: the factorization service behind
    [oneapi::mkl::lapack::getrf_batch].  It "consumes a batched
    column-major tensor, returns factors plus a per-batch-element integer
    status code (0 = success, else failure index)".  Arguments: [m], [n],
    the matrices, [lda], [stride_a], [stride_ipiv], [batch_size]; results:
    the factors, the pivots, the status codes. *)
Variable getrf_batch :
  Z -> Z -> list R -> Z -> Z -> Z -> Z -> list R * list Z * list Z.

(** [native::cloneBatchedColumnMajor] (tensor framework). *)
Variable cloneBatchedColumnMajor : Values R -> Values R.

(** Contents of memory obtained from [at::empty]. *)
Variable uninit_R : R.
Variable uninit_Z : Z.

Definition lu_dim {A} (t : Values A) : Z := Z.of_nat (length (shape t)).
Definition lu_numel {A} (t : Values A) : Z := prod_list (shape t).

(** [self.size(-1)] and [self.size(-2)]. *)
Definition size_back {A} (t : Values A) (back : nat) : Z :=
  nth back (rev (shape t)) 0.

(** [native::batchCount]: the product of all but the last two sizes. *)
Definition batchCount {A} (t : Values A) : Z :=
  prod_list (removelast (removelast (shape t))).

Definition empty {A} (ty : ScalarType) (fill : A) (size : list Z)
    : Values A :=
  mkValues ty size (replicate (Z.to_nat (prod_list size)) fill).

(** [at::zeros(size, options.dtype(kLong))]. *)
Definition zeros (size : list Z) : Values Z := empty Long 0 size.

(** [native::squareCheckInputs] (tensor framework): the last two sizes
    agree; its failure is reported below as [InvalidArgument] with the
    constant part of the message. *)
Definition squareCheckInputs {A} (t : Values A) : bool :=
  size_back t 0 =? size_back t 1.

(** [impl::apply_lu_dpcpp_]: the call of [getrf_batch] receives the
    matrices and the pivots only; [infos_] is never passed on, and the
    status codes of the service have no destination. *)
Definition apply_lu_dpcpp_ (self_ : Values R) (pivots_ infos_ : Values Z)
    : lu_result (Values R * Values Z * Values Z) :=
  if USE_ONEMKL then
    let batch_size := batchCount self_ in
    let m := size_back self_ 1 in
    let n := size_back self_ 0 in
    let lda := m in
    let stride_a := lda * n in
    let stride_ipiv := if m <? n then m else n in
    let '(a, ipiv, _) :=
      getrf_batch m n (elements self_) lda stride_a stride_ipiv batch_size in
    LuOk (mkValues (dtype self_) (shape self_) a,
          mkValues (dtype pivots_) (shape pivots_) ipiv, infos_)
  else LuError (BackendMissing "lu: oneMKL library not found in compilation").

(** [infos_tensor.item<int64_t>()]. *)
Definition item (t : Values Z) : Z := nth 0 (elements t) 0.

Definition _lu_with_info (self : Values R) (pivot check_errors : bool)
    : lu_result (Values R * Values Z * Values Z) :=
  if negb pivot then
    LuError (NotImplemented
               "lu without pivoting is not implemented on the DPCPP")
  else if negb (2 <=? lu_dim self) then
    LuError (TooFewDimensions
               "expected tensor with 2 or more dimensions, got size: "
               (shape self) " instead")
  else if negb (squareCheckInputs self) then
    LuError (InvalidArgument "A must be batches of square matrices")
  else
    let req_size := removelast (shape self) in
    let pivots_tensor := empty Long uninit_Z req_size in
    let req_size := removelast req_size in
    let infos_tensor := zeros req_size in
    match
      (if lu_numel self =? 0
       then LuOk (empty (dtype self) uninit_R (shape self),
                  pivots_tensor, infos_tensor)
       else
         let self_working_copy := cloneBatchedColumnMajor self in
         if is_floating_type (dtype self)
         then apply_lu_dpcpp_ self_working_copy pivots_tensor infos_tensor
         else LuError (DispatchError "lu_dpcpp" (dtype self)))
    with
    | LuError e => LuError e
    | LuOk (self_working_copy, pivots_tensor, infos_tensor) =>
        match
          (if check_errors then
             if 2 <? lu_dim self then batchCheckErrors infos_tensor "lu"
             else singleCheckErrors (item infos_tensor) "lu"
           else LuOk tt)
        with
        | LuError e => LuError e
        | LuOk _ => LuOk (self_working_copy, pivots_tensor, infos_tensor)
        end
    end.

End LU.

(** ** Facts about the triangular-mask kernel *)

Section RunItems.
Context {T : Type}.
Implicit Types (h : gmap nat (list T)).

Lemma run_items_seqZ_inv (P : Z -> gmap nat (list T) -> Prop) f len :
  forall a h h',
  P a h ->
  (forall g hg hg', a <= g < a + Z.of_nat len -> P g hg -> f hg g = Some hg' ->
     P (g + 1) hg') ->
  run_items f h (seqZ a (Z.of_nat len)) = Some h' ->
  P (a + Z.of_nat len) h'.
Proof.
  induction len as [|len IH]; intros a h h' HP Hstep.
  - cbn. intros [= <-]. replace (a + Z.of_nat 0) with a by lia. exact HP.
  - rewrite seqZ_cons by lia. cbn [run_items].
    destruct (f h a) as [h1|] eqn:Hf; [|discriminate].
    replace (Z.pred (Z.of_nat (S len))) with (Z.of_nat len) by lia.
    intros Hrun.
    replace (a + Z.of_nat (S len)) with (Z.succ a + Z.of_nat len) by lia.
    apply (IH (Z.succ a) h1 h').
    + replace (Z.succ a) with (a + 1) by lia.
      apply (Hstep a h h1); [lia|exact HP|exact Hf].
    + intros g hg hg' Hg. apply Hstep. lia.
    + exact Hrun.
Qed.

Lemma run_items_seqZ_total (P : Z -> gmap nat (list T) -> Prop) f len :
  forall a h,
  P a h ->
  (forall g hg, a <= g < a + Z.of_nat len -> P g hg ->
     exists hg', f hg g = Some hg' /\ P (g + 1) hg') ->
  exists h', run_items f h (seqZ a (Z.of_nat len)) = Some h' /\
             P (a + Z.of_nat len) h'.
Proof.
  induction len as [|len IH]; intros a h HP Hstep.
  - cbn. exists h. split; [reflexivity|].
    replace (a + Z.of_nat 0) with a by lia. exact HP.
  - rewrite seqZ_cons by lia. cbn [run_items].
    destruct (Hstep a h) as (h1 & Hf & HP1); [lia|exact HP|].
    rewrite Hf.
    replace (Z.pred (Z.of_nat (S len))) with (Z.of_nat len) by lia.
    replace (a + Z.of_nat (S len)) with (Z.succ a + Z.of_nat len) by lia.
    apply IH.
    + replace (Z.succ a) with (a + 1) by lia. exact HP1.
    + intros g hg Hg. apply Hstep. lia.
Qed.
End RunItems.

Section KernelFacts.
Context {T : Type} (zero : T) (gs : Z).
Variables (w : Z) (upper : bool) (result src : pointer) (s0 s1 k N : Z).
Variable h0 : gmap nat (list T).
Hypothesis Halias : result = src \/ ptr_storage result <> ptr_storage src.
Hypothesis HN : 0 <= N.
Hypothesis Hgs : 0 < gs.
Hypothesis Hbound : N + gs <= 2 ^ 63.

Lemma total_items_bounds : N <= CeilDiv N gs * gs < N + gs.
Proof.
  unfold CeilDiv.
  pose proof (Z.div_mod (N + gs - 1) gs ltac:(lia)) as Hdm.
  pose proof (Z.mod_pos_bound (N + gs - 1) gs Hgs) as Hm.
  lia.
Qed.

Lemma masked_value_ext h h' i :
  load h src i = load h' src i ->
  masked_value zero w upper src s0 s1 k h i =
  masked_value zero w upper src s0 s1 k h' i.
Proof.
  intros E. unfold masked_value.
  destruct (row_col w s0 s1 i) as [[row col]|]; [|reflexivity].
  destruct (mask_of w upper k row col) as [[|]|]; congruence.
Qed.

Lemma work_item_gid h gid :
  0 <= gid < CeilDiv N gs * gs ->
  work_item zero (S (Z.to_nat N)) w upper result src s0 s1 k N
    (CeilDiv N gs * gs) h gid =
  if gid <? N then triu_tril_body zero w upper result src s0 s1 k h gid
  else Some h.
Proof.
  intros Hg. pose proof total_items_bounds as Ht.
  assert (HwN : wrap64 N = N).
  { unfold wrap64. apply Z.mod_small. lia. }
  cbn [work_item]. rewrite HwN.
  destruct (gid <? N) eqn:E; [|reflexivity].
  apply Z.ltb_lt in E.
  destruct (triu_tril_body _ _ _ _ _ _ _ _ h gid) as [h1|]; [|reflexivity].
  destruct (Z.to_nat N) as [|n] eqn:En; [lia|].
  cbn [work_item]. rewrite HwN.
  assert (Hw : wrap64 (gid + CeilDiv N gs * gs) = gid + CeilDiv N gs * gs).
  { unfold wrap64. apply Z.mod_small. lia. }
  rewrite Hw.
  destruct (_ <? N) eqn:E2; [apply Z.ltb_lt in E2; lia|reflexivity].
Qed.

(** The state after the work items below [g] have run. *)
Definition kernel_inv (g : Z) (hg : gmap nat (list T)) : Prop :=
  (forall i, 0 <= i < N -> i < g ->
     is_Some (masked_value zero w upper src s0 s1 k h0 i) /\
     load hg result i = masked_value zero w upper src s0 s1 k h0 i) /\
  (forall i, 0 <= i < N -> g <= i -> load hg src i = load h0 src i) /\
  (forall i, is_Some (load h0 result i) -> is_Some (load hg result i)) /\
  (forall s, s <> ptr_storage result -> hg !! s = h0 !! s).

Lemma kernel_inv_init : kernel_inv 0 h0.
Proof.
  repeat split; try (intros; lia); auto.
Qed.

Lemma kernel_inv_step g hg hg' :
  0 <= g < CeilDiv N gs * gs ->
  kernel_inv g hg ->
  work_item zero (S (Z.to_nat N)) w upper result src s0 s1 k N
    (CeilDiv N gs * gs) hg g = Some hg' ->
  kernel_inv (g + 1) hg'.
Proof.
  intros Hg (Ha & Hb & Hc & Hd). rewrite work_item_gid by exact Hg.
  destruct (g <? N) eqn:E.
  - apply Z.ltb_lt in E. unfold triu_tril_body.
    destruct (masked_value zero w upper src s0 s1 k hg g) as [v|] eqn:Hv;
      [|discriminate].
    intros Hst.
    rewrite (masked_value_ext hg h0 g) in Hv by (apply Hb; lia).
    repeat split.
    + destruct (decide (i = g)) as [->|Hne]; [rewrite Hv; eauto|].
      apply Ha; lia.
    + destruct (decide (i = g)) as [->|Hne].
      * rewrite Hv. eapply load_store_eq; eauto.
      * rewrite (load_store_ne _ _ _ _ _ result i Hst) by (right; lia).
        apply Ha; lia.
    + intros i Hi Hgi.
      rewrite (load_store_ne _ _ _ _ _ src i Hst).
      * apply Hb; lia.
      * destruct Halias as [->|Hne]; [right; lia|left; congruence].
    + intros i Hi. eapply load_is_Some_store; eauto.
    + intros s Hs. rewrite (store_other_storage _ _ _ _ _ s Hst Hs). auto.
  - apply Z.ltb_ge in E. intros [= <-].
    repeat split.
    + apply Ha; lia.
    + apply Ha; lia.
    + intros i Hi Hgi. apply Hb; lia.
    + exact Hc.
    + exact Hd.
Qed.

Lemma kernel_step_total g hg :
  0 <= g < CeilDiv N gs * gs ->
  (forall i, 0 <= i < N ->
     is_Some (masked_value zero w upper src s0 s1 k h0 i) /\
     is_Some (load h0 result i)) ->
  kernel_inv g hg ->
  is_Some (work_item zero (S (Z.to_nat N)) w upper result src s0 s1 k N
             (CeilDiv N gs * gs) hg g).
Proof.
  intros Hg Hok (Ha & Hb & Hc & Hd). rewrite work_item_gid by exact Hg.
  destruct (g <? N) eqn:E; [|eauto].
  apply Z.ltb_lt in E. unfold triu_tril_body.
  destruct (Hok g ltac:(lia)) as [[v Hv] Hl].
  rewrite (masked_value_ext hg h0 g) by (apply Hb; lia).
  rewrite Hv. apply store_is_Some. apply Hc. exact Hl.
Qed.

(** Partial correctness: a kernel that returns has masked every linear
    position below [N], left the other storages alone, and met no
    undefined operation on the way. *)
Lemma kernel_returns h' :
  triu_tril_dpcpp_kernel zero gs w upper h0 result src s0 s1 k N = Some h' ->
  (forall i, 0 <= i < N ->
     is_Some (masked_value zero w upper src s0 s1 k h0 i) /\
     load h' result i = masked_value zero w upper src s0 s1 k h0 i) /\
  (forall s, s <> ptr_storage result -> h' !! s = h0 !! s).
Proof.
  unfold triu_tril_dpcpp_kernel.
  destruct (gs =? 0) eqn:E; [apply Z.eqb_eq in E; lia|].
  pose proof total_items_bounds as Ht.
  intros Hrun.
  rewrite <- (Z2Nat.id (CeilDiv N gs * gs)) in Hrun at 2 by lia.
  apply (run_items_seqZ_inv kernel_inv) in Hrun.
  - destruct Hrun as (Ha & _ & _ & Hd). split; [|exact Hd].
    intros i Hi. apply Ha; [exact Hi|]. rewrite Z2Nat.id by lia. lia.
  - exact kernel_inv_init.
  - intros g hg hg' Hg. apply kernel_inv_step. rewrite Z2Nat.id in Hg by lia. lia.
Qed.

(** Totality: when no position below [N] meets an undefined operation and
    the result buffer holds [N] elements, the kernel returns. *)
Lemma kernel_total :
  (forall i, 0 <= i < N ->
     is_Some (masked_value zero w upper src s0 s1 k h0 i) /\
     is_Some (load h0 result i)) ->
  is_Some (triu_tril_dpcpp_kernel zero gs w upper h0 result src s0 s1 k N).
Proof.
  intros Hok. unfold triu_tril_dpcpp_kernel.
  destruct (gs =? 0) eqn:E; [apply Z.eqb_eq in E; lia|].
  pose proof total_items_bounds as Ht.
  rewrite <- (Z2Nat.id (CeilDiv N gs * gs)) at 2 by lia.
  destruct (run_items_seqZ_total kernel_inv
              (work_item zero (S (Z.to_nat N)) w upper result src s0 s1 k N
                 (CeilDiv N gs * gs))
              (Z.to_nat (CeilDiv N gs * gs)) 0 h0 kernel_inv_init)
    as (h' & Hrun & _).
  - intros g hg Hg Hinv. rewrite Z2Nat.id in Hg by lia.
    destruct (kernel_step_total g hg ltac:(lia) Hok Hinv) as [hg' Hw].
    exists hg'. split; [exact Hw|].
    eapply kernel_inv_step; eauto.
  - rewrite Hrun. eauto.
Qed.

End KernelFacts.
Section MaskFormula.
Context {T : Type} (zero : T).

Lemma to_signed_small w z : 0 < w -> 0 <= z < 2 ^ (w - 1) -> to_signed w z = z.
Proof.
  intros Hw Hz. unfold to_signed.
  assert (2 ^ (w - 1) < 2 ^ w) by (apply Z.pow_lt_mono_r; lia).
  rewrite Z.mod_small by lia.
  destruct (z <? 2 ^ (w - 1)) eqn:E; [reflexivity|].
  apply Z.ltb_ge in E. lia.
Qed.

Lemma pow_w_le w : w = 32 \/ w = 64 -> 0 < w /\ 2 ^ (w - 1) <= 2 ^ 63.
Proof. intros [->| ->]; split; try lia; apply Z.pow_le_mono_r; lia. Qed.

(** Within the range of [IndexType] the casts of the kernel are the
    identity, and the row, column and mask are the plain quotients. *)
Lemma masked_value_formula w upper src s0 s1 k (h : gmap nat (list T)) i :
  w = 32 \/ w = 64 ->
  0 < s0 < 2 ^ (w - 1) -> 0 < s1 < 2 ^ (w - 1) -> 0 <= i < 2 ^ (w - 1) ->
  masked_value zero w upper src s0 s1 k h i =
  let row := if s0 >? s1 then i / s0 else i mod s1 / s0 in
  let col := if s0 >? s1 then i mod s0 / s1 else i / s1 in
  if (if upper then k <=? col - row else col - row <=? k)
  then load h src i else Some zero.
Proof.
  intros Hw H0 H1 Hi. destruct (pow_w_le w Hw) as [Hw0 Hw63].
  unfold masked_value, row_col.
  assert (E0 : wrap64 s0 = s0) by (unfold wrap64; apply Z.mod_small; lia).
  assert (E1 : wrap64 s1 = s1) by (unfold wrap64; apply Z.mod_small; lia).
  rewrite E0, E1.
  destruct (s0 =? 0) eqn:Z0; [apply Z.eqb_eq in Z0; lia|].
  destruct (s1 =? 0) eqn:Z1; [apply Z.eqb_eq in Z1; lia|].
  cbn [orb].
  assert (Hq : forall a d, 0 <= a <= i -> 0 < d -> 0 <= a / d < 2 ^ (w - 1)).
  { intros a d Ha Hd. split; [apply Z.div_pos; lia|].
    apply Z.le_lt_trans with a; [|lia].
    apply Z.div_le_upper_bound; [lia|]. nia. }
  assert (Hm : forall d, 0 < d -> 0 <= i mod d <= i).
  { intros d Hd. pose proof (Z.mod_pos_bound i d Hd).
    pose proof (Z.mod_le i d ltac:(lia) Hd). lia. }
  pose proof (Hq i s0 ltac:(lia) ltac:(lia)) as Q0.
  pose proof (Hq (i mod s0) s1 (Hm s0 ltac:(lia)) ltac:(lia)) as Q1.
  pose proof (Hq i s1 ltac:(lia) ltac:(lia)) as Q2.
  pose proof (Hq (i mod s1) s0 (Hm s1 ltac:(lia)) ltac:(lia)) as Q3.
  destruct (s0 >? s1) eqn:Egt; cbn zeta.
  - rewrite (to_signed_small w (i / s0)) by (exact Hw0 || exact Q0).
    rewrite (to_signed_small w (i mod s0 / s1)) by (exact Hw0 || exact Q1).
    unfold mask_of, in_signed_range.
    rewrite (proj2 (Z.leb_le _ _)) by lia.
    rewrite (proj2 (Z.ltb_lt _ _)) by lia.
    reflexivity.
  - rewrite (to_signed_small w (i / s1)) by (exact Hw0 || exact Q2).
    rewrite (to_signed_small w (i mod s1 / s0)) by (exact Hw0 || exact Q3).
    unfold mask_of, in_signed_range.
    rewrite (proj2 (Z.leb_le _ _)) by lia.
    rewrite (proj2 (Z.ltb_lt _ _)) by lia.
    reflexivity.
Qed.

End MaskFormula.

Section ResizeFacts.
Context {T : Type} (uninit : nat -> T).

Lemma length_grow (buf : list T) n : (n <= length (grow uninit buf n))%nat.
Proof.
  unfold grow. rewrite length_app, List.length_map, length_seq. lia.
Qed.

Lemma resize_data_ptr (h : gmap nat (list T)) r size stride :
  data_ptr (snd (resize_ uninit h r size stride)) = data_ptr r.
Proof. reflexivity. Qed.

Lemma resize_sizes (h : gmap nat (list T)) r size stride :
  sizes (snd (resize_ uninit h r size stride)) = size.
Proof. reflexivity. Qed.

Lemma resize_other (h : gmap nat (list T)) r size stride p i :
  ptr_storage p <> storage r ->
  load (fst (resize_ uninit h r size stride)) p i = load h p i.
Proof.
  intros Hne. unfold load, resize_. cbn [fst].
  rewrite lookup_insert_ne by congruence. reflexivity.
Qed.

Lemma resize_room (h : gmap nat (list T)) r size stride i :
  0 <= storage_offset r -> 0 <= i < prod_list size ->
  is_Some (load (fst (resize_ uninit h r size stride)) (data_ptr r) i).
Proof.
  intros Ho Hi. unfold load, resize_, data_ptr. cbn [fst ptr_storage ptr_offset].
  rewrite lookup_insert_eq.
  destruct (0 <=? storage_offset r + i) eqn:E; [|lia].
  apply lookup_lt_is_Some.
  pose proof (length_grow (default [] (h !! storage r))
                (Z.to_nat (storage_offset r + prod_list size))).
  lia.
Qed.

End ResizeFacts.
(** ** Concrete matrices *)

(** A 3x3 row-major matrix of ones in storage [0]; an empty result tensor
    over storage [1]; a work-group size of four. *)
Definition ones3x3_heap : gmap nat (list Z) :=
  <[1%nat := []]> (<[0%nat := [1; 1; 1; 1; 1; 1; 1; 1; 1]]> ∅).

Definition ones3x3 : Tensor :=
  Some {| scalar_type := Long; sizes := [3; 3]; strides := [3; 1];
          storage := 0%nat; storage_offset := 0 |}.

Definition empty_out : Tensor :=
  Some {| scalar_type := Long; sizes := [0]; strides := [1];
          storage := 1%nat; storage_offset := 0 |}.

(** The buffer of storage [s] after an operator call. *)
Definition buffer_after (r : option (gmap nat (list Z) * Tensor)) (s : nat)
    : option (list Z) :=
  match r with Some (h, _) => h !! s | None => None end.

(** C7. For either index width, positive strides, a count [N] within the
    index range and buffers holding [N] elements, the kernel returns and
    has written, at every linear position [i] below [N], the source
    element when [upper ? col - row >= k : col - row <= k] and zero
    otherwise, where [row = i / stride0], [col = (i mod stride0) / stride1]
    if [stride0 > stride1], and [row = (i mod stride1) / stride0],
    [col = i / stride1] otherwise.  On the 3x3 matrix of ones, [triu] and
    [tril] with [k = 0] keep the diagonal, and [k = 1], [k = -1] move the
    kept region by one diagonal. *)
Theorem triu_tril_kernel_writes_mask :
  (forall (T : Type) (zero : T) (gs w : Z) (upper : bool)
          (h : gmap nat (list T)) (result src : pointer)
          (stride0 stride1 k N : Z),
     w = 32 \/ w = 64 ->
     0 < gs -> N + gs <= 2 ^ 63 -> 0 <= N < 2 ^ (w - 1) ->
     0 < stride0 < 2 ^ (w - 1) -> 0 < stride1 < 2 ^ (w - 1) ->
     result = src \/ ptr_storage result <> ptr_storage src ->
     (forall i, 0 <= i < N ->
        is_Some (load h src i) /\ is_Some (load h result i)) ->
     exists h',
       triu_tril_dpcpp_kernel zero gs w upper h result src
         stride0 stride1 k N = Some h' /\
       forall i, 0 <= i < N ->
         let row := if stride0 >? stride1 then i / stride0
                    else i mod stride1 / stride0 in
         let col := if stride0 >? stride1 then i mod stride0 / stride1
                    else i / stride1 in
         load h' result i =
         if (if upper then k <=? col - row else col - row <=? k)
         then load h src i else Some zero) /\
  buffer_after (triu_out 0 (fun _ => 7) 4 ones3x3_heap empty_out ones3x3 0) 1
    = Some [1; 1; 1;  0; 1; 1;  0; 0; 1] /\
  buffer_after (tril_out 0 (fun _ => 7) 4 ones3x3_heap empty_out ones3x3 0) 1
    = Some [1; 0; 0;  1; 1; 0;  1; 1; 1] /\
  buffer_after (triu_out 0 (fun _ => 7) 4 ones3x3_heap empty_out ones3x3 1) 1
    = Some [0; 1; 1;  0; 0; 1;  0; 0; 0] /\
  buffer_after (tril_out 0 (fun _ => 7) 4 ones3x3_heap empty_out ones3x3 (-1)) 1
    = Some [0; 0; 0;  1; 0; 0;  1; 1; 0] /\
  buffer_after (triu_out 0 (fun _ => 7) 4 ones3x3_heap empty_out ones3x3 (-1)) 1
    = Some [1; 1; 1;  1; 1; 1;  0; 1; 1] /\
  buffer_after (tril_out 0 (fun _ => 7) 4 ones3x3_heap empty_out ones3x3 1) 1
    = Some [1; 1; 0;  1; 1; 1;  1; 1; 1].
Proof.
  split; [|repeat split; vm_compute; reflexivity].
  intros T zero gs w upper h result src s0 s1 k N Hw Hgs Hb HN H0 H1 Hal Hok.
  assert (Hmv : forall i, 0 <= i < N ->
            masked_value zero w upper src s0 s1 k h i =
            let row := if s0 >? s1 then i / s0 else i mod s1 / s0 in
            let col := if s0 >? s1 then i mod s0 / s1 else i / s1 in
            if (if upper then k <=? col - row else col - row <=? k)
            then load h src i else Some zero).
  { intros i Hi. apply masked_value_formula; try assumption. lia. }
  destruct (kernel_total zero gs w upper result src s0 s1 k N h Hal
              ltac:(lia) Hgs Hb) as [h' Hk].
  { intros i Hi. destruct (Hok i Hi) as [Hs Hr]. split; [|exact Hr].
    rewrite Hmv by exact Hi. cbn zeta.
    destruct (if upper then _ else _); eauto. }
  exists h'. split; [exact Hk|].
  intros i Hi.
  destruct (kernel_returns zero gs w upper result src s0 s1 k N h Hal
              ltac:(lia) Hgs Hb h' Hk) as [Hv _].
  destruct (Hv i Hi) as [_ ->]. apply Hmv. exact Hi.
Qed.

Lemma triu_tril_kernel_writes_mask_witness :
  exists h',
    triu_tril_dpcpp_kernel 0 4 32 true ones3x3_heap
      (mkPointer 0 0) (mkPointer 0 0) 3 1 0 9 = Some h' /\
    forall i, 0 <= i < 9 ->
      let row := if 3 >? 1 then i / 3 else i mod 1 / 3 in
      let col := if 3 >? 1 then i mod 3 / 1 else i / 1 in
      load h' (mkPointer 0 0) i =
      if (if true then 0 <=? col - row else col - row <=? 0)
      then load ones3x3_heap (mkPointer 0 0) i else Some 0.
Proof.
  apply (proj1 triu_tril_kernel_writes_mask Z 0 4 32 true ones3x3_heap
           (mkPointer 0 0) (mkPointer 0 0) 3 1 0 9).
  - left; reflexivity.
  - lia.
  - vm_compute; discriminate.
  - split; [lia|reflexivity].
  - split; [lia|reflexivity].
  - split; [lia|reflexivity].
  - left; reflexivity.
  - intros i Hi.
    assert (i = 0 \/ i = 1 \/ i = 2 \/ i = 3 \/ i = 4 \/ i = 5 \/ i = 6 \/
            i = 7 \/ i = 8) as Hc by lia.
    repeat (destruct Hc as [->|Hc]; [split; vm_compute; eauto|]).
    subst i; split; vm_compute; eauto.
Defined.
Section InPlace.
Context {T : Type} (zero : T) (uninit : nat -> T) (gs : Z).

(** The in-place form against the out-of-place form on another storage,
    for either direction of the mask. *)
Lemma tri_inplace_vs_out upper (h : gmap nat (list T)) (s r : TensorImpl) k
    h1 t1 :
  0 < gs -> numel (Some s) + gs <= 2 ^ 63 ->
  Forall (fun n => 0 <= n) (sizes s) ->
  scalar_type r = scalar_type s ->
  storage r <> storage s -> 0 <= storage_offset r ->
  (sizes r = sizes s ->
   forall i, 0 <= i < numel (Some s) -> is_Some (load h (data_ptr r) i)) ->
  tri_dpcpp_out zero uninit gs upper h (Some s) (Some s) k = Some (h1, t1) ->
  exists h2 r2,
    tri_dpcpp_out zero uninit gs upper h (Some r) (Some s) k
      = Some (h2, Some r2) /\
    sizes r2 = sizes s /\
    forall i, 0 <= i < numel (Some s) ->
      load h1 (data_ptr s) i = load h2 (data_ptr r2) i.
Proof.
  intros Hgs Hb Hsz Hty Hst Hoff Hroom.
  pose proof (prod_list_nonneg _ Hsz) as HN.
  change (prod_list (sizes s)) with (numel (Some s)) in HN.
  intros Hin. unfold tri_dpcpp_out in Hin.
  rewrite bool_decide_eq_false_2 in Hin
    by (intros Hne; apply Hne; reflexivity).
  (* the pre-kernel state of the out-of-place call *)
  assert (exists hr rr,
            (if bool_decide (sizes_of (Some r) <> sizes_of (Some s))
             then resize_as_ uninit h (Some r) (Some s)
             else Some (h, Some r)) = Some (hr, Some rr) /\
            sizes rr = sizes s /\ data_ptr rr = data_ptr r /\
            (forall p i, ptr_storage p <> storage r ->
               load hr p i = load h p i) /\
            (forall i, 0 <= i < numel (Some s) ->
               is_Some (load hr (data_ptr r) i)) /\
            scalar_type rr = scalar_type r)
    as (hr & rr & Hpre & Hsizes & Hptr & Hframe & Hfit & Htyr).
  { destruct (bool_decide _) eqn:Ed.
    - unfold resize_as_.
      destruct (resize_ uninit h r (sizes_of (Some s))
                  (contiguous_strides (sizes_of (Some s)))) as [hr rr] eqn:Er.
      exists hr, rr. split; [reflexivity|].
      assert (Htyr : scalar_type rr = scalar_type r).
      { unfold resize_ in Er. injection Er as _ <-. reflexivity. }
      pose proof (resize_sizes uninit h r (sizes s)
                    (contiguous_strides (sizes s))) as E1.
      pose proof (resize_data_ptr uninit h r (sizes s)
                    (contiguous_strides (sizes s))) as E2.
      cbn [sizes_of] in Er. rewrite Er in E1, E2. cbn [snd] in E1, E2.
      repeat split; try assumption.
      + intros p i Hp.
        pose proof (resize_other uninit h r (sizes s)
                      (contiguous_strides (sizes s)) p i Hp) as E3.
        rewrite Er in E3. exact E3.
      + intros i Hi.
        pose proof (resize_room uninit h r (sizes s)
                      (contiguous_strides (sizes s)) i Hoff Hi) as E4.
        rewrite Er in E4. exact E4.
    - apply bool_decide_eq_false in Ed.
      assert (sizes r = sizes s) as Heq.
      { destruct (decide (sizes r = sizes s)); [assumption|].
        exfalso; apply Ed; assumption. }
      exists h, r. repeat split; auto. }
  assert (Hout :
    tri_dpcpp_out zero uninit gs upper h (Some r) (Some s) k =
    if numel (Some s) =? 0 then Some (hr, Some rr)
    else triu_tril_dpcpp_template zero gs upper hr (Some rr) (Some s) k).
  { unfold tri_dpcpp_out. rewrite Hpre. reflexivity. }
  rewrite Hout. clear Hout Hpre.
  destruct (numel (Some s) =? 0) eqn:E0.
  - exists hr, rr. split; [reflexivity|]. split; [exact Hsizes|].
    apply Z.eqb_eq in E0. intros i Hi. lia.
  - unfold triu_tril_dpcpp_template in *.
    destruct (dispatch_all_types_and_half_bool (scalar_type s));
      [cbn [negb] in *|discriminate].
    destruct (strides s) as [|st0 [|st1 sts]]; try discriminate.
    set (w := if canUse32BitIndexMath (Some s) then 32 else 64) in *.
    rewrite bool_decide_eq_true_2 in Hin by reflexivity.
    rewrite bool_decide_eq_true_2 by congruence.
    cbn [negb] in *.
    destruct (triu_tril_dpcpp_kernel zero gs w upper h (data_ptr s)
                (data_ptr s) (to_signed w st0) (to_signed w st1) k
                (numel (Some s))) as [h1'|] eqn:Hk1; [|discriminate].
    injection Hin as <- <-.
    destruct (kernel_returns zero gs w upper (data_ptr s) (data_ptr s)
                (to_signed w st0) (to_signed w st1) k (numel (Some s)) h
                (or_introl eq_refl) HN Hgs Hb h1' Hk1) as [Hv1 _].
    assert (Hmv : forall i,
              masked_value zero w upper (data_ptr s) (to_signed w st0)
                (to_signed w st1) k hr i =
              masked_value zero w upper (data_ptr s) (to_signed w st0)
                (to_signed w st1) k h i).
    { intros i. apply masked_value_ext. apply Hframe. cbn. congruence. }
    assert (Hal : data_ptr rr = data_ptr s \/
                  ptr_storage (data_ptr rr) <> ptr_storage (data_ptr s)).
    { right. rewrite Hptr. cbn. exact Hst. }
    destruct (kernel_total zero gs w upper (data_ptr rr) (data_ptr s)
                (to_signed w st0) (to_signed w st1) k (numel (Some s)) hr
                Hal HN Hgs Hb) as [h2 Hk2].
    { intros i Hi. rewrite Hmv. split; [apply Hv1; exact Hi|].
      rewrite Hptr. apply Hfit. exact Hi. }
    rewrite Hk2. exists h2, rr. split; [reflexivity|].
    split; [exact Hsizes|].
    intros i Hi.
    destruct (kernel_returns zero gs w upper (data_ptr rr) (data_ptr s)
                (to_signed w st0) (to_signed w st1) k (numel (Some s)) hr
                Hal HN Hgs Hb h2 Hk2) as [Hv2 _].
    destruct (Hv1 i Hi) as [_ ->]. destruct (Hv2 i Hi) as [_ ->].
    symmetry. apply Hmv.
Qed.

End InPlace.

(** C10. Whenever the in-place form [triu_(self, k)] (or [tril_]) returns,
    the out-of-place form [triu_out] ([tril_out]) into a result tensor of
    the element type of [self] on another storage returns as well, its
    result has the sizes of [self], and the two buffers agree at every
    linear position below the element count: the kernel reads position
    [i] of the source and writes position [i] of the result, so sharing
    the buffer changes nothing.  (A result of another element type is
    refused by [result.data_ptr<scalar_t>()].) *)
Theorem tri_inplace_matches_out_of_place
    (T : Type) (zero : T) (uninit : nat -> T) (gs : Z)
    (h : gmap nat (list T)) (s r : TensorImpl) (k : Z) :
  0 < gs -> numel (Some s) + gs <= 2 ^ 63 ->
  Forall (fun n => 0 <= n) (sizes s) ->
  scalar_type r = scalar_type s ->
  storage r <> storage s -> 0 <= storage_offset r ->
  (sizes r = sizes s ->
   forall i, 0 <= i < numel (Some s) -> is_Some (load h (data_ptr r) i)) ->
  (forall h1 t1,
     triu_ zero uninit gs h (Some s) k = Some (h1, t1) ->
     exists h2 r2,
       triu_out zero uninit gs h (Some r) (Some s) k = Some (h2, Some r2) /\
       sizes r2 = sizes s /\
       forall i, 0 <= i < numel (Some s) ->
         load h1 (data_ptr s) i = load h2 (data_ptr r2) i) /\
  (forall h1 t1,
     tril_ zero uninit gs h (Some s) k = Some (h1, t1) ->
     exists h2 r2,
       tril_out zero uninit gs h (Some r) (Some s) k = Some (h2, Some r2) /\
       sizes r2 = sizes s /\
       forall i, 0 <= i < numel (Some s) ->
         load h1 (data_ptr s) i = load h2 (data_ptr r2) i).
Proof.
  intros Hgs Hb Hsz Hty Hst Hoff Hroom. split; intros h1 t1 Hin.
  - exact (tri_inplace_vs_out zero uninit gs true h s r k h1 t1
             Hgs Hb Hsz Hty Hst Hoff Hroom Hin).
  - exact (tri_inplace_vs_out zero uninit gs false h s r k h1 t1
             Hgs Hb Hsz Hty Hst Hoff Hroom Hin).
Qed.

Definition ones3x3_impl : TensorImpl :=
  {| scalar_type := Long; sizes := [3; 3]; strides := [3; 1];
     storage := 0%nat; storage_offset := 0 |}.

Definition empty_out_impl : TensorImpl :=
  {| scalar_type := Long; sizes := [0]; strides := [1];
     storage := 1%nat; storage_offset := 0 |}.

Lemma tri_inplace_matches_out_of_place_witness :
  match triu_ 0 (fun _ => 7) 4 ones3x3_heap (Some ones3x3_impl) 0 with
  | Some (h1, _) =>
      exists h2 r2,
        triu_out 0 (fun _ => 7) 4 ones3x3_heap (Some empty_out_impl)
          (Some ones3x3_impl) 0 = Some (h2, Some r2) /\
        sizes r2 = sizes ones3x3_impl /\
        forall i, 0 <= i < numel (Some ones3x3_impl) ->
          load h1 (data_ptr ones3x3_impl) i = load h2 (data_ptr r2) i
  | None => False
  end.
Proof.
  destruct (triu_ 0 (fun _ => 7) 4 ones3x3_heap (Some ones3x3_impl) 0)
    as [[h1 t1]|] eqn:E; [|vm_compute in E; discriminate].
  apply (proj1 (tri_inplace_matches_out_of_place Z 0 (fun _ => 7) 4
                  ones3x3_heap ones3x3_impl empty_out_impl 0
                  ltac:(lia) ltac:(vm_compute; discriminate)
                  ltac:(repeat constructor; lia) ltac:(reflexivity)
                  ltac:(discriminate) ltac:(reflexivity)
                  ltac:(discriminate)) h1 t1 E).
Defined.

(** ** Facts about the LU status handling *)

Lemma batchCheckErrors_from_zeros i n name :
  batchCheckErrors_from i (replicate n 0) name = LuOk tt.
Proof.
  revert i. induction n as [|n IH]; intros i; cbn; [reflexivity|apply IH].
Qed.

(** The checking functions themselves do what the specification asks:
    the first non-zero status is reported with its batch index. *)
Lemma batchCheckErrors_from_reports_first i zs info rest name :
  0 < info ->
  batchCheckErrors_from i (replicate zs 0 ++ info :: rest) name =
  LuError (SingularU name (Some (i + zs)%nat) info).
Proof.
  intros Hi. revert i. induction zs as [|zs IH]; intros i; cbn.
  - destruct (info <? 0) eqn:E; [apply Z.ltb_lt in E; lia|].
    destruct (0 <? info) eqn:E2; [|apply Z.ltb_ge in E2; lia].
    rewrite Nat.add_0_r. reflexivity.
  - rewrite IH. replace (S i + zs)%nat with (i + S zs)%nat by lia.
    reflexivity.
Qed.

Lemma batchCheckErrors_reports_first size zs info rest name :
  0 < info ->
  batchCheckErrors (mkValues Long size (replicate zs 0 ++ info :: rest))
    name =
  LuError (SingularU name (Some zs) info).
Proof.
  intros Hi. unfold batchCheckErrors. cbn [elements].
  apply (batchCheckErrors_from_reports_first 0 zs info rest name Hi).
Qed.

Lemma item_zeros size : item (zeros size) = 0.
Proof.
  unfold item, zeros, empty. cbn [elements].
  destruct (Z.to_nat (prod_list size)); reflexivity.
Qed.

(** A factorization service that reports the status [1] ("U(1,1) is
    zero") for every batch element, and the two singular inputs. *)
Definition failing_getrf_batch (m n : Z) (a : list Z)
    (lda stride_a stride_ipiv batch_size : Z) : list Z * list Z * list Z :=
  (a, replicate (Z.to_nat (stride_ipiv * batch_size)) 1,
   replicate (Z.to_nat batch_size) 1).

Definition singular_matrix : Values Z :=
  mkValues Double [2; 2] [0; 0; 0; 0].

Definition singular_batch : Values Z :=
  mkValues Double [2; 2; 2] [1; 0; 0; 1; 0; 0; 0; 0].

(** C8. With [check_errors = true], [_lu_with_info] never reports a
    factorization failure: the status tensor it checks is the
    zero-initialised [infos_tensor], which [apply_lu_dpcpp_] returns
    untouched whatever status codes the factorization service produces.
    For the singular 2x2 matrix and for a batch of two matrices, with a
    service that reports status [1] for every element, the call returns
    normally with an all-zero status tensor. *)
Theorem lu_with_info_ignores_service_status :
  (forall (R : Type) USE_ONEMKL getrf_batch cloneBatchedColumnMajor
          (uninit_R : R) uninit_Z self pivot,
     match _lu_with_info USE_ONEMKL getrf_batch cloneBatchedColumnMajor
             uninit_R uninit_Z self pivot true with
     | LuOk (_, _, infos) => Forall (fun x => x = 0) (elements infos)
     | LuError e =>
         forall name batch info,
           e <> SingularU name batch info /\
           e <> IllegalValue name batch info
     end) /\
  (exists lu pivots infos,
     _lu_with_info true failing_getrf_batch (fun t => t) 0 0
       singular_matrix true true = LuOk (lu, pivots, infos) /\
     elements infos = [0]) /\
  (exists lu pivots infos,
     _lu_with_info true failing_getrf_batch (fun t => t) 0 0
       singular_batch true true = LuOk (lu, pivots, infos) /\
     elements infos = [0; 0]).
Proof.
  split; [|split; (do 3 eexists; split; vm_compute; reflexivity)].
  intros R USE getrf clone uR uZ self pivot.
  unfold _lu_with_info.
  destruct (negb pivot); [intros; split; discriminate|].
  destruct (negb (2 <=? lu_dim self)); [intros; split; discriminate|].
  destruct (negb (squareCheckInputs self)); [intros; split; discriminate|].
  set (infos := zeros (removelast (removelast (shape self)))).
  assert (Hchk :
    (if 2 <? lu_dim self then batchCheckErrors infos "lu"
     else singleCheckErrors (item infos) "lu") = LuOk tt).
  { destruct (2 <? lu_dim self).
    - apply batchCheckErrors_from_zeros.
    - unfold infos. rewrite item_zeros. reflexivity. }
  assert (Hz : Forall (fun x => x = 0) (elements infos)).
  { unfold infos, zeros, empty. cbn [elements].
    apply Forall_forall. intros x Hx. apply elem_of_replicate in Hx. tauto. }
  destruct (lu_numel self =? 0).
  - rewrite Hchk. exact Hz.
  - destruct (is_floating_type (dtype self));
      [|intros; split; discriminate].
    unfold apply_lu_dpcpp_. destruct USE; [|intros; split; discriminate].
    destruct (getrf _ _ _ _ _ _ _) as [[a ipiv] st].
    rewrite Hchk. exact Hz.
Qed.

(** * Further properties of the triangular operators *)

(** ** The entry points on dense sources *)

Section TriOut.
Context {T : Type} (zero : T) (uninit : nat -> T) (gs : Z).

(** The row and the column the kernel attributes to a linear position. *)
Definition kernel_row (stride0 stride1 l : Z) : Z :=
  if stride0 >? stride1 then l / stride0 else l mod stride1 / stride0.

Definition kernel_col (stride0 stride1 l : Z) : Z :=
  if stride0 >? stride1 then l mod stride0 / stride1 else l / stride1.

Definition kept (upper : bool) (k row col : Z) : bool :=
  if upper then k <=? col - row else col - row <=? k.

(** [triu_out] and [tril_out] from the resize to the kernel: the result
    takes the sizes of the source, and position [l] of its buffer
    receives the source element or zero according to the row and column
    of [l]. *)
Lemma tri_out_positions upper (h : gmap nat (list T)) (r s : TensorImpl)
    k st0 st1 sts :
  strides s = st0 :: st1 :: sts ->
  dispatch_all_types_and_half_bool (scalar_type s) = true ->
  scalar_type r = scalar_type s ->
  0 < st0 < 2 ^ 31 -> 0 < st1 < 2 ^ 31 ->
  0 < numel (Some s) < 2 ^ 31 -> 0 < gs <= 2 ^ 62 ->
  r = s \/ storage r <> storage s -> 0 <= storage_offset r ->
  (forall l, 0 <= l < numel (Some s) -> is_Some (load h (data_ptr s) l)) ->
  (sizes r = sizes s ->
   forall l, 0 <= l < numel (Some s) -> is_Some (load h (data_ptr r) l)) ->
  exists h' r',
    tri_dpcpp_out zero uninit gs upper h (Some r) (Some s) k
      = Some (h', Some r') /\
    sizes r' = sizes s /\ data_ptr r' = data_ptr r /\
    (sizes r <> sizes s -> strides r' = contiguous_strides (sizes s)) /\
    (sizes r = sizes s -> r' = r) /\
    forall l, 0 <= l < numel (Some s) ->
      load h' (data_ptr r) l =
      if kept upper k (kernel_row st0 st1 l) (kernel_col st0 st1 l)
      then load h (data_ptr s) l else Some zero.
Proof.
  intros Hst Hdisp Hty H0 H1 HN Hgs Hal Hoff Hsrc Hroom.
  set (N := numel (Some s)) in *.
  (* the state in which the kernel is launched *)
  assert (exists hr rr,
            (if bool_decide (sizes_of (Some r) <> sizes_of (Some s))
             then resize_as_ uninit h (Some r) (Some s)
             else Some (h, Some r)) = Some (hr, Some rr) /\
            sizes rr = sizes s /\ data_ptr rr = data_ptr r /\
            (sizes r <> sizes s -> strides rr = contiguous_strides (sizes s)) /\
            (sizes r = sizes s -> rr = r) /\
            scalar_type rr = scalar_type r /\
            (forall l, load hr (data_ptr s) l = load h (data_ptr s) l) /\
            (forall l, 0 <= l < N -> is_Some (load hr (data_ptr r) l)))
    as (hr & rr & Hpre & Hsizes & Hptr & Hstr & Hsame & Htyr & Hframe & Hfit).
  { destruct (bool_decide _) eqn:Ed.
    - apply bool_decide_eq_true in Ed. cbn [sizes_of] in Ed.
      destruct Hal as [->|Hne]; [contradiction|].
      unfold resize_as_. cbn [resize_ sizes_of].
      eexists _, _. split; [reflexivity|].
      split; [reflexivity|]. split; [reflexivity|].
      split; [reflexivity|]. split; [intros Heq; contradiction|].
      split; [reflexivity|]. split.
      + intros l.
        apply (resize_other uninit h r (sizes s)
                 (contiguous_strides (sizes s)) (data_ptr s) l).
        cbn. congruence.
      + intros l Hl.
        apply (resize_room uninit h r (sizes s)
                 (contiguous_strides (sizes s)) l Hoff Hl).
    - apply bool_decide_eq_false in Ed.
      assert (sizes r = sizes s) as Heq.
      { destruct (decide (sizes r = sizes s)); [assumption|].
        exfalso; apply Ed; assumption. }
      exists h, r. split; [reflexivity|]. split; [exact Heq|].
      split; [reflexivity|]. split; [intros Hne; contradiction|].
      split; [reflexivity|]. split; [reflexivity|].
      split; [reflexivity|]. apply Hroom, Heq. }
  unfold tri_dpcpp_out. rewrite Hpre.
  fold N. rewrite (proj2 (Z.eqb_neq N 0)) by lia.
  unfold triu_tril_dpcpp_template. rewrite Hdisp, Hst. fold N.
  rewrite bool_decide_eq_true_2 by congruence. cbn [negb].
  set (w := if canUse32BitIndexMath (Some s) then 32 else 64).
  assert (Hw : w = 32 \/ w = 64).
  { unfold w. destruct (canUse32BitIndexMath _); auto. }
  assert (Hp : 2 ^ 31 <= 2 ^ (w - 1)).
  { destruct Hw as [-> | ->]; [lia|]. apply Z.pow_le_mono_r; lia. }
  assert (Hw0 : 0 < w) by (destruct Hw; lia).
  rewrite !(to_signed_small w) by (try exact Hw0; lia).
  assert (Hal' : data_ptr rr = data_ptr s \/
                 ptr_storage (data_ptr rr) <> ptr_storage (data_ptr s)).
  { rewrite Hptr. destruct Hal as [->|Hne]; [left; reflexivity|].
    right. cbn. exact Hne. }
  assert (Hb : N + gs <= 2 ^ 63).
  { assert (2 ^ 31 <= 2 ^ 62) by (apply Z.pow_le_mono_r; lia).
    change (2 ^ 63) with (2 ^ 62 + 2 ^ 62). lia. }
  assert (Hmv : forall l, 0 <= l < N ->
            masked_value zero w upper (data_ptr s) st0 st1 k hr l =
            if kept upper k (kernel_row st0 st1 l) (kernel_col st0 st1 l)
            then load h (data_ptr s) l else Some zero).
  { intros l Hl.
    rewrite (masked_value_formula zero w upper (data_ptr s) st0 st1 k hr l
               Hw) by lia.
    cbv zeta. rewrite Hframe. reflexivity. }
  destruct (kernel_total zero gs w upper (data_ptr rr) (data_ptr s)
              st0 st1 k N hr Hal' ltac:(lia) ltac:(lia) Hb) as [h' Hk].
  { intros l Hl. split.
    - rewrite (Hmv l Hl). destruct (kept _ _ _ _); [apply Hsrc, Hl|eauto].
    - rewrite Hptr. apply Hfit, Hl. }
  rewrite Hk. exists h', rr. split; [reflexivity|].
  split; [exact Hsizes|]. split; [exact Hptr|]. split; [exact Hstr|].
  split; [exact Hsame|].
  intros l Hl.
  destruct (kernel_returns zero gs w upper (data_ptr rr) (data_ptr s)
              st0 st1 k N hr Hal' ltac:(lia) ltac:(lia) Hb h' Hk) as [Hv _].
  destruct (Hv l Hl) as [_ E]. rewrite Hptr in E. rewrite E.
  apply Hmv, Hl.
Qed.

End TriOut.

(** ** Rows and columns *)

Lemma div_mod_pair a b n :
  0 <= b < n -> (a * n + b) / n = a /\ (a * n + b) mod n = b.
Proof.
  intros Hb. split.
  - symmetry. apply (Z.div_unique_pos _ _ a b); lia.
  - symmetry. apply (Z.mod_unique_pos _ _ a b); lia.
Qed.

(** Row-major matrix with at least two columns: position [i * m + j] is
    row [i], column [j]. *)
Lemma kernel_row_col_row_major m i j :
  1 < m -> 0 <= j < m ->
  kernel_row m 1 (i * m + j) = i /\ kernel_col m 1 (i * m + j) = j.
Proof.
  intros Hm Hj. unfold kernel_row, kernel_col.
  rewrite (proj2 (Z.gtb_gt m 1)) by lia.
  destruct (div_mod_pair i j m Hj) as [-> ->].
  rewrite Z.div_1_r. split; reflexivity.
Qed.




Lemma load_within {T : Type} (h : gmap nat (list T)) p buf x :
  h !! ptr_storage p = Some buf ->
  0 <= ptr_offset p + x < Z.of_nat (length buf) ->
  is_Some (load h p x).
Proof.
  intros Hbuf Hx. unfold load. rewrite Hbuf.
  rewrite (proj2 (Z.leb_le _ _)) by lia.
  apply lookup_lt_is_Some_2. lia.
Qed.

Lemma numel_2d (s : TensorImpl) n m :
  sizes s = [n; m] -> numel (Some s) = n * m.
Proof. intros E. unfold numel. cbn [sizes_of]. rewrite E. cbn. lia. Qed.


(** X3. For a row-major [n x m] matrix with at least two columns, of an
    element type of the dispatch, [triu_out] and [tril_out] into a result
    of the same element type return a row-major result of the same sizes
    whose element of row [i] and column [j], the cell [i * m + j] of its
    buffer, is that element of the source when [j - i >= k]
    (respectively [j - i <= k]) and zero otherwise.  The result may be
    the source itself or live in another storage; a result that already
    has the sizes of the source is not resized and must be row-major
    itself. *)
Theorem tri_out_row_major_matrix
    (T : Type) (zero : T) (uninit : nat -> T) (gs : Z)
    (h : gmap nat (list T)) (r s : TensorImpl) (k n m : Z) :
  sizes s = [n; m] -> strides s = [m; 1] ->
  dispatch_all_types_and_half_bool (scalar_type s) = true ->
  scalar_type r = scalar_type s ->
  (sizes r = sizes s -> strides r = [m; 1]) ->
  0 < n -> 1 < m -> n * m < 2 ^ 31 -> 0 < gs <= 2 ^ 62 ->
  r = s \/ storage r <> storage s -> 0 <= storage_offset r ->
  (forall l, 0 <= l < n * m -> is_Some (load h (data_ptr s) l)) ->
  (sizes r = sizes s ->
   forall l, 0 <= l < n * m -> is_Some (load h (data_ptr r) l)) ->
  (exists h' r',
     triu_out zero uninit gs h (Some r) (Some s) k = Some (h', Some r') /\
     sizes r' = [n; m] /\ strides r' = [m; 1] /\
     data_ptr r' = data_ptr r /\
     forall i j, 0 <= i < n -> 0 <= j < m ->
       load h' (data_ptr r') (i * m + j) =
       if k <=? j - i then load h (data_ptr s) (i * m + j) else Some zero) /\
  (exists h' r',
     tril_out zero uninit gs h (Some r) (Some s) k = Some (h', Some r') /\
     sizes r' = [n; m] /\ strides r' = [m; 1] /\
     data_ptr r' = data_ptr r /\
     forall i j, 0 <= i < n -> 0 <= j < m ->
       load h' (data_ptr r') (i * m + j) =
       if j - i <=? k then load h (data_ptr s) (i * m + j) else Some zero).
Proof.
  intros Hsz Hst Hdisp Hty Hrs Hn Hm HN Hgs Hal Hoff Hsrc Hroom.
  pose proof (numel_2d s n m Hsz) as HNe.
  assert (Hm31 : m < 2 ^ 31) by nia.
  assert (Hgen : forall upper,
    exists h' r',
      tri_dpcpp_out zero uninit gs upper h (Some r) (Some s) k
        = Some (h', Some r') /\
      sizes r' = [n; m] /\ strides r' = [m; 1] /\
      data_ptr r' = data_ptr r /\
      forall i j, 0 <= i < n -> 0 <= j < m ->
        load h' (data_ptr r') (i * m + j) =
        if kept upper k i j then load h (data_ptr s) (i * m + j)
        else Some zero).
  { intros upper.
    destruct (tri_out_positions zero uninit gs upper h r s k m 1 [] Hst
                Hdisp Hty
                ltac:(lia) ltac:(lia) ltac:(rewrite HNe; nia) Hgs Hal Hoff)
      as (h' & r' & Hrun & Hs' & Hp & Hc & Hsm & Hv).
    { rewrite HNe. exact Hsrc. }
    { rewrite HNe. exact Hroom. }
    exists h', r'. split; [exact Hrun|]. split; [congruence|].
    split.
    { destruct (decide (sizes r = sizes s)) as [e|ne].
      - rewrite (Hsm e). exact (Hrs e).
      - rewrite (Hc ne), Hsz. cbn. f_equal. lia. }
    split; [exact Hp|]. intros i j Hi Hj. rewrite Hp.
    rewrite Hv by (rewrite HNe; nia).
    destruct (kernel_row_col_row_major m i j Hm Hj) as [-> ->].
    reflexivity. }
  split; [exact (Hgen true)|exact (Hgen false)].
Qed.

Lemma tri_out_row_major_matrix_witness :
  exists h' r',
    triu_out 0 (fun _ => 7) 4 ones3x3_heap (Some empty_out_impl)
      (Some ones3x3_impl) 1 = Some (h', Some r') /\
    sizes r' = [3; 3] /\ strides r' = [3; 1] /\
    data_ptr r' = data_ptr empty_out_impl /\
    forall i j, 0 <= i < 3 -> 0 <= j < 3 ->
      load h' (data_ptr r') (i * 3 + j) =
      if 1 <=? j - i then load ones3x3_heap (data_ptr ones3x3_impl) (i * 3 + j)
      else Some 0.
Proof.
  apply (tri_out_row_major_matrix Z 0 (fun _ => 7) 4 ones3x3_heap
           empty_out_impl ones3x3_impl 1 3 3).
  - reflexivity.
  - reflexivity.
  - reflexivity.
  - reflexivity.
  - discriminate.
  - lia.
  - lia.
  - vm_compute. reflexivity.
  - split; [lia|vm_compute; discriminate].
  - right. discriminate.
  - reflexivity.
  - intros l Hl.
    apply (load_within _ _ [1; 1; 1; 1; 1; 1; 1; 1; 1]);
      [vm_compute; reflexivity|].
    simpl. lia.
  - discriminate.
Defined.













(** ** Edge cases *)

Section TriEdges.
Context {T : Type} (zero : T) (uninit : nat -> T) (gs : Z).

Lemma resize_keeps (h : gmap nat (list T)) r size stride p l :
  is_Some (load h p l) ->
  load (fst (resize_ uninit h r size stride)) p l = load h p l.
Proof.
  intros Hs. unfold resize_. cbn [fst].
  destruct (decide (ptr_storage p = storage r)) as [E|Hne].
  - unfold load in *. rewrite E, lookup_insert_eq.
    destruct (h !! storage r) as [buf|] eqn:Hb; rewrite E, Hb in Hs;
      [|destruct Hs as [? [=]]].
    cbn [default]. destruct (0 <=? ptr_offset p + l); [|reflexivity].
    unfold grow. apply lookup_app_l. apply lookup_lt_is_Some. exact Hs.
  - unfold load. rewrite lookup_insert_ne by congruence. reflexivity.
Qed.

(** On an empty source no kernel is launched: the result takes the sizes
    of the source and every cell that existed keeps its value. *)
Lemma tri_out_empty_source upper (h : gmap nat (list T)) (r s : TensorImpl)
    k :
  numel (Some s) = 0 ->
  exists h' r',
    tri_dpcpp_out zero uninit gs upper h (Some r) (Some s) k
      = Some (h', Some r') /\
    sizes r' = sizes s /\ data_ptr r' = data_ptr r /\
    forall p l, is_Some (load h p l) -> load h' p l = load h p l.
Proof.
  intros HN. unfold tri_dpcpp_out.
  destruct (bool_decide _) eqn:Ed.
  - unfold resize_as_.
    destruct (resize_ uninit h r (sizes_of (Some s))
                (contiguous_strides (sizes_of (Some s)))) as [hr rr] eqn:Er.
    rewrite HN. cbn [Z.eqb].
    exists hr, rr. split; [reflexivity|].
    pose proof (f_equal snd Er) as E2. cbn [snd resize_] in E2.
    split; [rewrite <- E2; reflexivity|].
    split; [rewrite <- E2; reflexivity|].
    intros p l Hs.
    pose proof (resize_keeps h r (sizes_of (Some s))
                  (contiguous_strides (sizes_of (Some s))) p l Hs) as E.
    rewrite Er in E. exact E.
  - rewrite HN. cbn [Z.eqb]. exists h, r. split; [reflexivity|].
    apply bool_decide_eq_false in Ed.
    split; [|split; [reflexivity|auto]].
    destruct (decide (sizes r = sizes s)); [assumption|].
    exfalso; apply Ed; assumption.
Qed.

(** A source with a stride of zero among its first two, such as an
    expanded tensor, makes the first work item divide by zero: the call
    has no defined result. *)
Lemma tri_out_zero_stride upper (h : gmap nat (list T)) (r s : TensorImpl)
    k st0 st1 sts :
  strides s = st0 :: st1 :: sts -> st0 = 0 \/ st1 = 0 ->
  0 < numel (Some s) < 2 ^ 63 -> 0 < gs ->
  tri_dpcpp_out zero uninit gs upper h (Some r) (Some s) k = None.
Proof.
  intros Hst Hz HN Hgs. unfold tri_dpcpp_out.
  set (N := numel (Some s)) in *.
  assert (Hpre : exists h1 r1,
            (if bool_decide (sizes_of (Some r) <> sizes_of (Some s))
             then resize_as_ uninit h (Some r) (Some s)
             else Some (h, Some r)) = Some (h1, Some r1)).
  { destruct (bool_decide _); [|eauto].
    unfold resize_as_. destruct (resize_ _ _ _ _ _) as [h1 r1]. eauto. }
  destruct Hpre as (h1 & r1 & ->).
  rewrite (proj2 (Z.eqb_neq N 0)) by lia.
  unfold triu_tril_dpcpp_template. rewrite Hst. fold N.
  destruct (negb (dispatch_all_types_and_half_bool (scalar_type s)));
    [reflexivity|].
  destruct (negb (bool_decide (scalar_type r1 = scalar_type s)));
    [reflexivity|].
  set (w := if canUse32BitIndexMath (Some s) then 32 else 64).
  assert (Hrc : forall l,
            row_col w (to_signed w st0) (to_signed w st1) l = None).
  { intros l. unfold row_col.
    assert (to_signed w 0 = 0) as Hz0.
    { unfold w. destruct (canUse32BitIndexMath _); reflexivity. }
    destruct Hz as [-> | ->]; rewrite Hz0;
      change (wrap64 0 =? 0) with true;
      rewrite ?orb_true_r; reflexivity. }
  unfold triu_tril_dpcpp_kernel.
  rewrite (proj2 (Z.eqb_neq gs 0)) by lia.
  assert (Ht : 0 < CeilDiv N gs * gs).
  { unfold CeilDiv.
    pose proof (Z.div_mod (N + gs - 1) gs ltac:(lia)).
    pose proof (Z.mod_pos_bound (N + gs - 1) gs Hgs). lia. }
  rewrite seqZ_cons by lia. cbn [run_items work_item].
  assert (wrap64 N = N) as ->.
  { unfold wrap64. apply Z.mod_small.
    assert (2 ^ 63 < 2 ^ 64) by (apply Z.pow_lt_mono_r; lia). lia. }
  rewrite (proj2 (Z.ltb_lt 0 N)) by lia.
  unfold triu_tril_body, masked_value. rewrite Hrc. reflexivity.
Qed.

End TriEdges.

(** X7. On an empty source [triu_out] and [tril_out] launch no kernel: the
    result takes the sizes of the source and no cell that existed before
    the call changes. *)
Theorem tri_out_empty_source_is_noop
    (T : Type) (zero : T) (uninit : nat -> T) (gs : Z)
    (h : gmap nat (list T)) (r s : TensorImpl) (k : Z) :
  numel (Some s) = 0 ->
  (exists h' r',
     triu_out zero uninit gs h (Some r) (Some s) k = Some (h', Some r') /\
     sizes r' = sizes s /\ data_ptr r' = data_ptr r /\
     forall p l, is_Some (load h p l) -> load h' p l = load h p l) /\
  (exists h' r',
     tril_out zero uninit gs h (Some r) (Some s) k = Some (h', Some r') /\
     sizes r' = sizes s /\ data_ptr r' = data_ptr r /\
     forall p l, is_Some (load h p l) -> load h' p l = load h p l).
Proof.
  intros HN. split.
  - exact (tri_out_empty_source zero uninit gs true h r s k HN).
  - exact (tri_out_empty_source zero uninit gs false h r s k HN).
Qed.

Definition empty_0x3 : TensorImpl :=
  {| scalar_type := Long; sizes := [0; 3]; strides := [3; 1];
     storage := 1%nat; storage_offset := 0 |}.

Lemma tri_out_empty_source_is_noop_witness :
  exists h' r',
    triu_out 0 (fun _ => 7) 4 ones3x3_heap (Some ones3x3_impl)
      (Some empty_0x3) 0 = Some (h', Some r') /\
    sizes r' = sizes empty_0x3 /\ data_ptr r' = data_ptr ones3x3_impl /\
    forall p l, is_Some (load ones3x3_heap p l) ->
                load h' p l = load ones3x3_heap p l.
Proof.
  apply (proj1 (tri_out_empty_source_is_noop Z 0 (fun _ => 7) 4
                  ones3x3_heap ones3x3_impl empty_0x3 0 eq_refl)).
Defined.

(** X8. A source whose first or second stride is zero, such as an expanded
    tensor, has no defined result: the first work item of the kernel
    divides by that stride. *)
Theorem tri_out_zero_stride_faults
    (T : Type) (zero : T) (uninit : nat -> T) (gs : Z)
    (h : gmap nat (list T)) (r s : TensorImpl) (k st0 st1 : Z)
    (sts : list Z) :
  strides s = st0 :: st1 :: sts -> st0 = 0 \/ st1 = 0 ->
  0 < numel (Some s) < 2 ^ 63 -> 0 < gs ->
  triu_out zero uninit gs h (Some r) (Some s) k = None /\
  tril_out zero uninit gs h (Some r) (Some s) k = None.
Proof.
  intros Hst Hz HN Hgs. split.
  - exact (tri_out_zero_stride zero uninit gs true h r s k st0 st1 sts
             Hst Hz HN Hgs).
  - exact (tri_out_zero_stride zero uninit gs false h r s k st0 st1 sts
             Hst Hz HN Hgs).
Qed.

(** The 3x3 expansion of a single element: both strides are zero. *)
Definition expanded_3x3 : TensorImpl :=
  {| scalar_type := Long; sizes := [3; 3]; strides := [0; 0];
     storage := 0%nat; storage_offset := 0 |}.

Lemma tri_out_zero_stride_faults_witness :
  triu_out 0 (fun _ => 7) 4 ones3x3_heap (Some empty_out_impl)
    (Some expanded_3x3) 0 = None /\
  tril_out 0 (fun _ => 7) 4 ones3x3_heap (Some empty_out_impl)
    (Some expanded_3x3) 0 = None.
Proof.
  apply (tri_out_zero_stride_faults Z 0 (fun _ => 7) 4 ones3x3_heap
           empty_out_impl expanded_3x3 0 0 0 []).
  - reflexivity.
  - left. reflexivity.
  - split; [reflexivity|reflexivity].
  - lia.
Defined.

(** ** Views with a row stride *)

Section KernelBeyond.
Context {T : Type} (zero : T) (gs : Z).
Variables (w : Z) (upper : bool) (result src : pointer) (s0 s1 k N : Z).
Variable h0 : gmap nat (list T).
Hypothesis Halias : result = src \/ ptr_storage result <> ptr_storage src.
Hypothesis HN : 0 <= N.
Hypothesis Hgs : 0 < gs.
Hypothesis Hbound : N + gs <= 2 ^ 63.


End KernelBeyond.







(** * Further properties of the LU entry point *)

(** A vector of two elements. *)
Definition rank_one_input : Values Z := mkValues Double [2] [1; 2].

(** X9. An input without elements is never handed to the dispatch or to
    the factorization service: for any element type and in any build the
    call returns an empty factor tensor, pivots and zero statuses of the
    expected shapes.  An input that has elements is refused by the
    dispatch unless its element type is floating, and a floating one is
    refused in a build without oneMKL. *)
Theorem lu_with_info_empty_input
    (R : Type) USE_ONEMKL getrf_batch cloneBatchedColumnMajor
    (uninit_R : R) uninit_Z (self : Values R) (check_errors : bool) :
  2 <= lu_dim self -> size_back self 0 = size_back self 1 ->
  (lu_numel self = 0 ->
   _lu_with_info USE_ONEMKL getrf_batch cloneBatchedColumnMajor
     uninit_R uninit_Z self true check_errors =
   LuOk (mkValues (dtype self) (shape self) [],
         empty Long uninit_Z (removelast (shape self)),
         zeros (removelast (removelast (shape self))))) /\
  (lu_numel self <> 0 -> is_floating_type (dtype self) = false ->
   _lu_with_info USE_ONEMKL getrf_batch cloneBatchedColumnMajor
     uninit_R uninit_Z self true check_errors =
   LuError (DispatchError "lu_dpcpp" (dtype self))) /\
  (lu_numel self <> 0 -> is_floating_type (dtype self) = true ->
   _lu_with_info false getrf_batch cloneBatchedColumnMajor
     uninit_R uninit_Z self true check_errors =
   LuError (BackendMissing "lu: oneMKL library not found in compilation")).
Proof.
  intros Hd Hsq. unfold _lu_with_info. cbn [negb].
  rewrite (proj2 (Z.leb_le 2 (lu_dim self))) by lia. cbn [negb].
  unfold squareCheckInputs. rewrite (proj2 (Z.eqb_eq _ _) Hsq). cbn [negb].
  split; [|split]; intros HN.
  - rewrite HN. cbn [Z.eqb].
    assert (Hchk :
      (if check_errors
       then if 2 <? lu_dim self
            then batchCheckErrors
                   (zeros (removelast (removelast (shape self)))) "lu"
            else singleCheckErrors
                   (item (zeros (removelast (removelast (shape self))))) "lu"
       else LuOk tt) = LuOk tt).
    { destruct check_errors; [|reflexivity].
      destruct (2 <? lu_dim self).
      - apply batchCheckErrors_from_zeros.
      - rewrite item_zeros. reflexivity. }
    rewrite Hchk. unfold empty at 1. unfold lu_numel in HN. rewrite HN.
    reflexivity.
  - intros Hty. rewrite (proj2 (Z.eqb_neq _ _) HN), Hty. reflexivity.
  - intros Hty. rewrite (proj2 (Z.eqb_neq _ _) HN), Hty. reflexivity.
Qed.

(** A batch of no 2x2 matrices, of an integral element type. *)
Definition empty_batch : Values Z := mkValues Long [0; 2; 2] [].

Lemma lu_with_info_empty_input_witness :
  _lu_with_info false failing_getrf_batch (fun t => t) 0 0 empty_batch
    true true =
  LuOk (mkValues Long [0; 2; 2] [], empty Long 0 [0; 2], zeros [0]).
Proof.
  apply (proj1 (lu_with_info_empty_input Z false failing_getrf_batch
                  (fun t => t) 0 0 empty_batch true
                  ltac:(vm_compute; discriminate) eq_refl) eq_refl).
Defined.

(** X10. Whenever [_lu_with_info] returns, the pivots have the shape of the
    input without its last dimension, and there is one status, equal to
    zero, for each matrix of the batch. *)
Theorem lu_with_info_result_shapes
    (R : Type) USE_ONEMKL getrf_batch cloneBatchedColumnMajor
    (uninit_R : R) uninit_Z (self : Values R) (pivot check_errors : bool)
    lu pivots infos :
  _lu_with_info USE_ONEMKL getrf_batch cloneBatchedColumnMajor
    uninit_R uninit_Z self pivot check_errors = LuOk (lu, pivots, infos) ->
  shape pivots = removelast (shape self) /\
  infos = zeros (removelast (removelast (shape self))) /\
  Z.of_nat (length (elements infos)) = Z.max 0 (batchCount self).
Proof.
  unfold _lu_with_info.
  destruct (negb pivot); [discriminate|].
  destruct (negb (2 <=? lu_dim self)); [discriminate|].
  destruct (negb (squareCheckInputs self)); [discriminate|].
  set (infos0 := zeros (removelast (removelast (shape self)))).
  assert (Hlen : Z.of_nat (length (elements infos0)) =
                 Z.max 0 (batchCount self)).
  { unfold infos0, zeros, empty, batchCount. cbn [elements].
    rewrite length_replicate. lia. }
  destruct (lu_numel self =? 0).
  - destruct (if check_errors then _ else _); [|discriminate].
    intros [= <- <- <-]. repeat split. exact Hlen.
  - destruct (is_floating_type (dtype self)); [|discriminate].
    unfold apply_lu_dpcpp_. destruct USE_ONEMKL; [|discriminate].
    destruct (getrf_batch _ _ _ _ _ _ _) as [[a ipiv] st].
    destruct (if check_errors then _ else _); [|discriminate].
    intros [= <- <- <-]. repeat split. exact Hlen.
Qed.

Lemma lu_with_info_result_shapes_witness :
  shape (mkValues Long [2; 2] [1; 1; 1; 1]) =
    removelast (shape singular_batch) /\
  zeros [2] = zeros (removelast (removelast (shape singular_batch))) /\
  Z.of_nat (length (elements (zeros [2]))) =
  Z.max 0 (batchCount singular_batch).
Proof.
  apply (lu_with_info_result_shapes Z true failing_getrf_batch (fun t => t)
           0 0 singular_batch true true singular_batch
           (mkValues Long [2; 2] [1; 1; 1; 1]) (zeros [2])).
  vm_compute. reflexivity.
Defined.

(** * Singular value decomposition *)

Import Ascii.

(** [oneapi::mkl::jobsvd]. *)
Inductive jobsvd : Set := jobsvd_N | jobsvd_S | jobsvd_A.

(** [RankError msg d] is the failed check of [svd]: the message [msg],
    the rank [d] of the input, and the words [" dimensions instead"].
    [SvdDispatchError name ty] is the failed dispatch
    ["name" not implemented for 'ty'], and [SvdTypeError expected found]
    the failed check of [data_ptr<expected>()] on a tensor of element
    type [found]. *)
Inductive svd_error : Type :=
| RankError (msg : string) (d : Z)
| SizeIndexError
| SvdDispatchError (name : string) (ty : ScalarType)
| SvdTypeError (expected found : ScalarType)
| SvdBackendMissing (msg : string)
| SvdServiceException
| SvdStatusError (e : lu_error)
| SvdFault.

Inductive svd_result (A : Type) : Type :=
| SvdOk (a : A)
| SvdError (e : svd_error).

Arguments SvdOk {A} _.
Arguments SvdError {A} _.

Section SVD.

(** Matrix elements ([scalar_t], a floating type, which is also the type
    [value_t] of the singular values). *)
Context {R : Type}.

(** [scalar_t(0)]. *)
Variable zeroR : R.

(** Whether the library was built with [USE_ONEMKL]. *)
Variable USE_ONEMKL : bool.

(** [oneapi::mkl::lapack::gesvd(queue, jobu, jobvt, m, n, a, lda, s, u,
    ldu, vt, ldvt, scratchpad, size)]: the contents of the buffers [a],
    [s], [u] and [vt] after the call, or [None] when the service (the
    query of the scratchpad size or the call itself) throws.  The call
    has no status result. *)
Variable gesvd :
  jobsvd -> jobsvd -> Z -> Z -> list R -> Z -> list R -> list R -> Z ->
  list R -> Z -> option (list R * list R * list R * list R).

(** [native::_create_U_S_VT], [native::cloneBatchedColumnMajor] and
    [Tensor::narrow] (tensor framework). *)
Variable _create_U_S_VT :
  Values R -> bool -> bool -> Values R * Values R * Values R.
Variable cloneBatchedColumnMajor : Values R -> Values R.
Variable narrow : Values R -> Z -> Z -> Z -> Values R.

(** [Tensor::zero_]. *)
Definition zero_ (t : Values R) : Values R :=
  mkValues (dtype t) (shape t) (replicate (length (elements t)) zeroR).

(** [impl::apply_svd<scalar_t>]: the typed pointers of [U], [S] and [VT]
    are taken first, then comes one call of [gesvd]; the vector [infos]
    is received by reference and never written. *)
Definition apply_svd (scalar_t : ScalarType) (self U S VT : Values R)
    (jobz : Ascii.ascii) (infos : list Z)
    : svd_result (Values R * Values R * Values R * Values R * list Z) :=
  if USE_ONEMKL then
    if negb (bool_decide (dtype U = scalar_t))
    then SvdError (SvdTypeError scalar_t (dtype U))
    else if negb (bool_decide (dtype S = scalar_t))
    then SvdError (SvdTypeError scalar_t (dtype S))
    else if negb (bool_decide (dtype VT = scalar_t))
    then SvdError (SvdTypeError scalar_t (dtype VT))
    else
    let m := size_back self 1 in
    let n := size_back self 0 in
    let mn := Z.min m n in
    let lda := m in
    let ldu := n in
    let ldvt := mn in
    let '(jobu, jobvt) :=
      if Ascii.eqb jobz "N"%char then (jobsvd_N, jobsvd_N)
      else if Ascii.eqb jobz "S"%char then (jobsvd_S, jobsvd_S)
      else (jobsvd_A, jobsvd_A) in
    match
      gesvd jobu jobvt m n (elements self) lda (elements S) (elements U)
        ldu (elements VT) ldvt
    with
    | Some (a, s, u, vt) =>
        SvdOk (mkValues (dtype self) (shape self) a,
               mkValues (dtype U) (shape U) u,
               mkValues (dtype S) (shape S) s,
               mkValues (dtype VT) (shape VT) vt, infos)
    | None => SvdError SvdServiceException
    end
  else SvdError
         (SvdBackendMissing "svd: oneMKL library not found in compilation").

(** The checks of the status vector, as calls of the framework
    functions. *)
Definition check_infos (self : Values R) (infos : list Z)
    : svd_result unit :=
  if 2 <? lu_dim self then
    match batchCheckErrors_from 0 infos "svd_xpu" with
    | LuOk _ => SvdOk tt
    | LuError e => SvdError (SvdStatusError e)
    end
  else
    match infos !! 0%nat with
    | Some info =>
        match singleCheckErrors info "svd_xpu" with
        | LuOk _ => SvdOk tt
        | LuError e => SvdError (SvdStatusError e)
        end
    | None => SvdError SvdFault
    end.

(** [_svd_helper].  [self.size(-2)] raises on a tensor of rank below
    two; [AT_DISPATCH_FLOATING_TYPES] raises on an element type that is
    not floating. *)
Definition _svd_helper (self : Values R) (some compute_uv : bool)
    : svd_result (Values R * Values R * Values R) :=
  let infos := replicate (Z.to_nat (batchCount self)) 0 in
  if lu_dim self <? 2 then SvdError SizeIndexError else
  let m := size_back self 1 in
  let n := size_back self 0 in
  let k := Z.min m n in
  let jobz : Ascii.ascii :=
    (if compute_uv then (if some then "S" else "A") else "N")%char in
  let '(U_working_copy, S_working_copy, VT_working_copy) :=
    _create_U_S_VT self some compute_uv in
  if 0 <? lu_numel self then
    let self_working_copy := cloneBatchedColumnMajor self in
    if negb (is_floating_type (dtype self))
    then SvdError (SvdDispatchError "svd_xpu" (dtype self))
    else
    match apply_svd (dtype self) self_working_copy U_working_copy
            S_working_copy VT_working_copy jobz infos with
    | SvdError e => SvdError e
    | SvdOk (_, U_working_copy, S_working_copy, VT_working_copy, infos) =>
        match check_infos self infos with
        | SvdError e => SvdError e
        | SvdOk _ =>
            if compute_uv then
              if some
              then SvdOk (U_working_copy, S_working_copy,
                          narrow VT_working_copy (-1) 0 k)
              else SvdOk (U_working_copy, S_working_copy, VT_working_copy)
            else SvdOk (zero_ U_working_copy, S_working_copy,
                        zero_ VT_working_copy)
        end
    end
  else SvdOk (zero_ U_working_copy, S_working_copy, zero_ VT_working_copy).

(** [svd]. *)
Definition svd (self : Values R) (some compute_uv : bool)
    : svd_result (Values R * Values R * Values R) :=
  if negb (2 <=? lu_dim self)
  then SvdError
         (RankError "self should have at least 2 dimensions, but has "
            (lu_dim self))
  else _svd_helper self some compute_uv.

(** The status checks on the vector of zeros that [_svd_helper]
    creates. *)
Lemma check_infos_zeros (self : Values R) :
  2 <= lu_dim self ->
  check_infos self (replicate (Z.to_nat (batchCount self)) 0) = SvdOk tt.
Proof.
  intros Ed. unfold check_infos. destruct (2 <? lu_dim self) eqn:E2.
  - rewrite batchCheckErrors_from_zeros. reflexivity.
  - apply Z.ltb_ge in E2.
    assert (batchCount self = 1) as ->.
    { unfold batchCount, lu_dim in *.
      destruct (shape self) as [|x [|y [|z l]]]; cbn [length] in *;
        try lia; reflexivity. }
    reflexivity.
Qed.

End SVD.

(** X11. A decomposition without singular vectors, or of an input without
    elements, returns [U] and [VT] filled with zeros, whatever the
    service left in them. *)
Theorem svd_without_vectors_returns_zeros
    (R : Type) (zeroR : R) USE_ONEMKL gesvd _create_U_S_VT
    cloneBatchedColumnMajor narrow (self : Values R) (some compute_uv : bool)
    U S VT :
  compute_uv = false \/ lu_numel self <= 0 ->
  svd zeroR USE_ONEMKL gesvd _create_U_S_VT cloneBatchedColumnMajor narrow
    self some compute_uv = SvdOk (U, S, VT) ->
  Forall (fun x => x = zeroR) (elements U) /\
  Forall (fun x => x = zeroR) (elements VT).
Proof.
  intros Hc. unfold svd, _svd_helper.
  destruct (negb (2 <=? lu_dim self)); [discriminate|].
  destruct (lu_dim self <? 2); [discriminate|].
  destruct (_create_U_S_VT self some compute_uv) as [[U0 S0] VT0].
  assert (Hz : forall t, Forall (fun x => x = zeroR) (elements (zero_ zeroR t))).
  { intros t. unfold zero_. cbn [elements]. apply Forall_forall.
    intros x Hx. apply elem_of_replicate in Hx. tauto. }
  destruct (0 <? lu_numel self) eqn:EN.
  - apply Z.ltb_lt in EN. destruct Hc as [-> |Hc]; [|lia].
    destruct (negb (is_floating_type (dtype self))); [discriminate|].
    destruct (apply_svd _ _ _ _ _ _ _ _ _) as [[[[[a U1] S1] VT1] infos]|];
      [|discriminate].
    destruct (check_infos self infos); [|discriminate].
    intros [= <- <- <-]. split; apply Hz.
  - intros [= <- <- <-]. split; apply Hz.
Qed.

(** A service that fills every buffer with ones. *)
Definition ones_gesvd (jobu jobvt : jobsvd) (m n : Z) (a : list Z) (lda : Z)
    (s u : list Z) (ldu : Z) (vt : list Z) (ldvt : Z)
    : option (list Z * list Z * list Z * list Z) :=
  Some (a, replicate (length s) 1, replicate (length u) 1,
        replicate (length vt) 1).

(** Working copies for a 2x2 input, of the element type of the input. *)
Definition square_U_S_VT (self : Values Z) (some compute_uv : bool)
    : Values Z * Values Z * Values Z :=
  (empty (dtype self) 0 [2; 2], empty (dtype self) 0 [2],
   empty (dtype self) 0 [2; 2]).

Lemma svd_without_vectors_returns_zeros_witness :
  Forall (fun x => x = 0) (elements (empty Double 0 [2; 2])) /\
  Forall (fun x => x = 0) (elements (empty Double 0 [2; 2])).
Proof.
  apply (svd_without_vectors_returns_zeros Z 0 true ones_gesvd
           square_U_S_VT (fun t => t) (fun t _ _ _ => t) singular_matrix
           true false (empty Double 0 [2; 2]) (mkValues Double [2] [1; 1])
           (empty Double 0 [2; 2])).
  - left. reflexivity.
  - vm_compute. reflexivity.
Defined.

(** X12. The status vector that [_svd_helper] checks is the vector of zeros
    it created: [apply_svd] never writes it.  So the status checks of
    [svd] never fail and never read past the end of the vector: the only
    errors of [svd] are the rank check, the dispatch on an element type
    that is not floating, a working copy of another element type than
    the input, a build without oneMKL, and an exception thrown by the
    service itself.  And on a floating input of rank two or more, with
    working copies of its element type and a build with oneMKL, [svd]
    returns whenever the service does, whatever the service computed. *)
Theorem svd_never_reports_failure
    (R : Type) (zeroR : R) USE_ONEMKL gesvd _create_U_S_VT
    cloneBatchedColumnMajor narrow (self : Values R)
    (some compute_uv : bool) :
  (forall e,
     svd zeroR USE_ONEMKL gesvd _create_U_S_VT cloneBatchedColumnMajor
       narrow self some compute_uv = SvdError e ->
     e = RankError "self should have at least 2 dimensions, but has "
           (lu_dim self) \/
     e = SvdDispatchError "svd_xpu" (dtype self) \/
     (exists found, e = SvdTypeError (dtype self) found) \/
     e = SvdBackendMissing "svd: oneMKL library not found in compilation" \/
     e = SvdServiceException) /\
  (2 <= lu_dim self -> is_floating_type (dtype self) = true ->
   USE_ONEMKL = true ->
   (forall U S VT, _create_U_S_VT self some compute_uv = (U, S, VT) ->
      dtype U = dtype self /\ dtype S = dtype self /\
      dtype VT = dtype self) ->
   (forall jobu jobvt m n a lda s u ldu vt ldvt,
      is_Some (gesvd jobu jobvt m n a lda s u ldu vt ldvt)) ->
   exists result,
     svd zeroR USE_ONEMKL gesvd _create_U_S_VT cloneBatchedColumnMajor
       narrow self some compute_uv = SvdOk result).
Proof.
  split.
  - intros e. unfold svd, _svd_helper.
    destruct (2 <=? lu_dim self) eqn:Ed; cbn [negb];
      [|intros [= <-]; left; reflexivity].
    apply Z.leb_le in Ed.
    rewrite (proj2 (Z.ltb_ge (lu_dim self) 2)) by lia.
    destruct (_create_U_S_VT self some compute_uv) as [[U0 S0] VT0].
    destruct (0 <? lu_numel self); [|discriminate].
    destruct (negb (is_floating_type (dtype self)));
      [intros [= <-]; right; left; reflexivity|].
    unfold apply_svd. destruct USE_ONEMKL;
      [|intros [= <-]; do 3 right; left; reflexivity].
    destruct (negb (bool_decide (dtype U0 = dtype self)));
      [intros [= <-]; do 2 right; left; eauto|].
    destruct (negb (bool_decide (dtype S0 = dtype self)));
      [intros [= <-]; do 2 right; left; eauto|].
    destruct (negb (bool_decide (dtype VT0 = dtype self)));
      [intros [= <-]; do 2 right; left; eauto|].
    destruct (if Ascii.eqb _ _ then _ else _) as [jobu jobvt].
    destruct (gesvd _ _ _ _ _ _ _ _ _ _ _) as [[[[a s] u] vt]|];
      [|intros [= <-]; do 4 right; reflexivity].
    rewrite (check_infos_zeros self Ed).
    destruct compute_uv; [destruct some|]; discriminate.
  - intros Ed Hty -> Hcreate Hsvc. unfold svd, _svd_helper.
    rewrite (proj2 (Z.leb_le 2 (lu_dim self))) by lia. cbn [negb].
    rewrite (proj2 (Z.ltb_ge (lu_dim self) 2)) by lia.
    destruct (_create_U_S_VT self some compute_uv) as [[U0 S0] VT0] eqn:Ec.
    destruct (Hcreate U0 S0 VT0 eq_refl) as (HU & HS & HVT).
    destruct (0 <? lu_numel self); [|eauto].
    rewrite Hty. cbn [negb]. unfold apply_svd.
    rewrite !bool_decide_eq_true_2 by assumption. cbn [negb].
    destruct (if Ascii.eqb _ _ then _ else _) as [jobu jobvt].
    destruct (Hsvc jobu jobvt (size_back (cloneBatchedColumnMajor self) 1)
                (size_back (cloneBatchedColumnMajor self) 0)
                (elements (cloneBatchedColumnMajor self))
                (size_back (cloneBatchedColumnMajor self) 1)
                (elements S0) (elements U0)
                (size_back (cloneBatchedColumnMajor self) 0)
                (elements VT0)
                (Z.min (size_back (cloneBatchedColumnMajor self) 1)
                   (size_back (cloneBatchedColumnMajor self) 0)))
      as [[[[a s] u] vt] ->].
    rewrite (check_infos_zeros self Ed).
    destruct compute_uv; [destruct some|]; eauto.
Qed.

(** The 2x2 matrix of ones. *)
Definition ones_matrix : Values Z := mkValues Double [2; 2] [1; 1; 1; 1].

Lemma svd_never_reports_failure_witness :
  exists result,
    svd 0 true ones_gesvd square_U_S_VT (fun t => t) (fun t _ _ _ => t)
      ones_matrix true true = SvdOk result.
Proof.
  apply (proj2 (svd_never_reports_failure Z 0 true ones_gesvd square_U_S_VT
                  (fun t => t) (fun t _ _ _ => t) ones_matrix true true)).
  - vm_compute. discriminate.
  - reflexivity.
  - reflexivity.
  - intros U S VT [= <- <- <-]. repeat split.
  - intros. unfold ones_gesvd. eauto.
Defined.

End BatchLinearAlgebra.

(* ===================================================================== *)
(** * Cat.cpp: concatenation                                             *)
(* ===================================================================== *)

Module Cat.

Import ATen.

Definition CAT_ARRAY_BATCH_SIZE : Z := 1024.
Definition CAT_ARRAY_MAX_INPUT_DIMS : Z := 3.

(** ** CatArrIndexToOffset *)

(** The loop [for (int i = Dims - 1; i >= 1; --i)] of
    [CatArrIndexToOffset<unsigned int, Dims>::compute], entered with the
    current value of [i]; it yields the remaining [linearIndex] and the
    accumulated [offset].  All arithmetic is that of [unsigned int]; a
    division by zero has no defined result. *)
Fixpoint compute_loop (outputSize outputStride : list Z)
    (dimSize concatDim : Z) (i : nat) (linearIndex offset : Z)
    : option (Z * Z) :=
  match i with
  | O => Some (linearIndex, offset)
  | S i' =>
      match outputSize !! i, outputStride !! i with
      | Some size_i, Some stride_i =>
          let curDimSize :=
            if Z.of_nat i =? concatDim then dimSize else size_i in
          if curDimSize =? 0 then None else
          let nextDimIndex := linearIndex / curDimSize in
          let curDimIndex :=
            wrap32 (linearIndex - wrap32 (curDimSize * nextDimIndex)) in
          let curDimOffset := wrap32 (curDimIndex * stride_i) in
          compute_loop outputSize outputStride dimSize concatDim i'
            nextDimIndex (wrap32 (offset + curDimOffset))
      | _, _ => None
      end
  end.

(** [CatArrIndexToOffset<unsigned int, Dims>::compute]; the template is
    instantiated for [Dims] in 1..3 only. *)
Definition compute (Dims : nat) (outputSize outputStride : list Z)
    (dimSize concatDim linearIndex : Z) : option Z :=
  match Dims with
  | O => None
  | S d =>
      match compute_loop outputSize outputStride dimSize concatDim d
              linearIndex 0, outputStride !! 0%nat with
      | Some (linearIndex', offset), Some stride_0 =>
          Some (wrap32 (offset + wrap32 (linearIndex' * stride_0)))
      | _, _ => None
      end
  end.

(** [struct CatArrInputTensor<T, unsigned int>]. *)
Record CatArrInputTensor : Type := mkCatArrInputTensor {
  input : pointer;
  offset : Z;
  dimSize : Z;
  nElements : Z
}.

(** [struct OutputTensorSizeStride<unsigned int, 3>]; only the first
    [nDims] entries of each array are initialised. *)
Record OutputTensorSizeStride : Type := mkOutputTensorSizeStride {
  outputSize : list Z;
  outputStride : list Z
}.

Inductive MemOverlapStatus : Set := FULL | PARTIAL | NO | TOO_HARD.

Inductive cat_error : Type :=
| TypeError
| AliasingError (i : nat)
| InternalOverlapError
| ShapeMismatchError (msg : string)
| InvalidArgumentError (msg : string)
| IndexError.

(** The outcome of an operator on a state: normal return, an exception
    together with the state in which it was raised, or a fault of the
    device code (undefined behaviour, failed launch), after which nothing
    is known about the state. *)
Inductive outcome (S : Type) : Type :=
| Return (s : S)
| Raise (e : cat_error) (s : S)
| Fault.

Arguments Return {S} _.
Arguments Raise {S} _ _.
Arguments Fault {S}.

(** [t.size(d)] and [at::native::size(t, d)]: a negative [d] counts from
    the end, a dimension out of range raises. *)
Definition size (t : Tensor) (d : Z) : option Z :=
  let n := dim t in
  if (0 <=? d) && (d <? n) then sizes_of t !! Z.to_nat d
  else if (- n <=? d) && (d <? 0) then sizes_of t !! Z.to_nat (d + n)
  else None.

Definition stride (t : Tensor) (d : Z) : option Z :=
  let n := dim t in
  if (0 <=? d) && (d <? n) then strides_of t !! Z.to_nat d
  else if (- n <=? d) && (d <? 0) then strides_of t !! Z.to_nat (d + n)
  else None.

Definition scalar_type_of (t : Tensor) : option ScalarType :=
  match t with Some i => Some (scalar_type i) | None => None end.

(** The lambda [should_skip] of [cat]. *)
Definition should_skip (t : Tensor) : bool :=
  negb (defined t) && (dim t =? 1).

(** [check_shape_except_dim]; [None] when every check passes. *)
Definition check_shape_except_dim (first second : Tensor) (dimension : Z)
    : option cat_error :=
  let first_dims := dim first in
  let second_dims := dim second in
  if negb (first_dims =? second_dims) then
    Some (ShapeMismatchError "Tensors must have same number of dimensions")
  else if forallb
            (fun d => (d =? dimension) ||
                      bool_decide (size first d = size second d))
            (seqZ 0 first_dims)
  then None
  else Some (ShapeMismatchError
               "Sizes of tensors must match except in dimension").

(** A linear index of a view as an offset into its storage: the index is
    split from the last dimension to the first. *)
Fixpoint offset_of_linear_rev (rsizes rstrides : list Z) (lin : Z) : Z :=
  match rsizes, rstrides with
  | n :: rs, st :: rst =>
      lin mod n * st + offset_of_linear_rev rs rst (lin / n)
  | _, _ => 0
  end.

Definition offset_of_linear (t : TensorImpl) (lin : Z) : Z :=
  offset_of_linear_rev (rev (sizes t)) (rev (strides t)) lin.

(** [at::narrow(t, dimension, start, length)]: the view of the slice
    [start, start + length) along [dimension], sharing the storage. *)
Definition narrow (t : Tensor) (dimension start length : Z)
    : option TensorImpl :=
  match t with
  | Some i =>
      match size t dimension, stride t dimension with
      | Some cur_size, Some st =>
          let d := if dimension <? 0 then dimension + dim t else dimension in
          if (0 <=? start) && (0 <=? length) && (start + length <=? cur_size)
          then Some {| scalar_type := scalar_type i;
                       sizes := <[Z.to_nat d := length]> (sizes i);
                       strides := strides i;
                       storage := storage i;
                       storage_offset := storage_offset i + start * st |}
          else None
      | _, _ => None
      end
  | None => None
  end.

Section Cat.

Context {T : Type}.

(** *** The tensor framework and the device *)

(** Contents of freshly allocated memory. *)
Variable uninit : nat -> T.

(** Conversion of one element between element types. *)
Variable cast : ScalarType -> ScalarType -> T -> T.

(** [canCast] and [at::native::result_type]. *)
Variable canCast : option ScalarType -> option ScalarType -> bool.
Variable result_type : list Tensor -> option ScalarType.

(** [at::get_overlap_status] and the test behind
    [at::assert_no_internal_overlap]. *)
Variable get_overlap_status : Tensor -> Tensor -> MemOverlapStatus.
Variable has_internal_overlap : Tensor -> bool.

(** [Tensor::suggest_memory_format] and the strides a memory format
    prescribes for given sizes ([None]: the format does not apply). *)
Variable suggest_memory_format : Tensor -> MemoryFormat.
Variable format_strides : MemoryFormat -> list Z -> option (list Z).

(** [dpcppMaxComputeUnitSize] and [dpcppMaxWorkGroupSize]. *)
Variable numCU : Z.
Variable numWI : Z.

(** The oneDNN path of [_cat_out]. *)
Variable cat_valid : list Tensor -> bool.
Variable to_plain_if_needed : list Tensor -> list Tensor.
Variable onednn_concat :
  gmap nat (list T) -> Tensor -> list Tensor -> Z
  -> outcome (gmap nat (list T) * Tensor).

(** *** The batched copy kernel *)

(** One pass of the body of the [while] loop:
    [output[dataOffset + elementOffset] = data[tid]]. *)
Definition copy_element (Dims : nat) (output data : pointer)
    (os : OutputTensorSizeStride) (dimSize concatDim dataOffset : Z)
    (h : gmap nat (list T)) (tid : Z) : option (gmap nat (list T)) :=
  match compute Dims (outputSize os) (outputStride os) dimSize concatDim tid
  with
  | Some elementOffset =>
      match load h data tid with
      | Some v => store h output (wrap32 (dataOffset + elementOffset)) v
      | None => None
      end
  | None => None
  end.

(** The grid-stride loop [while (tid < nElements) { ...; tid += stride; }];
    [fuel] bounds the number of passes. *)
Fixpoint grid_stride_loop (fuel : nat)
    (body : gmap nat (list T) -> Z -> option (gmap nat (list T)))
    (nElements stride : Z) (h : gmap nat (list T)) (tid : Z)
    : option (gmap nat (list T)) :=
  match fuel with
  | O => None
  | S fuel' =>
      if tid <? nElements then
        match body h tid with
        | Some h' =>
            grid_stride_loop fuel' body nElements stride h'
              (wrap32 (tid + stride))
        | None => None
        end
      else Some h
  end.

(** The kernel function of [CatArrayBatchedCopy] once the work item of
    group [wg] and local id [wi] has read the metadata [meta] of its
    input. *)
Definition work_item_copy (Dims : nat) (output : pointer)
    (os : OutputTensorSizeStride) (concatDim dimStride groups wg_size : Z)
    (meta : CatArrInputTensor) (h : gmap nat (list T)) (wg wi : Z)
    : option (gmap nat (list T)) :=
  let tid := wrap32 (wg * wg_size + wi) in
  let nElements := nElements meta in
  if nElements <=? tid then Some h else
  let data := input meta in
  let offset := offset meta in
  let dimSize := dimSize meta in
  let dataOffset := wrap32 (offset * dimStride) in
  let stride := wrap32 (groups * wg_size) in
  grid_stride_loop (S (Z.to_nat nElements))
    (copy_element Dims output data os dimSize concatDim dataOffset)
    nElements stride h tid.

(** The kernel function of [CatArrayBatchedCopy] for the work item of
    group [wg] and local id [wi] along the first axis and of group [inb]
    along the second, which selects the input. *)
Definition batched_copy_item (Dims : nat) (output : pointer)
    (inputs : list CatArrInputTensor) (os : OutputTensorSizeStride)
    (concatDim dimStride groups wg_size : Z)
    (h : gmap nat (list T)) (id : Z * Z * Z) : option (gmap nat (list T)) :=
  let '(inb, wg, wi) := id in
  match inputs !! Z.to_nat inb with
  | Some meta =>
      work_item_copy Dims output os concatDim dimStride groups wg_size
        meta h wg wi
  | None => None
  end.

(** The work items of the launch: [global_range (numCU * numWI / 2,
    batchCounter)] with [local_range (numWI, 1)]. *)
Definition work_items (groups wg_size batchCounter : Z)
    : list (Z * Z * Z) :=
  inb ← seqZ 0 batchCounter;
  wg ← seqZ 0 groups;
  wi ← seqZ 0 wg_size;
  [(inb, wg, wi)].

(** [CatArrayBatchedCopy<T, unsigned int, Dims>].  The launch is refused
    when the local range is empty or does not divide the global range. *)
Definition CatArrayBatchedCopy (Dims : nat) (h : gmap nat (list T))
    (output : pointer) (inputs : list CatArrInputTensor)
    (os : OutputTensorSizeStride) (concatDim dimStride batchCounter : Z)
    : option (gmap nat (list T)) :=
  let global0 := numCU * numWI / 2 in
  if (numWI <=? 0) || negb (global0 mod numWI =? 0) then None else
  let groups := global0 / numWI in
  run_items
    (batched_copy_item Dims output inputs os (wrap32 concatDim) dimStride
       groups numWI)
    h (work_items groups numWI batchCounter).

(** The inner loop of [parallel_cat<scalar_t>] that fills [stackInputs]
    for one batch, threading the running [offset].
    [inputs[i].data_ptr<scalar_t>()] raises for an input of another
    element type than [scalar_t]. *)
Fixpoint fill_batch (scalar_t : ScalarType) (batch : list Tensor)
    (dimension offset : Z) : option (list CatArrInputTensor * Z) :=
  match batch with
  | [] => Some ([], offset)
  | t :: rest =>
      match t, size t dimension with
      | Some i, Some dimSize =>
          if negb (bool_decide (scalar_type i = scalar_t)) then None else
          match fill_batch scalar_t rest dimension (offset + dimSize) with
          | Some (metas, offset') =>
              Some ({| input := data_ptr i;
                       offset := wrap32 offset;
                       dimSize := wrap32 dimSize;
                       nElements := wrap32 (numel t) |} :: metas, offset')
          | None => None
          end
      | _, _ => None
      end
  end.

(** The outer loop [for (i = 0; i < inputs.size(); i += 1024)] of
    [parallel_cat] over what is left of the inputs; [fuel] bounds the
    number of batches. *)
Fixpoint batch_loop (fuel : nat) (scalar_t : ScalarType) (data : pointer)
    (param : OutputTensorSizeStride) (dimension : Z) (nDims : Z)
    (h : gmap nat (list T)) (rest : list Tensor) (offset : Z)
    : option (gmap nat (list T)) :=
  match rest with
  | [] => Some h
  | _ :: _ =>
      match fuel with
      | O => None
      | S fuel' =>
          let batch := take (Z.to_nat CAT_ARRAY_BATCH_SIZE) rest in
          match fill_batch scalar_t batch dimension offset with
          | Some (stackInputs, offset') =>
              let batchCounter := Z.of_nat (length batch) in
              let launch (Dims : nat) :=
                match
                  (if (0 <=? dimension) &&
                      (dimension <? CAT_ARRAY_MAX_INPUT_DIMS)
                   then outputStride param !! Z.to_nat dimension else None)
                with
                | Some dimStride =>
                    CatArrayBatchedCopy Dims h data stackInputs param
                      dimension dimStride batchCounter
                | None => None
                end in
              match
                (if nDims =? 1 then launch 1%nat
                 else if nDims =? 2 then launch 2%nat
                 else if nDims =? 3 then launch 3%nat
                 else Some h)
              with
              | Some h' =>
                  batch_loop fuel' scalar_t data param dimension nDims h'
                    (drop (Z.to_nat CAT_ARRAY_BATCH_SIZE) rest) offset'
              | None => None
              end
          | None => None
          end
      end
  end.

(** [param.outputSize[i] = size(out, i); param.outputStride[i] =
    out.stride(i)] for [i < nDims], converted to [unsigned int]. *)
Fixpoint output_param (out : Tensor) (dims : list Z)
    : option OutputTensorSizeStride :=
  match dims with
  | [] => Some {| outputSize := []; outputStride := [] |}
  | i :: rest =>
      match size out i, stride out i, output_param out rest with
      | Some sz, Some st, Some p =>
          Some {| outputSize := wrap32 sz :: outputSize p;
                  outputStride := wrap32 st :: outputStride p |}
      | _, _, _ => None
      end
  end.

(** [parallel_cat<scalar_t>], with [scalar_t] the element type of the
    output, on which [cat] dispatches (the dispatch lists every element
    type); the arrays of [param] have [CAT_ARRAY_MAX_INPUT_DIMS]
    entries. *)
Definition parallel_cat (h : gmap nat (list T)) (out : Tensor)
    (inputs : list Tensor) (dimension nDims : Z)
    : option (gmap nat (list T)) :=
  match out with
  | Some o =>
      if CAT_ARRAY_MAX_INPUT_DIMS <? nDims then None else
      match output_param out (seqZ 0 nDims) with
      | Some param =>
          batch_loop (length inputs) (scalar_type o) (data_ptr o) param
            dimension nDims h inputs 0
      | None => None
      end
  | None => None
  end.

(** *** The fallback: narrow and copy *)

(** Modelled from the spec: [Tensor::copy_] (tensor framework), "the
    framework's generic strided-copy primitive (assumed correct, arbitrary
    strides, with implicit type cast)": element number [lin] of the
    source, in row-major order, goes to element number [lin] of the
    destination. *)
Definition copy_element_strided (dst src : TensorImpl)
    (h : gmap nat (list T)) (lin : Z) : option (gmap nat (list T)) :=
  match load h (data_ptr src) (offset_of_linear src lin) with
  | Some v =>
      store h (data_ptr dst) (offset_of_linear dst lin)
        (cast (scalar_type src) (scalar_type dst) v)
  | None => None
  end.

Definition copy_ (h : gmap nat (list T)) (dst : TensorImpl) (src : Tensor)
    : option (gmap nat (list T)) :=
  match src with
  | Some s =>
      if bool_decide (sizes s = sizes dst)
      then run_items (copy_element_strided dst s) h
             (seqZ 0 (prod_list (sizes dst)))
      else None
  | None => None
  end.

(** The loop of the [else] branch of [cat], over what is left of the
    inputs. *)
Fixpoint narrow_copy_loop (h : gmap nat (list T)) (result : Tensor)
    (rest : list Tensor) (dimension offset : Z)
    : option (gmap nat (list T)) :=
  match rest with
  | [] => Some h
  | t :: rest' =>
      if should_skip t
      then narrow_copy_loop h result rest' dimension offset
      else
        match size t dimension with
        | Some dimSize =>
            match narrow result dimension offset dimSize with
            | Some nt =>
                match copy_ h nt t with
                | Some h' =>
                    narrow_copy_loop h' result rest' dimension
                      (offset + dimSize)
                | None => None
                end
            | None => None
            end
        | None => None
        end
  end.

(** *** Validation and shape computation *)

(** The first index whose overlap status with the output is [PARTIAL] or
    [FULL]. *)
Fixpoint find_overlap (result : Tensor) (inputs : list Tensor) (i : nat)
    : option nat :=
  match inputs with
  | [] => None
  | t :: rest =>
      match get_overlap_status result t with
      | PARTIAL | FULL => Some i
      | _ => find_overlap result rest (S i)
      end
  end.

(** The first loop of [cat]: [hasSkippedInput], [nDims] and
    [notSkippedTensor] after the inputs seen so far. *)
Fixpoint scan_inputs (inputs : list Tensor)
    (acc : bool * Z * Tensor) : bool * Z * Tensor :=
  match inputs with
  | [] => acc
  | t :: rest =>
      let '(hasSkippedInput, nDims, notSkippedTensor) := acc in
      if should_skip t then scan_inputs rest (true, nDims, notSkippedTensor)
      else scan_inputs rest (hasSkippedInput, dim t, t)
  end.

(** The second loop of [cat]: the shape checks and [cat_dim_size]; the
    sum is an [int64_t], whose overflow is undefined. *)
Fixpoint sum_cat_dim (notSkippedTensor : Tensor) (inputs : list Tensor)
    (dimension cat_dim_size : Z) : outcome Z :=
  match inputs with
  | [] => Return cat_dim_size
  | tensor :: rest =>
      if should_skip tensor
      then sum_cat_dim notSkippedTensor rest dimension cat_dim_size
      else
        match check_shape_except_dim notSkippedTensor tensor dimension with
        | Some e => Raise e cat_dim_size
        | None =>
            match size tensor dimension with
            | Some d =>
                if in_signed_range 64 (cat_dim_size + d)
                then sum_cat_dim notSkippedTensor rest dimension
                       (cat_dim_size + d)
                else Fault
            | None => Raise IndexError cat_dim_size
            end
        end
  end.

(** The third loop of [cat]: the size vector of the result. *)
Definition result_size (notSkippedTensor : Tensor)
    (nDims dimension cat_dim_size : Z) : list Z :=
  (fun d => if d =? dimension then cat_dim_size
            else default 0 (size notSkippedTensor d)) <$> seqZ 0 nDims.

(** [impl::cat].  The loops over [i < numInputs] read [inputs[i]]; reading
    past the end of [inputs] is a fault. *)
Definition cat (h : gmap nat (list T)) (result : Tensor)
    (inputs : list Tensor) (numInputs dimension : Z) (allSameType : bool)
    : outcome (gmap nat (list T) * Tensor) :=
  if negb (canCast (result_type inputs) (scalar_type_of result))
  then Raise TypeError (h, result)
  else
  match find_overlap result inputs 0 with
  | Some i => Raise (AliasingError i) (h, result)
  | None =>
  if has_internal_overlap result then Raise InternalOverlapError (h, result)
  else
  if Z.of_nat (length inputs) <? numInputs then Fault else
  let indexed := take (Z.to_nat numInputs) inputs in
  let '(hasSkippedInput, nDims, notSkippedTensor) :=
    scan_inputs indexed (false, 0, None) in
  if negb (defined notSkippedTensor) then Return (h, result) else
  if negb (0 <? numInputs)
  then Raise (InvalidArgumentError "invalid number of inputs") (h, result)
  else
  if negb (0 <=? dimension)
  then Raise (InvalidArgumentError "invalid dimension") (h, result)
  else
  let first_tensor := default None (inputs !! 0%nat) in
  let ft_smf := suggest_memory_format first_tensor in
  match sum_cat_dim notSkippedTensor indexed dimension 0 with
  | Fault => Fault
  | Raise e _ => Raise e (h, result)
  | Return cat_dim_size =>
  let size := result_size notSkippedTensor nDims dimension cat_dim_size in
  match result, format_strides ft_smf size with
  | Some r, Some st =>
      let '(h1, r1) := resize_ uninit h r size st in
      let result1 : Tensor := Some r1 in
      let all32BitIndexable := forallb canUse32BitIndexMath inputs in
      let allContiguous :=
        forallb (fun t => negb (defined t) || is_contiguous t) inputs in
      if (1 <? Z.of_nat (length inputs)) && negb hasSkippedInput &&
         (dim result1 <=? CAT_ARRAY_MAX_INPUT_DIMS) &&
         canUse32BitIndexMath result1 && allContiguous &&
         all32BitIndexable && allSameType
      then
        match parallel_cat h1 result1 inputs dimension nDims with
        | Some h2 => Return (h2, result1)
        | None => Fault
        end
      else
        match narrow_copy_loop h1 result1 indexed dimension 0 with
        | Some h2 => Return (h2, result1)
        | None => Fault
        end
  | _, _ => Fault
  end
  end
  end.


End Cat.

(** ** Validation *)

Section Validation.

Variable get_overlap_status : Tensor -> Tensor -> MemOverlapStatus.

(** The overlap statuses that the checks of [cat] and [_cat_out] reject. *)
Definition overlaps (result t : Tensor) : Prop :=
  get_overlap_status result t = PARTIAL \/
  get_overlap_status result t = FULL.

Lemma overlaps_dec result t : {overlaps result t} + {~ overlaps result t}.
Proof.
  unfold overlaps. destruct (get_overlap_status result t);
    first [left; tauto | right; intros [H|H]; discriminate H].
Qed.

(** [find_overlap] finds the first overlapping input whenever there is
    one. *)
Lemma find_overlap_first result inputs n i t :
  inputs !! i = Some t -> overlaps result t ->
  exists k tk,
    find_overlap get_overlap_status result inputs n = Some (n + k)%nat /\
    (k <= i)%nat /\ inputs !! k = Some tk /\ overlaps result tk /\
    forall j tj, (j < k)%nat -> inputs !! j = Some tj -> ~ overlaps result tj.
Proof.
  revert n i. induction inputs as [|x rest IH]; intros n i Hi Hov;
    [discriminate|].
  destruct (overlaps_dec result x) as [Hx|Hx].
  - exists 0%nat, x. rewrite Nat.add_0_r. split.
    + cbn. destruct Hx as [-> | ->]; reflexivity.
    + split; [lia|]. split; [reflexivity|]. split; [exact Hx|].
      intros j tj Hj. lia.
  - destruct i as [|i]; [cbn in Hi; injection Hi as ->; contradiction|].
    cbn in Hi. destruct (IH (S n) i Hi Hov) as (k & tk & Hf & Hk & Hl & Ho & Hmin).
    exists (S k), tk. split.
    + cbn [find_overlap].
      assert (find_overlap get_overlap_status result rest (S n)
              = Some (n + S k)%nat) as Hf' by (rewrite Hf; f_equal; lia).
      unfold overlaps in Hx.
      destruct (get_overlap_status result x); try exact Hf'; tauto.
    + split; [lia|]. split; [exact Hl|]. split; [exact Ho|].
      intros [|j] tj Hj Hlj.
      * cbn in Hlj. injection Hlj as <-. exact Hx.
      * cbn in Hlj. apply (Hmin j tj); [lia|exact Hlj].
Qed.

End Validation.

(** [impl::cat] on its own raises before touching the output as well; the
    error is the aliasing error unless the type check, which comes first,
    fails. *)
Lemma cat_rejects_overlap
    (T : Type) uninit cast canCast result_type get_overlap_status
    has_internal_overlap suggest_memory_format format_strides numCU numWI
    (h : gmap nat (list T)) result inputs numInputs dimension allSameType
    i t :
  inputs !! i = Some t -> overlaps get_overlap_status result t ->
  exists e,
    cat uninit cast canCast result_type get_overlap_status
      has_internal_overlap suggest_memory_format format_strides numCU numWI
      h result inputs numInputs dimension allSameType = Raise e (h, result) /\
    (e = TypeError \/ exists k, e = AliasingError k) /\
    (canCast (result_type inputs) (scalar_type_of result) = true ->
     exists k, e = AliasingError k).
Proof.
  intros Hi Hov. unfold cat.
  destruct (canCast _ _).
  - cbn [negb].
    destruct (find_overlap_first get_overlap_status result inputs 0 i t
                Hi Hov) as (k & tk & Hf & _). rewrite Hf.
    eexists; split; [reflexivity|]. split; eauto.
  - cbn [negb]. eexists; split; [reflexivity|]. split; [left; reflexivity|].
    discriminate.
Qed.

(** *** A concrete framework instance *)

(** Two tensors overlap when they are views of the same storage whose
    element ranges intersect. *)
Definition simple_overlap_status (a b : Tensor) : MemOverlapStatus :=
  match a, b with
  | Some x, Some y =>
      if bool_decide (storage x = storage y) then
        if bool_decide (storage_offset x = storage_offset y /\
                        sizes x = sizes y /\ strides x = strides y)
        then FULL
        else if (storage_offset x <? storage_offset y + numel b) &&
                (storage_offset y <? storage_offset x + numel a)
        then PARTIAL else NO
      else NO
  | _, _ => NO
  end.

Definition simple_format_strides (f : MemoryFormat) (sz : list Z)
    : option (list Z) :=
  match f with Contiguous => Some (contiguous_strides sz) | _ => None end.

Definition simple_cat (numCU numWI : Z) :=
  cat (T:=Z) (fun _ => 0) (fun _ _ x => x) (fun _ _ => true)
    (fun _ => Some Long) simple_overlap_status (fun _ => false)
    (fun _ => Contiguous) simple_format_strides numCU numWI.


Definition long_tensor (sz st : list Z) (s : nat) (o : Z) : Tensor :=
  Some {| scalar_type := Long; sizes := sz; strides := st;
          storage := s; storage_offset := o |}.

(** Storage [1] holds the 2x3 matrix [[1,2,3],[4,5,6]], storage [2] the
    1x3 matrix [[7,8,9]]; storage [0] is the empty output. *)
Definition example_heap : gmap nat (list Z) :=
  <[2%nat := [7; 8; 9]]>
    (<[1%nat := [1; 2; 3; 4; 5; 6]]> (<[0%nat := []]> ∅)).

Definition example_a : Tensor := long_tensor [2; 3] [3; 1] 1 0.
Definition example_b : Tensor := long_tensor [1; 3] [3; 1] 2 0.
Definition example_out : Tensor := long_tensor [0] [1] 0 0.




(** ** The shape of the result *)

(** The sum over the non-skipped inputs of their sizes along
    [dimension]. *)
Fixpoint cat_dim_total (inputs : list Tensor) (dimension : Z) : Z :=
  match inputs with
  | [] => 0
  | t :: rest =>
      if should_skip t then cat_dim_total rest dimension
      else default 0 (size t dimension) + cat_dim_total rest dimension
  end.

Lemma should_skip_defined t : should_skip t = false -> defined t = true.
Proof. destruct t; [reflexivity|discriminate]. Qed.

Lemma scan_inputs_spec inputs b n ns :
  match scan_inputs inputs (b, n, ns) with
  | (_, n', ns') =>
      (Forall (fun t => should_skip t = true) inputs /\ n' = n /\ ns' = ns) \/
      (should_skip ns' = false /\ ns' ∈ inputs /\ n' = dim ns')
  end.
Proof.
  revert b n ns. induction inputs as [|t rest IH]; intros b n ns.
  - cbn. left. repeat split. constructor.
  - cbn [scan_inputs]. destruct (should_skip t) eqn:Hs.
    + specialize (IH true n ns).
      destruct (scan_inputs rest (true, n, ns)) as [[b' n'] ns'].
      destruct IH as [(Hall & -> & ->)|(H1 & H2 & H3)].
      * left. repeat split. constructor; assumption.
      * right. repeat split; try assumption. right; assumption.
    + specialize (IH b (dim t) t).
      destruct (scan_inputs rest (b, dim t, t)) as [[b' n'] ns'].
      destruct IH as [(Hall & -> & ->)|(H1 & H2 & H3)].
      * right. repeat split; try assumption. left.
      * right. repeat split; try assumption. right; assumption.
Qed.

Lemma check_shape_except_dim_None first second dimension :
  check_shape_except_dim first second dimension = None ->
  dim first = dim second /\
  forall d, 0 <= d < dim first -> d <> dimension ->
            size first d = size second d.
Proof.
  unfold check_shape_except_dim.
  destruct (dim first =? dim second) eqn:Hd; [|discriminate]. cbn [negb].
  apply Z.eqb_eq in Hd.
  destruct (forallb _ _) eqn:Hf; [|discriminate]. intros _.
  split; [exact Hd|]. intros d Hr Hne.
  rewrite forallb_forall in Hf.
  specialize (Hf d). rewrite <- list_elem_of_In, elem_of_seqZ in Hf.
  specialize (Hf ltac:(lia)).
  apply orb_true_iff in Hf. destruct Hf as [Hf|Hf].
  - apply Z.eqb_eq in Hf. contradiction.
  - apply bool_decide_eq_true in Hf. exact Hf.
Qed.

Lemma sum_cat_dim_Return ns inputs dimension c c' :
  sum_cat_dim ns inputs dimension c = Return c' ->
  c' = c + cat_dim_total inputs dimension /\
  forall t, t ∈ inputs -> should_skip t = false ->
            check_shape_except_dim ns t dimension = None.
Proof.
  revert c. induction inputs as [|t rest IH]; intros c; cbn.
  - intros [= <-]. split; [lia|]. intros t Ht. inversion Ht.
  - destruct (should_skip t) eqn:Hs.
    + intros H. destruct (IH c H) as [-> Hall]. split; [reflexivity|].
      intros t' Ht' Hs'. apply elem_of_cons in Ht' as [->|Ht'];
        [congruence|auto].
    + destruct (check_shape_except_dim ns t dimension) eqn:Hc; [discriminate|].
      destruct (size t dimension) as [d|]; [|discriminate].
      destruct (in_signed_range 64 (c + d)); [|discriminate].
      intros H. destruct (IH (c + d) H) as [-> Hall]. split; [cbn; lia|].
      intros t' Ht' Hs'. apply elem_of_cons in Ht' as [->|Ht']; auto.
Qed.

Lemma size_in_range (t : Tensor) d :
  0 <= d < dim t -> size t d = sizes_of t !! Z.to_nat d.
Proof.
  intros Hd. unfold size.
  rewrite (proj2 (Z.leb_le _ _)) by lia.
  rewrite (proj2 (Z.ltb_lt _ _)) by lia. reflexivity.
Qed.

Lemma size_is_Some (t : Tensor) d : 0 <= d < dim t -> is_Some (size t d).
Proof.
  intros Hd. rewrite size_in_range by exact Hd.
  apply lookup_lt_is_Some. unfold dim in Hd. lia.
Qed.

Lemma result_size_length ns nDims dimension c :
  0 <= nDims -> Z.of_nat (length (result_size ns nDims dimension c)) = nDims.
Proof.
  intros H. unfold result_size. rewrite length_fmap, length_seqZ. lia.
Qed.

Lemma result_size_lookup ns nDims dimension c d :
  0 <= d < nDims ->
  result_size ns nDims dimension c !! Z.to_nat d =
  Some (if d =? dimension then c else default 0 (size ns d)).
Proof.
  intros Hd. unfold result_size. rewrite list_lookup_fmap.
  rewrite lookup_seqZ_lt by lia.
  cbn. rewrite Z2Nat.id by lia. reflexivity.
Qed.

Lemma dim_nonneg (t : Tensor) : 0 <= dim t.
Proof. unfold dim. lia. Qed.

Lemma find_some_stdpp {A} (f : A -> bool) l x :
  find f l = Some x -> x ∈ l /\ f x = true.
Proof.
  intros H. apply find_some in H. rewrite <- list_elem_of_In in H. exact H.
Qed.

(** C4. When [cat], called on all its inputs, returns, and [first] is
    the first input that is not skipped, the output has the rank of
    [first], its size along every other dimension than the concat
    dimension is that of [first], and its size along the concat dimension
    is the sum of the sizes of the non-skipped inputs along it. *)
Theorem cat_resizes_to_concatenated_shape
    (T : Type) uninit cast canCast result_type get_overlap_status
    has_internal_overlap suggest_memory_format format_strides numCU numWI
    (h : gmap nat (list T)) (result : Tensor) (inputs : list Tensor)
    (dimension : Z) (allSameType : bool)
    (h' : gmap nat (list T)) (result' first : Tensor) :
  cat uninit cast canCast result_type get_overlap_status
    has_internal_overlap suggest_memory_format format_strides numCU numWI
    h result inputs (Z.of_nat (length inputs)) dimension allSameType
  = Return (h', result') ->
  find (fun t => negb (should_skip t)) inputs = Some first ->
  dim result' = dim first /\
  forall d, 0 <= d < dim first ->
    size result' d =
    if d =? dimension then Some (cat_dim_total inputs dimension)
    else size first d.
Proof.
  intros Hcat Hfirst.
  apply find_some_stdpp in Hfirst as [Hin Hns].
  apply negb_true_iff in Hns.
  unfold cat in Hcat.
  destruct (negb (canCast _ _)); [discriminate|].
  destruct (find_overlap _ _ _ _); [discriminate|].
  destruct (has_internal_overlap result); [discriminate|].
  destruct (_ <? _) eqn:Hlen; [discriminate|].
  rewrite Nat2Z.id, firstn_all in Hcat.
  pose proof (scan_inputs_spec inputs false 0 None) as Hscan.
  destruct (scan_inputs inputs (false, 0, None)) as [[hasSkipped nDims] ns].
  destruct Hscan as [(Hall & _ & _)|(Hskip & Hmem & HnD)].
  { rewrite Forall_forall in Hall. rewrite (Hall first Hin) in Hns.
    discriminate. }
  rewrite (should_skip_defined ns Hskip) in Hcat. cbn [negb] in Hcat.
  destruct (negb (0 <? _)); [discriminate|].
  destruct (negb (0 <=? dimension)); [discriminate|].
  destruct (sum_cat_dim ns inputs dimension 0) as [c|e c|] eqn:Hsum;
    try discriminate.
  apply sum_cat_dim_Return in Hsum as [-> Hchk].
  destruct (check_shape_except_dim_None ns first dimension
              (Hchk first Hin Hns)) as [Hdim Hsz].
  destruct result as [r|]; [|discriminate].
  destruct (format_strides _ _) as [st|]; [|discriminate].
  cbn [resize_] in Hcat.
  set (r1 := {| scalar_type := scalar_type r;
                sizes := result_size ns nDims dimension
                           (0 + cat_dim_total inputs dimension);
                strides := st; storage := storage r;
                storage_offset := storage_offset r |}) in *.
  assert (result' = Some r1) as ->.
  { destruct (_ && _) in Hcat.
    - destruct (parallel_cat _ _ _ _ _ _) in Hcat; [|discriminate].
      injection Hcat as _ <-. reflexivity.
    - destruct (narrow_copy_loop _ _ _ _ _ _) in Hcat; [|discriminate].
      injection Hcat as _ <-. reflexivity. }
  pose proof (dim_nonneg ns) as Hnn.
  assert (Hd1 : dim (Some r1) = dim first).
  { unfold dim at 1. cbn [sizes_of r1 sizes].
    rewrite result_size_length by lia. lia. }
  split; [exact Hd1|].
  intros d Hd. rewrite size_in_range by lia. cbn [sizes_of r1 sizes].
  rewrite result_size_lookup by lia. rewrite Z.add_0_l.
  destruct (d =? dimension) eqn:Ed; [reflexivity|].
  apply Z.eqb_neq in Ed.
  rewrite <- (Hsz d ltac:(lia) Ed).
  destruct (size_is_Some ns d ltac:(lia)) as [x ->]. reflexivity.
Qed.

Lemma cat_resizes_to_concatenated_shape_witness :
  dim (long_tensor [3; 3] [3; 1] 0 0) = dim example_a /\
  forall d, 0 <= d < dim example_a ->
    size (long_tensor [3; 3] [3; 1] 0 0) d =
    if d =? 0 then Some (cat_dim_total [example_a; example_b] 0)
    else size example_a d.
Proof.
  apply (cat_resizes_to_concatenated_shape Z (fun _ => 0) (fun _ _ x => x)
           (fun _ _ => true) (fun _ => Some Long) simple_overlap_status
           (fun _ => false) (fun _ => Contiguous) simple_format_strides 2 4
           example_heap example_out [example_a; example_b] 0 true
           (<[0%nat := [1; 2; 3; 4; 5; 6; 7; 8; 9]]> example_heap)
           (long_tensor [3; 3] [3; 1] 0 0) example_a).
  - vm_compute. reflexivity.
  - reflexivity.
Defined.

(** ** Linear indices and offsets *)

(** Sizes and strides, innermost dimension first, of a layout in which
    the dimensions do not overlap: every size is positive and every
    stride is at least the extent of the next inner dimension. *)
Fixpoint nested_rev (rsizes rstrides : list Z) : Prop :=
  match rsizes, rstrides with
  | [], [] => True
  | n :: rs, st :: rst =>
      0 < n /\
      match rst with st' :: _ => n * st <= st' | [] => True end /\
      nested_rev rs rst
  | _, _ => False
  end.

(** The largest offset of a view, innermost dimension first. *)
Fixpoint max_offset_rev (rsizes rstrides : list Z) : Z :=
  match rsizes, rstrides with
  | n :: rs, st :: rst => (n - 1) * st + max_offset_rev rs rst
  | _, _ => 0
  end.

Lemma prod_list_cons n l : prod_list (n :: l) = n * prod_list l.
Proof. reflexivity. Qed.

Lemma prod_list_app l1 l2 : prod_list (l1 ++ l2) = prod_list l1 * prod_list l2.
Proof.
  induction l1 as [|x l1 IH].
  - change (prod_list []) with 1. rewrite app_nil_l. lia.
  - rewrite <- app_comm_cons, !prod_list_cons, IH. lia.
Qed.

Lemma prod_list_rev l : prod_list (rev l) = prod_list l.
Proof.
  induction l as [|x l IH]; [reflexivity|].
  cbn [rev]. rewrite prod_list_app, IH, !prod_list_cons.
  change (prod_list []) with 1. lia.
Qed.

Lemma nested_rev_pos rs rst : nested_rev rs rst -> 0 < prod_list rs.
Proof.
  revert rst. induction rs as [|n rs IH]; intros [|st rst]; cbn; try lia;
    try tauto.
  intros (Hn & _ & H). specialize (IH rst H).
  change (foldr Z.mul 1 rs) with (prod_list rs). nia.
Qed.

Lemma nested_rev_stride_nonneg rs rst st0 :
  nested_rev rs rst -> 0 <= st0 -> head rst = Some st0 ->
  Forall (fun s => 0 <= s) rst.
Proof.
  revert rst st0. induction rs as [|n rs IH]; intros [|st rst] st0; cbn;
    try tauto; try discriminate.
  intros (Hn & Hst & H) H0 [= ->]. constructor; [exact H0|].
  destruct rst as [|st' rst']; [constructor|].
  apply (IH (st' :: rst') st'); [exact H|nia|reflexivity].
Qed.

(** Consecutive linear indices of a non-overlapping layout are at least
    one innermost stride apart: the offset is strictly increasing. *)
Lemma offset_of_linear_rev_increasing rs :
  forall rst st0 lin lin',
    nested_rev rs rst -> head rst = Some st0 -> 0 <= st0 ->
    0 <= lin -> lin < lin' -> lin' < prod_list rs ->
    offset_of_linear_rev rs rst lin + st0 <= offset_of_linear_rev rs rst lin'.
Proof.
  induction rs as [|n rs IH]; intros [|st rst] st0 lin lin'; cbn [nested_rev];
    try tauto; try (intros _ [=]; fail).
  intros (Hn & Hst & Hnest) [= ->] H0 Hlin Hlt Hb.
  rewrite prod_list_cons in Hb.
  cbn [offset_of_linear_rev].
  pose proof (Z.div_mod lin n ltac:(lia)) as D1.
  pose proof (Z.div_mod lin' n ltac:(lia)) as D2.
  pose proof (Z.mod_pos_bound lin n Hn) as M1.
  pose proof (Z.mod_pos_bound lin' n Hn) as M2.
  assert (Hq : lin / n <= lin' / n) by (apply Z.div_le_mono; lia).
  destruct (Z.eq_dec (lin / n) (lin' / n)) as [E|NE].
  - rewrite E in *. nia.
  - destruct rs as [|n' rs'], rst as [|st' rst']; cbn [nested_rev] in Hnest;
      try tauto.
    + (* one dimension: both quotients are zero *)
      cbn in Hb. assert (lin / n = 0) by (apply Z.div_small; lia).
      assert (lin' / n = 0) by (apply Z.div_small; lia). lia.
    + assert (Hq' : lin' / n < prod_list (n' :: rs')).
      { apply Z.div_lt_upper_bound; [lia|]. nia. }
      pose proof (IH (st' :: rst') st' (lin / n) (lin' / n) Hnest eq_refl
                    ltac:(nia) ltac:(apply Z.div_pos; lia) ltac:(lia) Hq')
        as Hg.
      nia.
Qed.

Lemma offset_of_linear_rev_injective rs rst st0 lin lin' :
  nested_rev rs rst -> head rst = Some st0 -> 0 < st0 ->
  0 <= lin < prod_list rs -> 0 <= lin' < prod_list rs ->
  offset_of_linear_rev rs rst lin = offset_of_linear_rev rs rst lin' ->
  lin = lin'.
Proof.
  intros Hn Hh H0 Hl Hl' E.
  destruct (Z.lt_trichotomy lin lin') as [Hlt|[Heq|Hgt]]; [|exact Heq|].
  - pose proof (offset_of_linear_rev_increasing rs rst st0 lin lin' Hn Hh
                  ltac:(lia) ltac:(lia) Hlt ltac:(lia)). lia.
  - pose proof (offset_of_linear_rev_increasing rs rst st0 lin' lin Hn Hh
                  ltac:(lia) ltac:(lia) Hgt ltac:(lia)). lia.
Qed.

(** Every offset lies between zero and the largest offset of the view. *)
Lemma offset_of_linear_rev_bounds rs :
  forall rst lin,
    Forall (fun n => 0 < n) rs -> Forall (fun s => 0 <= s) rst ->
    0 <= offset_of_linear_rev rs rst lin <= max_offset_rev rs rst.
Proof.
  induction rs as [|n rs IH]; intros [|st rst] lin Hs Hst; cbn; try lia.
  inversion Hs as [|? ? Hn Hs']; subst. inversion Hst as [|? ? H0 Hst']; subst.
  specialize (IH rst (lin / n) Hs' Hst').
  pose proof (Z.mod_pos_bound lin n Hn). nia.
Qed.

(** On a contiguous view the offset of a linear index is the index. *)
Lemma offset_of_linear_rev_contiguous rs :
  forall rst z lin,
    length rs = length rst -> Forall (fun n => 0 < n) rs ->
    is_contiguous_from rs rst z = true ->
    0 <= lin < prod_list rs ->
    offset_of_linear_rev rs rst lin = lin * z.
Proof.
  induction rs as [|n rs IH]; intros [|st rst] z lin Hlen Hs Hc Hl;
    try discriminate.
  - change (prod_list []) with 1 in Hl. cbn [offset_of_linear_rev].
    assert (lin = 0) as -> by lia. lia.
  - inversion Hs as [|? ? Hn Hs']; subst.
    rewrite prod_list_cons in Hl. cbn [offset_of_linear_rev].
    cbn [is_contiguous_from] in Hc.
    pose proof (Z.div_mod lin n ltac:(lia)) as D.
    pose proof (Z.mod_pos_bound lin n Hn) as M.
    assert (Hq : 0 <= lin / n < prod_list rs).
    { split; [apply Z.div_pos; lia|].
      apply Z.div_lt_upper_bound; lia. }
    destruct (n =? 1) eqn:E1.
    + apply Z.eqb_eq in E1. subst n.
      rewrite (IH rst z (lin / 1)) by (auto; cbn in Hlen; lia).
      rewrite Z.mod_1_r, Z.div_1_r. lia.
    + destruct (st =? z) eqn:E2; [|discriminate].
      apply Z.eqb_eq in E2. subst st.
      rewrite (IH rst (z * n) (lin / n)) by (auto; cbn in Hlen; lia).
      nia.
Qed.

(** ** [compute] without wrap-around *)

Lemma wrap32_small z : 0 <= z < 2 ^ 32 -> wrap32 z = z.
Proof. intros H. unfold wrap32. apply Z.mod_small. exact H. Qed.

(** One pass of the loop of [compute] when nothing wraps around. *)
Lemma compute_step_value m lin st off :
  0 < m -> 0 <= lin < 2 ^ 32 -> 0 <= st -> 0 <= off ->
  off + (m - 1) * st < 2 ^ 32 ->
  wrap32 (off + wrap32 (wrap32 (lin - wrap32 (m * (lin / m))) * st)) =
  off + lin mod m * st.
Proof.
  intros Hm Hlin Hst Hoff Hb.
  pose proof (Z.div_mod lin m ltac:(lia)) as D.
  pose proof (Z.mod_pos_bound lin m Hm) as M.
  assert (0 <= lin / m) by (apply Z.div_pos; lia).
  rewrite (wrap32_small (m * (lin / m))) by nia.
  replace (lin - m * (lin / m)) with (lin mod m) by lia.
  rewrite (wrap32_small (lin mod m)) by lia.
  rewrite (wrap32_small (lin mod m * st)) by nia.
  apply wrap32_small. nia.
Qed.

Lemma compute_last_value lin st off :
  0 <= lin -> 0 <= st -> 0 <= off -> off + lin * st < 2 ^ 32 ->
  wrap32 (off + wrap32 (lin * st)) = off + lin * st.
Proof.
  intros Hl Hst Hoff Hb.
  rewrite (wrap32_small (lin * st)) by nia. apply wrap32_small. nia.
Qed.

Lemma eqb_pos_false m : 0 < m -> (m =? 0) = false.
Proof. intros H. apply Z.eqb_neq. lia. Qed.

Lemma compute_1 n0 s0 d c t :
  compute 1 [n0] [s0] d c t = Some (wrap32 (0 + wrap32 (t * s0))).
Proof. reflexivity. Qed.

Lemma compute_2 n0 n1 s0 s1 d c t m1 :
  (if 1 =? c then d else n1) = m1 -> 0 < m1 ->
  compute 2 [n0; n1] [s0; s1] d c t =
  Some (wrap32 (wrap32 (0 + wrap32 (wrap32 (t - wrap32 (m1 * (t / m1))) * s1))
                + wrap32 (t / m1 * s0))).
Proof.
  intros E1 H1. unfold compute, compute_loop.
  change ([n0; n1] !! 1%nat) with (Some n1).
  change ([s0; s1] !! 1%nat) with (Some s1).
  change (Z.of_nat 1) with 1. cbv iota beta. rewrite E1.
  rewrite eqb_pos_false by assumption. reflexivity.
Qed.

Lemma compute_3 n0 n1 n2 s0 s1 s2 d c t m1 m2 :
  (if 2 =? c then d else n2) = m2 -> (if 1 =? c then d else n1) = m1 ->
  0 < m2 -> 0 < m1 ->
  compute 3 [n0; n1; n2] [s0; s1; s2] d c t =
  Some (wrap32
          (wrap32 (wrap32 (0 + wrap32 (wrap32 (t - wrap32 (m2 * (t / m2))) * s2))
                   + wrap32 (wrap32 (t / m2 - wrap32 (m1 * (t / m2 / m1))) * s1))
           + wrap32 (t / m2 / m1 * s0))).
Proof.
  intros E2 E1 H2 H1. unfold compute, compute_loop.
  change ([n0; n1; n2] !! 2%nat) with (Some n2).
  change ([s0; s1; s2] !! 2%nat) with (Some s2).
  change ([n0; n1; n2] !! 1%nat) with (Some n1).
  change ([s0; s1; s2] !! 1%nat) with (Some s1).
  change (Z.of_nat 2) with 2. change (Z.of_nat 1) with 1.
  cbv iota beta. rewrite E2.
  rewrite (eqb_pos_false m2) by assumption. rewrite E1.
  rewrite (eqb_pos_false m1) by assumption. reflexivity.
Qed.

Lemma offset_rev_1 m0 s0 t : offset_of_linear_rev (rev [m0]) (rev [s0]) t = t mod m0 * s0 + 0.
Proof. reflexivity. Qed.
Lemma offset_rev_2 m0 m1 s0 s1 t : offset_of_linear_rev (rev [m0; m1]) (rev [s0; s1]) t = t mod m1 * s1 + (t / m1 mod m0 * s0 + 0).
Proof. reflexivity. Qed.
Lemma offset_rev_3 m0 m1 m2 s0 s1 s2 t : offset_of_linear_rev (rev [m0; m1; m2]) (rev [s0; s1; s2]) t = t mod m2 * s2 + (t / m2 mod m1 * s1 + (t / m2 / m1 mod m0 * s0 + 0)).
Proof. reflexivity. Qed.
Lemma max_offset_rev_3 m0 m1 m2 s0 s1 s2 : max_offset_rev (rev [m0; m1; m2]) (rev [s0; s1; s2]) = (m2 - 1) * s2 + ((m1 - 1) * s1 + ((m0 - 1) * s0 + 0)).
Proof. reflexivity. Qed.

Lemma compute_2_value n0 n1 s0 s1 d c t m0 m1 :
  (if 1 =? c then d else n1) = m1 ->
  0 < m0 -> 0 < m1 -> 0 <= s0 -> 0 <= s1 ->
  (m1 - 1) * s1 + (m0 - 1) * s0 < 2 ^ 32 ->
  0 <= t < m0 * m1 -> t < 2 ^ 32 ->
  compute 2 [n0; n1] [s0; s1] d c t =
  Some (offset_of_linear_rev (rev [m0; m1]) (rev [s0; s1]) t).
Proof.
  intros E1 H0 H1 Hs0 Hs1 Hmax Ht Ht32.
  rewrite (compute_2 n0 n1 s0 s1 d c t m1 E1 H1), offset_rev_2.
  pose proof (Z.div_mod t m1 ltac:(lia)) as D.
  pose proof (Z.mod_pos_bound t m1 H1) as M.
  assert (0 <= t / m1 < m0).
  { split; [apply Z.div_pos; lia|]. apply Z.div_lt_upper_bound; lia. }
  rewrite compute_step_value by nia.
  rewrite compute_last_value by nia.
  rewrite (Z.mod_small (t / m1)) by lia. f_equal. lia.
Qed.

Lemma compute_3_value n0 n1 n2 s0 s1 s2 d c t m0 m1 m2 :
  (if 2 =? c then d else n2) = m2 -> (if 1 =? c then d else n1) = m1 ->
  0 < m0 -> 0 < m1 -> 0 < m2 -> 0 <= s0 -> 0 <= s1 -> 0 <= s2 ->
  (m2 - 1) * s2 + ((m1 - 1) * s1 + (m0 - 1) * s0) < 2 ^ 32 ->
  0 <= t < m0 * (m1 * m2) -> t < 2 ^ 32 ->
  compute 3 [n0; n1; n2] [s0; s1; s2] d c t =
  Some (offset_of_linear_rev (rev [m0; m1; m2]) (rev [s0; s1; s2]) t).
Proof.
  intros E2 E1 H0 H1 H2 Hs0 Hs1 Hs2 Hmax Ht Ht32.
  rewrite (compute_3 n0 n1 n2 s0 s1 s2 d c t m1 m2 E2 E1 H2 H1), offset_rev_3.
  pose proof (Z.div_mod t m2 ltac:(lia)) as D.
  pose proof (Z.mod_pos_bound t m2 H2) as M.
  pose proof (Z.div_mod (t / m2) m1 ltac:(lia)) as D'.
  pose proof (Z.mod_pos_bound (t / m2) m1 H1) as M'.
  assert (0 <= t / m2 < m0 * m1).
  { split; [apply Z.div_pos; lia|]. apply Z.div_lt_upper_bound; lia. }
  assert (0 <= t / m2 / m1 < m0).
  { split; [apply Z.div_pos; lia|]. apply Z.div_lt_upper_bound; lia. }
  assert (t / m2 < 2 ^ 32) by nia.
  rewrite (compute_step_value m2 t) by nia.
  rewrite (compute_step_value m1 (t / m2)) by nia.
  rewrite compute_last_value by nia.
  rewrite (Z.mod_small (t / m2 / m1)) by lia. f_equal. lia.
Qed.

(** The sizes of one input: those of the output with [dimSize] at the
    concat dimension. *)
Definition input_sizes (outputSize : list Z) (concatDim dimSize : Z)
    : list Z :=
  <[Z.to_nat concatDim := dimSize]> outputSize.

(** When no intermediate value exceeds the range of [unsigned int],
    [compute] is the offset of the linear index in the view that has the
    sizes of the input and the strides of the output. *)
Lemma compute_is_offset_of_linear Dims outputSize outputStride
    dimSize concatDim t :
  (1 <= Dims <= 3)%nat ->
  length outputSize = Dims -> length outputStride = Dims ->
  0 <= concatDim < Z.of_nat Dims ->
  Forall (fun n => 0 < n) (input_sizes outputSize concatDim dimSize) ->
  Forall (fun s => 0 <= s) outputStride ->
  max_offset_rev (rev (input_sizes outputSize concatDim dimSize))
    (rev outputStride) < 2 ^ 32 ->
  0 <= t < prod_list (input_sizes outputSize concatDim dimSize) ->
  t < 2 ^ 32 ->
  compute Dims outputSize outputStride dimSize concatDim t =
  Some (offset_of_linear_rev
          (rev (input_sizes outputSize concatDim dimSize))
          (rev outputStride) t).
Proof.
  intros HD Hls Hlst Hc Hm Hs Hmax Ht Ht32.
  unfold input_sizes in *.
  destruct outputSize as [|n0 [|n1 [|n2 [|? ?]]]];
    destruct outputStride as [|s0 [|s1 [|s2 [|? ?]]]];
    cbn [length] in *; try lia; subst Dims; try discriminate.
  - (* one dimension *)
    assert (concatDim = 0) as -> by lia.
    change (<[Z.to_nat 0 := dimSize]> [n0]) with [dimSize] in *.
    rewrite compute_1, offset_rev_1.
    change (prod_list [dimSize]) with (dimSize * 1) in Ht.
    change (max_offset_rev (rev [dimSize]) (rev [s0]))
      with ((dimSize - 1) * s0 + 0) in Hmax.
    inversion Hm as [|? ? Hm0 _]; subst. inversion Hs as [|? ? Hs0 _]; subst.
    rewrite Z.mod_small by lia.
    rewrite compute_last_value by nia. f_equal. lia.
  - (* two dimensions *)
    inversion Hs as [|? ? Hs0 Hs']; subst.
    inversion Hs' as [|? ? Hs1 _]; subst.
    assert (concatDim = 0 \/ concatDim = 1) as [-> | ->] by lia.
    + change (<[Z.to_nat 0 := dimSize]> [n0; n1]) with [dimSize; n1] in *.
      inversion Hm as [|? ? Hm0 Hm']; subst.
      inversion Hm' as [|? ? Hm1 _]; subst.
      change (prod_list [dimSize; n1]) with (dimSize * (n1 * 1)) in Ht.
      change (max_offset_rev (rev [dimSize; n1]) (rev [s0; s1]))
        with ((n1 - 1) * s1 + ((dimSize - 1) * s0 + 0)) in Hmax.
      apply compute_2_value; try assumption; try reflexivity; lia.
    + change (<[Z.to_nat 1 := dimSize]> [n0; n1]) with [n0; dimSize] in *.
      inversion Hm as [|? ? Hm0 Hm']; subst.
      inversion Hm' as [|? ? Hm1 _]; subst.
      change (prod_list [n0; dimSize]) with (n0 * (dimSize * 1)) in Ht.
      change (max_offset_rev (rev [n0; dimSize]) (rev [s0; s1]))
        with ((dimSize - 1) * s1 + ((n0 - 1) * s0 + 0)) in Hmax.
      apply compute_2_value; try assumption; try reflexivity; lia.
  - (* three dimensions *)
    inversion Hs as [|? ? Hs0 Hs']; subst.
    inversion Hs' as [|? ? Hs1 Hs'']; subst.
    inversion Hs'' as [|? ? Hs2 _]; subst.
    assert (concatDim = 0 \/ concatDim = 1 \/ concatDim = 2)
      as [-> | [-> | ->]] by lia.
    + change (<[Z.to_nat 0 := dimSize]> [n0; n1; n2])
        with [dimSize; n1; n2] in *.
      inversion Hm as [|? ? Hm0 Hm']; subst.
      inversion Hm' as [|? ? Hm1 Hm'']; subst.
      inversion Hm'' as [|? ? Hm2 _]; subst.
      change (prod_list [dimSize; n1; n2])
        with (dimSize * (n1 * (n2 * 1))) in Ht.
      rewrite max_offset_rev_3 in Hmax.
      apply compute_3_value; try assumption; try reflexivity; lia.
    + change (<[Z.to_nat 1 := dimSize]> [n0; n1; n2])
        with [n0; dimSize; n2] in *.
      inversion Hm as [|? ? Hm0 Hm']; subst.
      inversion Hm' as [|? ? Hm1 Hm'']; subst.
      inversion Hm'' as [|? ? Hm2 _]; subst.
      change (prod_list [n0; dimSize; n2])
        with (n0 * (dimSize * (n2 * 1))) in Ht.
      rewrite max_offset_rev_3 in Hmax.
      apply compute_3_value; try assumption; try reflexivity; lia.
    + change (<[Z.to_nat 2 := dimSize]> [n0; n1; n2])
        with [n0; n1; dimSize] in *.
      inversion Hm as [|? ? Hm0 Hm']; subst.
      inversion Hm' as [|? ? Hm1 Hm'']; subst.
      inversion Hm'' as [|? ? Hm2 _]; subst.
      change (prod_list [n0; n1; dimSize])
        with (n0 * (n1 * (dimSize * 1))) in Ht.
      rewrite max_offset_rev_3 in Hmax.
      apply compute_3_value; try assumption; try reflexivity; lia.
Qed.

(** In a non-overlapping layout the largest offset is at least the
    innermost stride times the number of elements but one. *)
Lemma max_offset_rev_lower rs :
  forall rst st0,
    nested_rev rs rst -> head rst = Some st0 -> 0 <= st0 ->
    st0 * (prod_list rs - 1) <= max_offset_rev rs rst.
Proof.
  induction rs as [|n rs IH]; intros [|st rst] st0; cbn [nested_rev];
    try tauto; try (intros _ [=]; fail).
  intros (Hn & Hst & Hnest) [= ->] H0.
  rewrite prod_list_cons. cbn [max_offset_rev].
  destruct rs as [|n' rs'], rst as [|st' rst']; cbn [nested_rev] in Hnest;
    try tauto.
  - change (prod_list []) with 1. cbn [max_offset_rev]. nia.
  - pose proof (IH (st' :: rst') st' Hnest eq_refl ltac:(nia)) as Hi.
    pose proof (nested_rev_pos (n' :: rs') (st' :: rst') Hnest) as Hp. nia.
Qed.

(** The allocated extent of a view: one more than its largest offset. *)
Definition extent (sizes strides : list Z) : Z :=
  1 + max_offset_rev (rev sizes) (rev strides).

(** A layout whose dimensions are stored from the outermost to the
    innermost without overlap; the dense layout produced by resizing the
    output is the instance with the smallest strides. *)
Definition row_major (sizes strides : list Z) : Prop :=
  nested_rev (rev sizes) (rev strides) /\
  exists st, head (rev strides) = Some st /\ 0 < st.

(** The slice of one input inside the output: the view with the sizes of
    the input is again non-overlapping, and shifted by [off] along the
    concat dimension it stays within the extent of the output. *)
Lemma input_view_in_output Dims outputSize outputStride dimSize concatDim
    off nc sc :
  (1 <= Dims <= 3)%nat ->
  length outputSize = Dims -> length outputStride = Dims ->
  row_major outputSize outputStride ->
  0 <= concatDim < Z.of_nat Dims ->
  outputSize !! Z.to_nat concatDim = Some nc ->
  outputStride !! Z.to_nat concatDim = Some sc ->
  0 < dimSize -> 0 <= off -> off + dimSize <= nc ->
  row_major (input_sizes outputSize concatDim dimSize) outputStride /\
  Forall (fun n => 0 < n) (input_sizes outputSize concatDim dimSize) /\
  Forall (fun s => 0 <= s) outputStride /\
  0 <= sc /\
  off * sc +
  max_offset_rev (rev (input_sizes outputSize concatDim dimSize))
    (rev outputStride)
  <= max_offset_rev (rev outputSize) (rev outputStride).
Proof.
  intros HD Hls Hlst [Hnest (st & Hst & Hpos)] Hc Hnc Hsc Hd Hoff Hfit.
  unfold row_major, input_sizes.
  destruct outputSize as [|n0 [|n1 [|n2 [|? ?]]]];
    destruct outputStride as [|s0 [|s1 [|s2 [|? ?]]]];
    cbn [length] in *; try lia; subst Dims; try discriminate.
  - assert (concatDim = 0) as -> by lia.
    change (<[Z.to_nat 0 := dimSize]> [n0]) with [dimSize].
    simpl in Hnc, Hsc, Hnest, Hst |- *.
    injection Hnc as ->. injection Hsc as ->. injection Hst as ->.
    destruct_and!.
    repeat split; try lia; eauto; repeat constructor; try lia.
    nia.
  - assert (concatDim = 0 \/ concatDim = 1) as [-> | ->] by lia;
      [change (<[Z.to_nat 0 := dimSize]> [n0; n1]) with [dimSize; n1]
      |change (<[Z.to_nat 1 := dimSize]> [n0; n1]) with [n0; dimSize]];
      simpl in Hnc, Hsc, Hnest, Hst |- *;
      injection Hnc as ->; injection Hsc as ->; injection Hst as ->;
      destruct_and!;
      (repeat split; try lia; try nia; eauto; repeat constructor;
       try lia; try nia);
      try (assert (0 <= sc) by nia; nia).
  - assert (concatDim = 0 \/ concatDim = 1 \/ concatDim = 2)
      as [-> | [-> | ->]] by lia;
      [change (<[Z.to_nat 0 := dimSize]> [n0; n1; n2])
         with [dimSize; n1; n2]
      |change (<[Z.to_nat 1 := dimSize]> [n0; n1; n2])
         with [n0; dimSize; n2]
      |change (<[Z.to_nat 2 := dimSize]> [n0; n1; n2])
         with [n0; n1; dimSize]];
      simpl in Hnc, Hsc, Hnest, Hst |- *;
      injection Hnc as ->; injection Hsc as ->; injection Hst as ->;
      destruct_and!;
      (repeat split; try lia; try nia; eauto; repeat constructor;
       try lia; try nia);
      try (assert (0 <= sc) by nia; nia).
Qed.

(** The claim of injectivity for arbitrary descriptors fails on a view
    with a zero stride (the shape of an expanded tensor): the linear
    indices 0 and 2 of an input with four elements receive the same
    offset. *)
Lemma compute_not_injective_for_overlapping_strides :
  ~ (forall t t', 0 <= t < 4 -> 0 <= t' < 4 ->
       compute 2 [2; 2] [0; 1] 2 0 t = compute 2 [2; 2] [0; 1] 2 0 t' ->
       t = t').
Proof.
  intros H. specialize (H 0 2 ltac:(lia) ltac:(lia) eq_refl). discriminate H.
Qed.

(** C3 (amended). For an output descriptor of rank 1, 2 or 3 whose
    dimensions do not overlap in row-major order and whose extent fits
    the 32-bit index, a concat dimension below the rank, and an input of
    size [dimSize > 0] along the concat dimension placed at [off] with
    [off + dimSize] within the output: on the linear indices below the
    element count of the input, [compute] is defined and injective, and
    every offset, after adding [off] times the stride of the concat
    dimension (an addition that does not wrap around), lies within the
    extent of the output. *)
Theorem compute_injective_within_extent
    Dims outputSize outputStride dimSize concatDim off nc sc :
  (1 <= Dims <= 3)%nat ->
  length outputSize = Dims -> length outputStride = Dims ->
  row_major outputSize outputStride ->
  extent outputSize outputStride <= 2 ^ 32 ->
  0 <= concatDim < Z.of_nat Dims ->
  outputSize !! Z.to_nat concatDim = Some nc ->
  outputStride !! Z.to_nat concatDim = Some sc ->
  0 < dimSize -> 0 <= off -> off + dimSize <= nc ->
  (forall t, 0 <= t < prod_list (input_sizes outputSize concatDim dimSize) ->
     exists e,
       compute Dims outputSize outputStride dimSize concatDim t = Some e /\
       0 <= off * sc + e < extent outputSize outputStride /\
       wrap32 (wrap32 (off * sc) + e) = off * sc + e) /\
  (forall t t',
     0 <= t < prod_list (input_sizes outputSize concatDim dimSize) ->
     0 <= t' < prod_list (input_sizes outputSize concatDim dimSize) ->
     compute Dims outputSize outputStride dimSize concatDim t =
     compute Dims outputSize outputStride dimSize concatDim t' ->
     t = t').
Proof.
  intros HD Hls Hlst Hrm Hext Hc Hnc Hsc Hd Hoff Hfit.
  destruct (input_view_in_output Dims outputSize outputStride dimSize
              concatDim off nc sc HD Hls Hlst Hrm Hc Hnc Hsc Hd Hoff Hfit)
    as ([Hnest (st & Hst & Hpos)] & Hm & Hs & Hsc0 & Hmax).
  unfold extent in *.
  set (m := input_sizes outputSize concatDim dimSize) in *.
  assert (Hmb : forall lin,
            0 <= offset_of_linear_rev (rev m) (rev outputStride) lin
            <= max_offset_rev (rev m) (rev outputStride)).
  { intros lin. apply offset_of_linear_rev_bounds.
    - apply Forall_rev; exact Hm.
    - apply Forall_rev; exact Hs. }
  assert (Hosc : 0 <= off * sc) by nia.
  assert (Hprod : prod_list m <= 2 ^ 32).
  { pose proof (max_offset_rev_lower (rev m) (rev outputStride) st Hnest Hst
                  ltac:(lia)) as Hl.
    rewrite prod_list_rev in Hl.
    pose proof (nested_rev_pos _ _ Hnest) as Hp.
    rewrite prod_list_rev in Hp.
    assert (prod_list m - 1 <= st * (prod_list m - 1)) by nia.
    pose proof (Hmb 0). lia. }
  assert (Hcomp : forall t, 0 <= t < prod_list m ->
            compute Dims outputSize outputStride dimSize concatDim t =
            Some (offset_of_linear_rev (rev m) (rev outputStride) t)).
  { intros t Ht. apply compute_is_offset_of_linear; try assumption;
      fold m; lia. }
  split.
  - intros t Ht. eexists. split; [apply Hcomp; exact Ht|].
    pose proof (Hmb t) as Hb.
    split; [lia|].
    rewrite (wrap32_small (off * sc)) by lia.
    apply wrap32_small. lia.
  - intros t t' Ht Ht' E. rewrite !Hcomp in E by assumption.
    injection E as E.
    apply (offset_of_linear_rev_injective (rev m) (rev outputStride) st);
      try assumption; rewrite prod_list_rev; assumption.
Qed.

Lemma compute_injective_within_extent_witness :
  (forall t, 0 <= t < prod_list (input_sizes [3; 3] 0 1) ->
     exists e,
       compute 2 [3; 3] [3; 1] 1 0 t = Some e /\
       0 <= 2 * 3 + e < extent [3; 3] [3; 1] /\
       wrap32 (wrap32 (2 * 3) + e) = 2 * 3 + e) /\
  (forall t t',
     0 <= t < prod_list (input_sizes [3; 3] 0 1) ->
     0 <= t' < prod_list (input_sizes [3; 3] 0 1) ->
     compute 2 [3; 3] [3; 1] 1 0 t = compute 2 [3; 3] [3; 1] 1 0 t' ->
     t = t').
Proof.
  apply (compute_injective_within_extent 2 [3; 3] [3; 1] 1 0 2 3 3).
  - lia.
  - reflexivity.
  - reflexivity.
  - split; [cbn; lia|]. exists 1. split; [reflexivity|lia].
  - vm_compute. discriminate.
  - lia.
  - reflexivity.
  - reflexivity.
  - lia.
  - lia.
  - lia.
Defined.

(** * The fast path against the fallback *)

(** ** Sequences of work items *)

Section RunItemsFacts.

Context {T I : Type}.
Implicit Types (h : gmap nat (list T)) (l : list I).

Lemma run_items_app (f : gmap nat (list T) -> I -> option (gmap nat (list T)))
    h l1 l2 :
  run_items f h (l1 ++ l2) =
  match run_items f h l1 with
  | Some h' => run_items f h' l2
  | None => None
  end.
Proof.
  revert h. induction l1 as [|x l1 IH]; intros h; [reflexivity|].
  cbn [app run_items]. destruct (f h x); [apply IH|reflexivity].
Qed.

Lemma run_items_ext (f g : gmap nat (list T) -> I -> option (gmap nat (list T)))
    h l :
  (forall h' x, x ∈ l -> f h' x = g h' x) ->
  run_items f h l = run_items g h l.
Proof.
  revert h. induction l as [|x l IH]; intros h Hfg; [reflexivity|].
  cbn [run_items]. rewrite (Hfg h x) by left.
  destruct (g h x); [|reflexivity].
  apply IH. intros h' y Hy. apply Hfg. right. exact Hy.
Qed.

Lemma run_items_skip (f : gmap nat (list T) -> I -> option (gmap nat (list T)))
    h l :
  (forall h' x, x ∈ l -> f h' x = Some h') ->
  run_items f h l = Some h.
Proof.
  revert h. induction l as [|x l IH]; intros h Hf; [reflexivity|].
  cbn [run_items]. rewrite (Hf h x) by left.
  apply IH. intros h' y Hy. apply Hf. right. exact Hy.
Qed.

Lemma run_items_bind {J : Type}
    (f : gmap nat (list T) -> I -> option (gmap nat (list T)))
    (k : J -> list I) h (js : list J) :
  run_items f h (js ≫= k) =
  run_items (fun h' j => run_items f h' (k j)) h js.
Proof.
  revert h. induction js as [|j js IH]; intros h; [reflexivity|].
  cbn [run_items]. rewrite bind_cons, run_items_app.
  destruct (run_items f h (k j)); [apply IH|reflexivity].
Qed.

End RunItemsFacts.

(** ** Copies as sets of writes *)

Section Writes.

Context {T I : Type}.
Implicit Types (h : gmap nat (list T)).

(** The source pointer and index, the destination index and the
    conversion of the copied element. *)
Variables (psrc pdst : pointer) (fs fd : I -> Z) (g : T -> T).

Definition copy_one h (x : I) : option (gmap nat (list T)) :=
  match load h psrc (fs x) with
  | Some v => store h pdst (fd x) (g v)
  | None => None
  end.

(** [h'] is [h] with the elements of the source at the indices of [l]
    written to their destinations, and nothing else changed. *)
Definition written_by (l : list I) h h' : Prop :=
  (forall p i, ptr_storage p <> ptr_storage pdst -> load h' p i = load h p i) /\
  (forall s, s <> ptr_storage pdst -> h' !! s = h !! s) /\
  (is_Some (h' !! ptr_storage pdst) <-> is_Some (h !! ptr_storage pdst)) /\
  (forall i, is_Some (load h' pdst i) <-> is_Some (load h pdst i)) /\
  (forall x, x ∈ l ->
     exists v, load h psrc (fs x) = Some v /\
               load h' pdst (fd x) = Some (g v)) /\
  (forall i, (forall x, x ∈ l -> fd x <> i) ->
     load h' pdst i = load h pdst i).

Hypothesis Hsep : ptr_storage psrc <> ptr_storage pdst.

Lemma copy_one_Some h x v :
  load h psrc (fs x) = Some v -> is_Some (load h pdst (fd x)) ->
  exists h', copy_one h x = Some h' /\
    (forall p i, ptr_storage p <> ptr_storage pdst ->
       load h' p i = load h p i) /\
    (forall s, s <> ptr_storage pdst -> h' !! s = h !! s) /\
    (is_Some (h' !! ptr_storage pdst) <-> is_Some (h !! ptr_storage pdst)) /\
    (forall i, is_Some (load h' pdst i) <-> is_Some (load h pdst i)) /\
    load h' pdst (fd x) = Some (g v) /\
    (forall i, i <> fd x -> load h' pdst i = load h pdst i).
Proof.
  intros Hl Hd. unfold copy_one. rewrite Hl.
  destruct (store_is_Some h pdst (fd x) (g v) Hd) as [h' Hst].
  exists h'. split; [exact Hst|]. repeat split.
  - intros p i Hp. apply (load_store_ne _ _ _ _ _ p i Hst). left. exact Hp.
  - intros s Hs. apply (store_other_storage _ _ _ _ _ s Hst Hs).
  - intros _. apply store_Some in Hst as (buf & Hb & _). rewrite Hb. eauto.
  - intros _. apply store_Some in Hst as (buf & _ & _ & ->).
    rewrite lookup_insert_eq. eauto.
  - intros Hs. destruct (decide (i = fd x)) as [->|Hne].
    + eapply store_load_is_Some; eauto.
    + rewrite <- (load_store_ne _ _ _ _ _ pdst i Hst) by (right; lia).
      exact Hs.
  - intros Hs. eapply load_is_Some_store; eauto.
  - eapply load_store_eq; eauto.
  - intros i Hi. apply (load_store_ne _ _ _ _ _ pdst i Hst). right. lia.
Qed.

(** Copying the elements of [l] in order, when every access is within
    its buffer and equal destinations receive equal values. *)
Lemma run_copy_written (l : list I) :
  forall h,
    (forall x, x ∈ l -> is_Some (load h psrc (fs x)) /\
                        is_Some (load h pdst (fd x))) ->
    (forall x y, x ∈ l -> y ∈ l -> fd x = fd y ->
                 load h psrc (fs x) = load h psrc (fs y)) ->
    exists h', run_items copy_one h l = Some h' /\ written_by l h h'.
Proof.
  induction l as [|x l IH]; intros h Hok Hcons.
  - exists h. split; [reflexivity|]. repeat split; auto.
    intros x Hx. inversion Hx.
  - destruct (Hok x ltac:(left)) as [[v Hv] Hd].
    destruct (copy_one_Some h x v Hv Hd)
      as (h1 & Hc & Hframe & Hstor & Hpres & Hsome & Hnew & Hold).
    destruct (IH h1) as (h' & Hrun & Hw1 & Hw2 & Hw2' & Hw3 & Hw4 & Hw5).
    { intros y Hy. destruct (Hok y ltac:(right; exact Hy)) as [Hy1 Hy2].
      split; [rewrite Hframe by exact Hsep; exact Hy1|].
      apply Hsome. exact Hy2. }
    { intros y z Hy Hz E. rewrite !Hframe by exact Hsep.
      apply Hcons; [right; exact Hy|right; exact Hz|exact E]. }
    exists h'. split; [cbn [run_items]; rewrite Hc; exact Hrun|].
    repeat split.
    + intros p i Hp. rewrite Hw1, Hframe by exact Hp. reflexivity.
    + intros s Hs. rewrite Hw2, Hstor by exact Hs. reflexivity.
    + intros Hs. apply Hpres, Hw2', Hs.
    + intros Hs. apply Hw2', Hpres, Hs.
    + intros Hs. apply Hsome, Hw3, Hs.
    + intros Hs. apply Hw3, Hsome, Hs.
    + intros y Hy. apply elem_of_cons in Hy as [->|Hy].
      * exists v. split; [exact Hv|].
        destruct (decide (Exists (fun z => fd z = fd x) l)) as [He|Hn].
        -- apply Exists_exists in He as (z & Hz & Ez).
           destruct (Hw4 z Hz) as (vz & Hvz & Hlz).
           rewrite Hframe in Hvz by exact Hsep.
           rewrite (Hcons z x ltac:(right; exact Hz) ltac:(left) Ez), Hv
             in Hvz. injection Hvz as <-.
           rewrite <- Ez. exact Hlz.
        -- rewrite Hw5; [exact Hnew|].
           intros z Hz Ez. apply Hn, Exists_exists. eauto.
      * destruct (Hw4 y Hy) as (vy & Hvy & Hly).
        rewrite Hframe in Hvy by exact Hsep. eauto.
    + intros i Hi. rewrite Hw5.
      * apply Hold. intros ->. apply (Hi x ltac:(left)). reflexivity.
      * intros y Hy. apply Hi. right. exact Hy.
Qed.

(** Two copies of the same set of elements end in the same memory. *)
Lemma written_by_unique (l1 l2 : list I) h h1 h2 :
  written_by l1 h h1 -> written_by l2 h h2 ->
  (forall x, x ∈ l1 <-> x ∈ l2) ->
  h1 = h2.
Proof.
  intros (_ & Ha2 & Ha2' & _ & Ha4 & Ha5) (_ & Hb2 & Hb2' & _ & Hb4 & Hb5) Hl.
  assert (Hload : forall i, load h1 pdst i = load h2 pdst i).
  { intros i.
    destruct (decide (Exists (fun x => fd x = i) l1)) as [He|Hn].
    - apply Exists_exists in He as (x & Hx & <-).
      destruct (Ha4 x Hx) as (v & Hv & ->).
      destruct (Hb4 x (proj1 (Hl x) Hx)) as (v' & Hv' & ->). congruence.
    - rewrite Ha5, Hb5; [reflexivity| |].
      + intros x Hx E. apply Hn, Exists_exists. exists x.
        split; [apply Hl; exact Hx|exact E].
      + intros x Hx E. apply Hn, Exists_exists. eauto. }
  apply map_eq. intros s.
  destruct (decide (s = ptr_storage pdst)) as [->|Hne];
    [|rewrite Ha2, Hb2 by exact Hne; reflexivity].
  destruct (h !! ptr_storage pdst) as [b|] eqn:Hb.
  - destruct (proj2 Ha2' ltac:(eauto)) as [b1 E1].
    destruct (proj2 Hb2' ltac:(eauto)) as [b2 E2].
    rewrite E1, E2. f_equal. apply list_eq. intros q.
    specialize (Hload (Z.of_nat q - ptr_offset pdst)).
    unfold load in Hload. rewrite E1, E2 in Hload.
    replace (ptr_offset pdst + (Z.of_nat q - ptr_offset pdst))
      with (Z.of_nat q) in Hload by lia.
    rewrite (proj2 (Z.leb_le 0 (Z.of_nat q))) in Hload by lia.
    rewrite Nat2Z.id in Hload. exact Hload.
  - destruct (h1 !! ptr_storage pdst) eqn:E1;
      [destruct (proj1 Ha2' ltac:(eauto)) as [? [=]]|].
    destruct (h2 !! ptr_storage pdst) eqn:E2;
      [destruct (proj1 Hb2' ltac:(eauto)) as [? [=]]|].
    reflexivity.
Qed.

End Writes.

(** ** The grid-stride loop *)

(** The indices visited by the grid-stride loop that starts at [tid]. *)
Fixpoint strided (fuel : nat) (N S tid : Z) : list Z :=
  match fuel with
  | O => []
  | Datatypes.S fuel' =>
      if tid <? N then tid :: strided fuel' N S (tid + S) else []
  end.

Lemma grid_stride_loop_run {T : Type}
    (body : gmap nat (list T) -> Z -> option (gmap nat (list T))) N S :
  0 < S -> N + S <= 2 ^ 32 ->
  forall fuel h tid,
    0 <= tid -> (0 < fuel)%nat -> N - tid < Z.of_nat fuel ->
    grid_stride_loop fuel body N S h tid =
    run_items body h (strided fuel N S tid).
Proof.
  intros HS Hb. induction fuel as [|fuel IH]; intros h tid Ht Hf Hfuel;
    [lia|].
  cbn [grid_stride_loop strided].
  destruct (tid <? N) eqn:E; [|reflexivity].
  apply Z.ltb_lt in E. cbn [run_items].
  destruct (body h tid) as [h'|]; [|reflexivity].
  rewrite wrap32_small by lia.
  apply IH; lia.
Qed.

Lemma elem_of_strided N S :
  0 < S ->
  forall fuel tid x,
    N - tid < Z.of_nat fuel ->
    x ∈ strided fuel N S tid <->
    tid <= x < N /\ exists k, 0 <= k /\ x = tid + k * S.
Proof.
  intros HS. induction fuel as [|fuel IH]; intros tid x Hfuel.
  - cbn. split; [intros H; inversion H|]. intros [H _]. lia.
  - cbn [strided]. destruct (tid <? N) eqn:E.
    + apply Z.ltb_lt in E. rewrite elem_of_cons, IH by lia. split.
      * intros [->|[Hr (k & Hk & ->)]].
        -- split; [lia|]. exists 0. lia.
        -- split; [nia|]. exists (k + 1). split; lia.
      * intros [Hr (k & Hk & ->)].
        destruct (Z.eq_dec k 0) as [->|Hk0]; [left; lia|].
        right. split; [nia|]. exists (k - 1). split; lia.
    + apply Z.ltb_ge in E. split; [intros H; inversion H|].
      intros [H _]. lia.
Qed.

(** ** The launch as a sequence of copies, one input after the other *)

Lemma run_items_singleton {T I : Type}
    (f : gmap nat (list T) -> I -> option (gmap nat (list T))) h x :
  run_items f h [x] = f h x.
Proof. cbn. destruct (f h x); reflexivity. Qed.

Section KernelStructure.

Context {T : Type}.
Variables (Dims : nat) (output : pointer) (os : OutputTensorSizeStride).
Variables (concatDim dimStride G W : Z).

(** All the work items of one input. *)
Definition copy_input (meta : CatArrInputTensor) (h : gmap nat (list T))
    : option (gmap nat (list T)) :=
  run_items
    (fun h' (p : Z * Z) =>
       work_item_copy Dims output os concatDim dimStride G W meta h'
         p.1 p.2)
    h (wg ← seqZ 0 G; wi ← seqZ 0 W; [(wg, wi)]).

Lemma kernel_by_input_from (metas : list CatArrInputTensor) :
  forall (pre : list CatArrInputTensor) (h : gmap nat (list T)),
    run_items
      (fun h' inb =>
         run_items
           (batched_copy_item Dims output (pre ++ metas) os concatDim
              dimStride G W) h'
           (wg ← seqZ 0 G; wi ← seqZ 0 W; [(inb, wg, wi)]))
      h (seqZ (Z.of_nat (length pre)) (Z.of_nat (length metas))) =
    run_items (fun h' m => copy_input m h') h metas.
Proof.
  induction metas as [|m metas IH]; intros pre h; [reflexivity|].
  rewrite (seqZ_cons (Z.of_nat (length pre))) by (simpl length; lia).
  cbn [run_items].
  assert (Hfirst :
    run_items
      (batched_copy_item Dims output (pre ++ m :: metas) os concatDim
         dimStride G W) h
      (wg ← seqZ 0 G; wi ← seqZ 0 W; [(Z.of_nat (length pre), wg, wi)]) =
    copy_input m h).
  { unfold copy_input. rewrite !run_items_bind.
    apply run_items_ext. intros h1 wg _.
    rewrite !run_items_bind.
    apply run_items_ext. intros h2 wi _.
    rewrite !run_items_singleton. cbn [batched_copy_item fst snd].
    rewrite Nat2Z.id, lookup_app_r by lia.
    rewrite Nat.sub_diag. reflexivity. }
  rewrite Hfirst. destruct (copy_input m h) as [h1|]; [|reflexivity].
  replace (Z.succ (Z.of_nat (length pre)))
    with (Z.of_nat (length (pre ++ [m])))
    by (rewrite length_app; simpl length; lia).
  replace (Z.pred (Z.of_nat (length (m :: metas))))
    with (Z.of_nat (length metas)) by (simpl length; lia).
  rewrite <- (IH (pre ++ [m]) h1).
  rewrite <- app_assoc. reflexivity.
Qed.

Lemma kernel_by_input (metas : list CatArrInputTensor)
    (h : gmap nat (list T)) :
  run_items
    (batched_copy_item Dims output metas os concatDim dimStride G W) h
    (work_items G W (Z.of_nat (length metas))) =
  run_items (fun h' m => copy_input m h') h metas.
Proof.
  unfold work_items. rewrite run_items_bind.
  apply (kernel_by_input_from metas [] h).
Qed.

(** The linear indices copied for one input of [N] elements. *)
Definition visited (N : Z) : list Z :=
  wg ← seqZ 0 G; wi ← seqZ 0 W;
  strided (S (Z.to_nat N)) N (G * W) (wg * W + wi).

Hypothesis HW : 0 < W.
Hypothesis HG : 0 < G.

Lemma copy_input_run (meta : CatArrInputTensor) (h : gmap nat (list T)) :
  0 <= nElements meta -> nElements meta + G * W <= 2 ^ 32 ->
  copy_input meta h =
  run_items
    (copy_element Dims output (input meta) os (dimSize meta) concatDim
       (wrap32 (offset meta * dimStride)))
    h (visited (nElements meta)).
Proof.
  intros HN Hb. unfold copy_input, visited. rewrite !run_items_bind.
  apply run_items_ext. intros h1 wg Hwg. apply elem_of_seqZ in Hwg.
  rewrite !run_items_bind.
  apply run_items_ext. intros h2 wi Hwi. apply elem_of_seqZ in Hwi.
  rewrite run_items_singleton. cbn [fst snd]. unfold work_item_copy.
  assert (0 <= wg * W + wi < G * W) by nia.
  rewrite (wrap32_small (wg * W + wi)) by lia.
  destruct (nElements meta <=? wg * W + wi) eqn:E.
  - apply Z.leb_le in E. cbn [strided].
    rewrite (proj2 (Z.ltb_ge _ _)) by lia. reflexivity.
  - apply Z.leb_gt in E.
    rewrite (wrap32_small (G * W)) by nia.
    apply grid_stride_loop_run; lia.
Qed.

Lemma elem_of_visited N t : 0 <= N -> t ∈ visited N <-> 0 <= t < N.
Proof.
  intros HN. unfold visited. rewrite list_elem_of_bind. split.
  - intros (wg & Ht & Hwg). apply elem_of_seqZ in Hwg.
    apply list_elem_of_bind in Ht as (wi & Ht & Hwi).
    apply elem_of_seqZ in Hwi.
    apply elem_of_strided in Ht; [|nia|lia]. nia.
  - intros Ht.
    pose proof (Z.div_mod t (G * W) ltac:(nia)) as D.
    pose proof (Z.mod_pos_bound t (G * W) ltac:(nia)) as M.
    set (r := t mod (G * W)) in *.
    pose proof (Z.div_mod r W ltac:(lia)) as D'.
    pose proof (Z.mod_pos_bound r W HW) as M'.
    assert (Hq : 0 <= t / (G * W)) by (apply Z.div_pos; nia).
    assert (Hqq : 0 <= G * W * (t / (G * W))) by nia.
    exists (r / W). split.
    + apply list_elem_of_bind. exists (r mod W). split.
      * apply elem_of_strided; [nia|lia|].
        split; [lia|]. exists (t / (G * W)). split; [exact Hq|lia].
      * apply elem_of_seqZ. lia.
    + apply elem_of_seqZ. split; [apply Z.div_pos; lia|].
      apply Z.div_lt_upper_bound; lia.
Qed.

End KernelStructure.

(** ** Pointers into the same storage *)

Lemma load_ptr_shift {T : Type} (h : gmap nat (list T)) s o a i :
  load h (mkPointer s (o + a)) i = load h (mkPointer s o) (a + i).
Proof.
  unfold load. cbn [ptr_storage ptr_offset].
  replace (o + a + i) with (o + (a + i)) by lia. reflexivity.
Qed.

Lemma store_ptr_shift {T : Type} (h : gmap nat (list T)) s o a i v :
  store h (mkPointer s (o + a)) i v = store h (mkPointer s o) (a + i) v.
Proof.
  unfold store. cbn [ptr_storage ptr_offset].
  replace (o + a + i) with (o + (a + i)) by lia. reflexivity.
Qed.

(** ** Dense outputs *)

Lemma prod_list_pos_all l :
  Forall (fun n => 0 <= n) l -> 0 < prod_list l -> Forall (fun n => 0 < n) l.
Proof.
  induction 1 as [|n l Hn Hl IH]; [constructor|].
  rewrite prod_list_cons. intros Hp.
  pose proof (prod_list_nonneg l Hl) as Hpl.
  assert (0 < n) by nia. assert (0 < prod_list l) by nia.
  constructor; auto.
Qed.

(** The dense layout of positive sizes is non-overlapping, its extent is
    the number of elements, and no stride exceeds it. *)
Lemma contiguous_layout (n : list Z) :
  (1 <= length n <= 3)%nat -> Forall (fun x => 0 < x) n ->
  row_major n (contiguous_strides n) /\
  extent n (contiguous_strides n) = prod_list n /\
  Forall (fun s => 0 <= s <= prod_list n) (contiguous_strides n) /\
  Forall (fun x => 0 <= x <= prod_list n) n.
Proof.
  intros Hlen Hpos. unfold row_major, extent.
  destruct n as [|n0 [|n1 [|n2 [|? ?]]]]; cbn [length] in Hlen; try lia.
  - inversion Hpos as [|? ? H0 _]; subst.
    simpl.
    split; [split; [lia|exists 1; split; [reflexivity|lia]]|].
    repeat split; try lia; repeat constructor; lia.
  - inversion Hpos as [|? ? H0 Hp']; subst.
    inversion Hp' as [|? ? H1 _]; subst.
    simpl. rewrite !Z.max_r by lia.
    split; [split; [lia|exists 1; split; [reflexivity|lia]]|].
    repeat split; try lia; try nia; repeat constructor; nia.
  - inversion Hpos as [|? ? H0 Hp']; subst.
    inversion Hp' as [|? ? H1 Hp'']; subst.
    inversion Hp'' as [|? ? H2 _]; subst.
    simpl. rewrite !Z.max_r by lia.
    assert (0 < n1 * n2) by nia.
    split; [split; [nia|exists 1; split; [reflexivity|lia]]|].
    repeat split; try lia; try nia; repeat constructor; nia.
Qed.

Lemma fmap_wrap32_id (l : list Z) bound :
  bound < 2 ^ 32 -> Forall (fun x => 0 <= x <= bound) l -> wrap32 <$> l = l.
Proof.
  intros Hb. induction 1 as [|x l Hx _ IH]; [reflexivity|].
  rewrite fmap_cons, IH, wrap32_small by lia. reflexivity.
Qed.

Lemma Forall_lookup_Z {P : Z -> Prop} (l : list Z) i x :
  Forall P l -> l !! i = Some x -> P x.
Proof. intros H Hl. eapply Forall_lookup_1; eauto. Qed.

Lemma length_contiguous_strides sz :
  length (contiguous_strides sz) = length sz.
Proof. induction sz as [|x sz IH]; [reflexivity|]. cbn. rewrite IH. reflexivity. Qed.

Lemma stride_in_range (t : Tensor) d :
  0 <= d < dim t -> stride t d = strides_of t !! Z.to_nat d.
Proof.
  intros Hd. unfold stride.
  rewrite (proj2 (Z.leb_le _ _)) by lia.
  rewrite (proj2 (Z.ltb_lt _ _)) by lia. reflexivity.
Qed.

(** ** One input: the work items of the kernel against [copy_] *)

Section PerInput.

Context {T : Type}.
Variable cast : ScalarType -> ScalarType -> T -> T.
Hypothesis cast_same : forall s x, cast s s x = x.

Variables (G W : Z).
Hypothesis HW : 0 < W.
Hypothesis HG : 0 < G.

(** The output after the resize, and the concat dimension. *)
Variable o : TensorImpl.
Variable c : Z.
Hypothesis HD : (1 <= length (sizes o) <= 3)%nat.
Hypothesis Hnn : Forall (fun n => 0 <= n) (sizes o).
Hypothesis Hstr : strides o = contiguous_strides (sizes o).
Hypothesis Hc : 0 <= c < Z.of_nat (length (sizes o)).
Hypothesis Hfit : numel (Some o) + G * W <= 2 ^ 32.

(** What [parallel_cat] passes to the kernel. *)
Definition out_param : OutputTensorSizeStride :=
  {| outputSize := wrap32 <$> sizes o; outputStride := wrap32 <$> strides o |}.

Definition input_meta (i : TensorImpl) (off d : Z) : CatArrInputTensor :=
  {| input := data_ptr i; offset := wrap32 off; dimSize := wrap32 d;
     nElements := wrap32 (numel (Some i)) |}.

(** An input that passed the checks of the fast path: it has the sizes of
    the output except for [d] along the concat dimension, is contiguous,
    has the element type of the output and its own storage. *)
Record input_ok (i : TensorImpl) (d : Z) : Prop := {
  ok_sizes : sizes i = <[Z.to_nat c := d]> (sizes o);
  ok_strides : length (strides i) = length (sizes i);
  ok_d : 0 <= d;
  ok_contiguous : is_contiguous (Some i) = true;
  ok_type : scalar_type i = scalar_type o;
  ok_storage : storage i <> storage o
}.

(** The slice of the output that [at::narrow] hands to [copy_]. *)
Definition slice (off d sc : Z) : TensorImpl :=
  {| scalar_type := scalar_type o;
     sizes := <[Z.to_nat c := d]> (sizes o);
     strides := strides o;
     storage := storage o;
     storage_offset := storage_offset o + off * sc |}.

Lemma narrow_slice off d nc sc :
  sizes o !! Z.to_nat c = Some nc -> strides o !! Z.to_nat c = Some sc ->
  0 <= off -> 0 <= d -> off + d <= nc ->
  narrow (Some o) c off d = Some (slice off d sc).
Proof.
  intros Hnc Hsc Hoff Hd Hle. unfold narrow.
  rewrite size_in_range by (unfold dim; cbn [sizes_of]; lia).
  rewrite stride_in_range by (unfold dim; cbn [sizes_of]; lia).
  cbn [sizes_of strides_of]. rewrite Hnc, Hsc.
  rewrite (proj2 (Z.ltb_ge c 0)) by lia.
  rewrite (proj2 (Z.leb_le 0 off)) by lia.
  rewrite (proj2 (Z.leb_le 0 d)) by lia.
  rewrite (proj2 (Z.leb_le (off + d) nc)) by lia.
  reflexivity.
Qed.

Lemma copy_input_matches_copy (h : gmap nat (list T)) i d off nc sc :
  input_ok i d ->
  sizes o !! Z.to_nat c = Some nc -> strides o !! Z.to_nat c = Some sc ->
  0 <= off -> off + d <= nc ->
  (forall x, 0 <= x < numel (Some i) -> is_Some (load h (data_ptr i) x)) ->
  (forall x, 0 <= x < numel (Some o) -> is_Some (load h (data_ptr o) x)) ->
  exists h',
    copy_input (length (sizes o)) (data_ptr o) out_param (wrap32 c)
      (wrap32 sc) G W (input_meta i off d) h = Some h' /\
    copy_ cast h (slice off d sc) (Some i) = Some h' /\
    (forall p x, ptr_storage p <> storage o -> load h' p x = load h p x) /\
    (forall x, is_Some (load h' (data_ptr o) x) <->
               is_Some (load h (data_ptr o) x)).
Proof.
  intros [Hsz Hlen Hd Hcont Hty Hsto] Hnc Hsc Hoff Hle Hin Hout.
  set (N := numel (Some i)) in *.
  assert (HNdef : N = prod_list (sizes i)) by reflexivity.
  assert (Hnni : Forall (fun n => 0 <= n) (sizes i)).
  { rewrite Hsz. apply Forall_insert; assumption. }
  pose proof (prod_list_nonneg _ Hnni) as HN0. rewrite <- HNdef in HN0.
  assert (Hnumel0 : 0 <= numel (Some o)) by (apply prod_list_nonneg, Hnn).
  assert (Hcopy : copy_ cast h (slice off d sc) (Some i) =
                  run_items
                    (copy_one (data_ptr i) (data_ptr (slice off d sc))
                       (offset_of_linear i)
                       (offset_of_linear (slice off d sc))
                       (cast (scalar_type i) (scalar_type o)))
                    h (seqZ 0 N)).
  { unfold copy_. cbn [sizes slice].
    rewrite bool_decide_eq_true_2 by exact Hsz.
    rewrite <- Hsz, <- HNdef. reflexivity. }
  assert (Hrun : N + G * W <= 2 ^ 32 -> wrap32 N = N ->
            copy_input (length (sizes o)) (data_ptr o) out_param (wrap32 c)
              (wrap32 sc) G W (input_meta i off d) h =
            run_items
              (copy_element (length (sizes o)) (data_ptr o) (data_ptr i)
                 out_param (wrap32 d) (wrap32 c)
                 (wrap32 (wrap32 off * wrap32 sc)))
              h (visited G W N)).
  { intros Hb Hw. rewrite copy_input_run; try assumption;
      cbn [input_meta nElements input offset dimSize];
      change (numel (Some i)) with N; rewrite Hw; auto. }
  destruct (Z.eq_dec N 0) as [HNz|HNz].
  - (* an empty input: no element is copied on either path *)
    exists h. split; [|split; [|split; [auto|tauto]]].
    + rewrite Hrun by (rewrite HNz; (lia || reflexivity)).
      rewrite HNz.
      assert (visited G W 0 = []) as ->; [|reflexivity].
      apply elem_of_nil_inv. intros t Ht.
      apply elem_of_visited in Ht; lia.
    + rewrite Hcopy, HNz. reflexivity.
  - assert (HNpos : 0 < N) by lia.
    (* every size is positive and the output is a dense layout *)
    assert (Hposi : Forall (fun n => 0 < n) (sizes i)).
    { apply prod_list_pos_all; [exact Hnni|lia]. }
    assert (Hdpos : 0 < d).
    { assert (sizes i !! Z.to_nat c = Some d) as Hl.
      { rewrite Hsz. apply list_lookup_insert_eq. lia. }
      apply (Forall_lookup_1 _ _ _ _ Hposi Hl). }
    assert (Hposo : Forall (fun n => 0 < n) (sizes o)).
    { rewrite <- (list_insert_id (sizes o) (Z.to_nat c) nc Hnc).
      rewrite <- (list_insert_insert_eq (sizes o) (Z.to_nat c) nc d).
      rewrite <- Hsz. apply Forall_insert; [exact Hposi|lia]. }
    destruct (contiguous_layout (sizes o) HD Hposo)
      as (Hrm & Hext & Hsb & Hnb).
    rewrite <- Hstr in Hrm, Hext, Hsb.
    change (prod_list (sizes o)) with (numel (Some o)) in Hext, Hsb, Hnb.
    assert (Hn32 : numel (Some o) < 2 ^ 32) by nia.
    assert (Hlens : length (strides o) = length (sizes o)).
    { rewrite Hstr. apply length_contiguous_strides. }
    destruct (input_view_in_output (length (sizes o)) (sizes o) (strides o)
                d c off nc sc HD eq_refl Hlens Hrm Hc Hnc Hsc Hdpos Hoff Hle)
      as ([Hnest (st & Hst & Hstpos)] & Hm & Hs & Hsc0 & Hmax).
    unfold extent in Hext. unfold input_sizes in *.
    rewrite <- Hsz in Hnest, Hm, Hmax.
    assert (Hfb : forall t,
              0 <= offset_of_linear_rev (rev (sizes i)) (rev (strides o)) t
              <= max_offset_rev (rev (sizes i)) (rev (strides o))).
    { intros t. apply offset_of_linear_rev_bounds; apply Forall_rev;
        assumption. }
    assert (Hosc : 0 <= off * sc) by nia.
    assert (HNle : N <= numel (Some o)).
    { pose proof (max_offset_rev_lower _ _ st Hnest Hst ltac:(lia)) as Hl.
      rewrite prod_list_rev, <- HNdef in Hl.
      assert (N - 1 <= st * (N - 1)) by nia. lia. }
    assert (Hwsz : wrap32 <$> sizes o = sizes o).
    { apply (fmap_wrap32_id _ (numel (Some o))); assumption. }
    assert (Hwst : wrap32 <$> strides o = strides o).
    { apply (fmap_wrap32_id _ (numel (Some o))); assumption. }
    assert (Hwc : wrap32 c = c) by (apply wrap32_small; lia).
    pose proof (Forall_lookup_1 _ _ _ _ Hsb Hsc) as Hscb.
    pose proof (Forall_lookup_1 _ _ _ _ Hnb Hnc) as Hncb.
    cbv beta in Hscb, Hncb.
    assert (Hwsc : wrap32 sc = sc) by (apply wrap32_small; lia).
    assert (Hwd : wrap32 d = d) by (apply wrap32_small; lia).
    assert (Hwoff : wrap32 off = off) by (apply wrap32_small; lia).
    assert (HwN : wrap32 N = N) by (apply wrap32_small; lia).
    (* [compute] on the indices of this input *)
    assert (Hcomp : forall t, 0 <= t < N ->
              compute (length (sizes o)) (sizes o) (strides o) d c t =
              Some (offset_of_linear (slice off d sc) t)).
    { intros t Ht. unfold offset_of_linear. cbn [sizes strides slice].
      pose proof (Hfb 0) as Hb0.
      apply compute_is_offset_of_linear; unfold input_sizes;
        rewrite <- ?Hsz, <- ?HNdef;
        first [assumption | reflexivity | lia]. }
    assert (Hfd : forall t,
              offset_of_linear (slice off d sc) t =
              offset_of_linear_rev (rev (sizes i)) (rev (strides o)) t).
    { intros t. unfold offset_of_linear. cbn [sizes strides slice].
      rewrite <- Hsz. reflexivity. }
    assert (Hfs : forall t, 0 <= t < N -> offset_of_linear i t = t).
    { intros t Ht. unfold offset_of_linear.
      rewrite (offset_of_linear_rev_contiguous _ _ 1 t).
      - lia.
      - rewrite !length_rev. symmetry. exact Hlen.
      - apply Forall_rev. exact Hposi.
      - unfold is_contiguous in Hcont. cbn [sizes_of strides_of] in Hcont.
        fold N in Hcont.
        rewrite (proj2 (Z.eqb_neq N 0)) in Hcont by lia.
        exact Hcont.
      - rewrite prod_list_rev, <- HNdef. exact Ht. }
    assert (Hinj : forall x y, 0 <= x < N -> 0 <= y < N ->
              offset_of_linear (slice off d sc) x =
              offset_of_linear (slice off d sc) y -> x = y).
    { intros x y Hx Hy E. rewrite !Hfd in E.
      apply (offset_of_linear_rev_injective _ _ st x y Hnest Hst Hstpos);
        rewrite ?prod_list_rev, <- ?HNdef; assumption. }
    (* both paths run the same elementary copy *)
    set (body := copy_one (data_ptr i) (data_ptr (slice off d sc))
                   (offset_of_linear i) (offset_of_linear (slice off d sc))
                   (cast (scalar_type i) (scalar_type o))) in *.
    assert (Hfast :
      copy_input (length (sizes o)) (data_ptr o) out_param (wrap32 c)
        (wrap32 sc) G W (input_meta i off d) h =
      run_items body h (visited G W N)).
    { rewrite Hrun by (assumption || lia).
      apply run_items_ext. intros h1 t Ht.
      apply elem_of_visited in Ht; try assumption.
      unfold copy_element, body, copy_one, out_param.
      cbn [outputSize outputStride].
      rewrite Hwsz, Hwst, Hwc, Hwsc, Hwd, Hwoff.
      rewrite (Hcomp t Ht), (Hfs t Ht).
      destruct (load h1 (data_ptr i) t) as [v|]; [|reflexivity].
      rewrite Hty, cast_same.
      pose proof (Hfb t) as Hb. rewrite <- Hfd in Hb.
      rewrite (wrap32_small (off * sc)) by lia.
      rewrite wrap32_small by lia.
      unfold data_ptr. cbn [storage storage_offset slice].
      rewrite store_ptr_shift. reflexivity. }
    assert (Hpre : forall l, (forall t, t ∈ l -> 0 <= t < N) ->
              exists h', run_items body h l = Some h' /\
                written_by (data_ptr i) (data_ptr (slice off d sc))
                  (offset_of_linear i) (offset_of_linear (slice off d sc))
                  (cast (scalar_type i) (scalar_type o)) l h h').
    { intros l Hl. apply run_copy_written.
      - cbn. exact Hsto.
      - intros t Ht. specialize (Hl t Ht). split.
        + rewrite (Hfs t Hl). apply Hin. exact Hl.
        + unfold data_ptr. cbn [storage storage_offset slice].
          rewrite load_ptr_shift. apply Hout.
          pose proof (Hfb t) as Hb. rewrite <- Hfd in Hb. lia.
      - intros x y Hx Hy E.
        rewrite (Hinj x y (Hl x Hx) (Hl y Hy) E). reflexivity. }
    destruct (Hpre (visited G W N)) as (h1 & Hr1 & Hw1).
    { intros t Ht. apply elem_of_visited in Ht; assumption. }
    destruct (Hpre (seqZ 0 N)) as (h2 & Hr2 & Hw2).
    { intros t Ht. apply elem_of_seqZ in Ht. lia. }
    assert (h1 = h2) as <-.
    { eapply written_by_unique; [|exact Hw1|exact Hw2|];
        [cbn; exact Hsto|].
      intros t. rewrite elem_of_visited by assumption.
      rewrite elem_of_seqZ. lia. }
    exists h1. split; [rewrite Hfast; exact Hr1|].
    split; [rewrite Hcopy; exact Hr2|].
    destruct Hw1 as (Hf1 & _ & _ & Hf3 & _).
    split.
    + intros p x Hp. apply Hf1. cbn. exact Hp.
    + intros x.
      specialize (Hf3 (x - off * sc)).
      unfold data_ptr in Hf3. cbn [storage storage_offset slice] in Hf3.
      rewrite !load_ptr_shift in Hf3.
      replace (off * sc + (x - off * sc)) with x in Hf3 by lia.
      exact Hf3.
Qed.

End PerInput.

(** ** The two loops over the inputs *)

Lemma output_param_contiguous (o : TensorImpl) :
  (1 <= length (sizes o) <= 3)%nat ->
  length (strides o) = length (sizes o) ->
  output_param (Some o) (seqZ 0 (dim (Some o))) = Some (out_param o).
Proof.
  destruct o as [ty sz st sto soff]. cbn [sizes strides]. intros HD Hlen.
  destruct sz as [|n0 [|n1 [|n2 [|? ?]]]];
    destruct st as [|s0 [|s1 [|s2 [|? ?]]]];
    cbn [length] in *; try lia; try discriminate; reflexivity.
Qed.

Lemma narrow_copy_loop_app {T : Type}
    (cast : ScalarType -> ScalarType -> T -> T) result l1 l2 dimension :
  forall (h : gmap nat (list T)) offset,
    narrow_copy_loop cast h result (l1 ++ l2) dimension offset =
    match narrow_copy_loop cast h result l1 dimension offset with
    | Some h' =>
        narrow_copy_loop cast h' result l2 dimension
          (offset + cat_dim_total l1 dimension)
    | None => None
    end.
Proof.
  induction l1 as [|t l1 IH]; intros h offset; cbn [app narrow_copy_loop
    cat_dim_total].
  - rewrite Z.add_0_r. reflexivity.
  - destruct (should_skip t); [apply IH|].
    destruct (size t dimension) as [d|]; [|reflexivity].
    destruct (narrow result dimension offset d) as [nt|]; [|reflexivity].
    destruct (copy_ cast h nt t) as [h'|]; [|reflexivity].
    rewrite IH. change (default 0 (Some d)) with d.
    rewrite Z.add_assoc. reflexivity.
Qed.

Lemma cat_dim_total_app l1 l2 dimension :
  cat_dim_total (l1 ++ l2) dimension =
  cat_dim_total l1 dimension + cat_dim_total l2 dimension.
Proof.
  induction l1 as [|t l1 IH]; cbn [app cat_dim_total]; [lia|].
  destruct (should_skip t); lia.
Qed.

Section Loops.

Context {T : Type}.
Variable cast : ScalarType -> ScalarType -> T -> T.
Hypothesis cast_same : forall s x, cast s s x = x.

(** The device: the global range [numCU * numWI / 2] of the launch is a
    positive multiple of the work-group size [numWI]. *)
Variables (numCU numWI : Z).
Hypothesis HnumWI : 0 < numWI.
Hypothesis Hglobal : 0 < numCU * numWI / 2.
Hypothesis Hdivides : (numCU * numWI / 2) mod numWI = 0.

(** The output after the resize, and the concat dimension. *)
Variable o : TensorImpl.
Variable c : Z.
Hypothesis HD : (1 <= length (sizes o) <= 3)%nat.
Hypothesis Hnn : Forall (fun n => 0 <= n) (sizes o).
Hypothesis Hstr : strides o = contiguous_strides (sizes o).
Hypothesis Hc : 0 <= c < Z.of_nat (length (sizes o)).
Hypothesis Hfit : numel (Some o) + numCU * numWI / 2 <= 2 ^ 32.

(** An input of the fast path, with its elements in memory. *)
Definition eligible (h : gmap nat (list T)) (t : Tensor) : Prop :=
  exists i d,
    t = Some i /\ input_ok o c i d /\
    forall x, 0 <= x < numel t -> is_Some (load h (data_ptr i) x).

(** The elements of the output are in memory. *)
Definition allocated (h : gmap nat (list T)) : Prop :=
  forall x, 0 <= x < numel (Some o) -> is_Some (load h (data_ptr o) x).

Let G : Z := numCU * numWI / 2 / numWI.

Lemma groups_pos : 0 < G /\ G * numWI = numCU * numWI / 2.
Proof.
  unfold G.
  pose proof (Z.div_mod (numCU * numWI / 2) numWI ltac:(lia)) as E.
  rewrite Hdivides in E. split; [|lia].
  apply Z.div_str_pos. split; [lia|].
  destruct (Z_lt_le_dec (numCU * numWI / 2) numWI) as [Hlt|]; [|assumption].
  rewrite Z.mod_small in Hdivides by lia. lia.
Qed.

Lemma eligible_frame h h' t :
  (forall p x, ptr_storage p <> storage o -> load h' p x = load h p x) ->
  eligible h t -> eligible h' t.
Proof.
  intros Hframe (i & d & -> & Hok & Hmem). exists i, d.
  split; [reflexivity|]. split; [exact Hok|].
  intros x Hx. rewrite Hframe; [apply Hmem, Hx|].
  cbn. apply (ok_storage _ _ _ _ Hok).
Qed.

Lemma eligible_size h t :
  eligible h t ->
  exists i d, t = Some i /\ input_ok o c i d /\ size t c = Some d /\
              should_skip t = false.
Proof.
  intros (i & d & -> & Hok & _). exists i, d.
  split; [reflexivity|]. split; [exact Hok|]. split; [|reflexivity].
  rewrite size_in_range.
  - cbn [sizes_of]. rewrite (ok_sizes _ _ _ _ Hok).
    apply list_lookup_insert_eq. lia.
  - unfold dim. cbn [sizes_of]. rewrite (ok_sizes _ _ _ _ Hok).
    rewrite length_insert. lia.
Qed.

Lemma cat_dim_total_nonneg h ts :
  Forall (eligible h) ts -> 0 <= cat_dim_total ts c.
Proof.
  induction 1 as [|t ts Ht _ IH]; cbn [cat_dim_total]; [lia|].
  destruct (eligible_size h t Ht) as (i & d & _ & Hok & -> & ->).
  pose proof (ok_d _ _ _ _ Hok). change (default 0 (Some d)) with d. lia.
Qed.

(** One batch: the metadata filled by [parallel_cat], the copies of the
    launch input by input, and the narrow-and-copy loop on the same
    inputs. *)
Lemma batch_agrees nc sc ts :
  sizes o !! Z.to_nat c = Some nc -> strides o !! Z.to_nat c = Some sc ->
  forall (h : gmap nat (list T)) off,
    Forall (eligible h) ts -> allocated h ->
    0 <= off -> off + cat_dim_total ts c <= nc ->
    exists metas h',
      fill_batch (scalar_type o) ts c off
        = Some (metas, off + cat_dim_total ts c) /\
      length metas = length ts /\
      run_items
        (fun h1 m =>
           copy_input (length (sizes o)) (data_ptr o) (out_param o)
             (wrap32 c) (wrap32 sc) G numWI m h1) h metas = Some h' /\
      narrow_copy_loop cast h (Some o) ts c off = Some h' /\
      (forall p x, ptr_storage p <> storage o -> load h' p x = load h p x) /\
      allocated h'.
Proof.
  intros Hnc Hsc. destruct groups_pos as [HG HGW].
  induction ts as [|t ts IH]; intros h off Hel Hall Hoff Hle.
  - exists [], h. cbn [fill_batch cat_dim_total]. rewrite Z.add_0_r.
    repeat split; auto.
  - apply Forall_cons in Hel as [Ht Hts].
    pose proof (cat_dim_total_nonneg h ts Hts) as Hrest.
    destruct (eligible_size h t Ht) as (i & d & -> & Hok & Hsize & Hskip).
    destruct Ht as (i' & d' & [= <-] & _ & Hmem).
    cbn [cat_dim_total] in Hle |- *. rewrite Hskip, Hsize in Hle |- *.
    change (default 0 (Some d)) with d in Hle |- *.
    pose proof (ok_d _ _ _ _ Hok) as Hd.
    destruct (copy_input_matches_copy cast cast_same G numWI HnumWI HG o c
                HD Hnn Hstr Hc ltac:(rewrite HGW; exact Hfit)
                h i d off nc sc Hok Hnc Hsc Hoff ltac:(lia) Hmem Hall)
      as (h1 & Hfast & Hslow & Hframe & Halloc).
    destruct (IH h1 (off + d)) as (metas & h2 & Hfill & Hlen & Hrun & Hloop
                                   & Hframe2 & Hall2).
    { eapply Forall_impl; [exact Hts|].
      intros t Ht. eapply eligible_frame; eassumption. }
    { intros x Hx. apply Halloc, Hall, Hx. }
    { lia. }
    { lia. }
    exists (input_meta i off d :: metas), h2.
    split.
    { cbn [fill_batch]. rewrite Hsize.
      rewrite bool_decide_eq_true_2 by exact (ok_type _ _ _ _ Hok).
      cbn [negb]. rewrite Hfill, Z.add_assoc. reflexivity. }
    split; [cbn [length]; rewrite Hlen; reflexivity|].
    split; [cbn [run_items]; rewrite Hfast; exact Hrun|].
    split.
    { cbn [narrow_copy_loop]. rewrite Hskip, Hsize.
      rewrite (narrow_slice o c HD Hc off d nc sc Hnc Hsc Hoff Hd
                 ltac:(lia)).
      rewrite Hslow. exact Hloop. }
    split; [|exact Hall2].
    intros p x Hp. rewrite Hframe2, Hframe by exact Hp. reflexivity.
Qed.

(** The launch of one batch, when the device accepts it. *)
Lemma launch_by_input (h : gmap nat (list T)) metas sc :
  CatArrayBatchedCopy numCU numWI (length (sizes o)) h (data_ptr o) metas
    (out_param o) c (wrap32 sc) (Z.of_nat (length metas)) =
  run_items
    (fun h1 m =>
       copy_input (length (sizes o)) (data_ptr o) (out_param o)
         (wrap32 c) (wrap32 sc) G numWI m h1) h metas.
Proof.
  unfold CatArrayBatchedCopy.
  rewrite (proj2 (Z.leb_gt numWI 0)) by lia.
  rewrite Hdivides. cbn [orb negb Z.eqb].
  apply kernel_by_input.
Qed.

(** One turn of the outer loop of [parallel_cat]. *)
Lemma batch_loop_step fuel ty data param dimension Dims ds
    (h : gmap nat (list T)) rest off :
  rest <> [] -> (1 <= Dims <= 3)%nat -> 0 <= dimension < Z.of_nat Dims ->
  outputStride param !! Z.to_nat dimension = Some ds ->
  batch_loop numCU numWI (S fuel) ty data param dimension (Z.of_nat Dims) h
    rest off =
  match
    fill_batch ty (take (Z.to_nat CAT_ARRAY_BATCH_SIZE) rest) dimension off
  with
  | Some (stackInputs, off') =>
      match
        CatArrayBatchedCopy numCU numWI Dims h data stackInputs param
          dimension ds
          (Z.of_nat (length (take (Z.to_nat CAT_ARRAY_BATCH_SIZE) rest)))
      with
      | Some h' =>
          batch_loop numCU numWI fuel ty data param dimension
            (Z.of_nat Dims) h'
            (drop (Z.to_nat CAT_ARRAY_BATCH_SIZE) rest) off'
      | None => None
      end
  | None => None
  end.
Proof.
  intros Hne HDims Hdim Hds.
  destruct rest as [|t rest]; [congruence|].
  cbn [batch_loop].
  destruct (fill_batch _ _ dimension off) as [[stackInputs off']|];
    [|reflexivity].
  rewrite Hds.
  rewrite (proj2 (Z.leb_le 0 dimension)) by lia.
  assert ((dimension <? CAT_ARRAY_MAX_INPUT_DIMS) = true) as ->.
  { apply Z.ltb_lt. unfold CAT_ARRAY_MAX_INPUT_DIMS. lia. }
  cbn [andb].
  destruct Dims as [|[|[|[|?]]]]; try lia; reflexivity.
Qed.

(** The outer loop of [parallel_cat] against the narrow-and-copy loop. *)
Lemma loops_agree nc sc :
  sizes o !! Z.to_nat c = Some nc -> strides o !! Z.to_nat c = Some sc ->
  forall fuel ts (h : gmap nat (list T)) off,
    (length ts <= fuel)%nat ->
    Forall (eligible h) ts -> allocated h ->
    0 <= off -> off + cat_dim_total ts c <= nc ->
    exists h',
      batch_loop numCU numWI fuel (scalar_type o) (data_ptr o)
        (out_param o) c (dim (Some o)) h ts off = Some h' /\
      narrow_copy_loop cast h (Some o) ts c off = Some h'.
Proof.
  intros Hnc Hsc.
  induction fuel as [|fuel IH]; intros ts h off Hlen Hel Hall Hoff Hle.
  { destruct ts; [|cbn in Hlen; lia]. exists h. split; reflexivity. }
  destruct (decide (ts = [])) as [->|Hne].
  { exists h. split; reflexivity. }
  set (B := Z.to_nat CAT_ARRAY_BATCH_SIZE).
  assert (HB : (0 < B)%nat) by (vm_compute; lia).
  pose proof (take_drop B ts) as Hsplit.
  assert (Hel' : Forall (eligible h) (take B ts) /\
                 Forall (eligible h) (drop B ts)).
  { rewrite <- Forall_app, Hsplit. exact Hel. }
  destruct Hel' as [Hel1 Hel2].
  pose proof (cat_dim_total_nonneg h _ Hel2) as Hn2.
  pose proof (cat_dim_total_app (take B ts) (drop B ts) c) as Htot.
  rewrite Hsplit in Htot.
  destruct (batch_agrees nc sc (take B ts) Hnc Hsc h off Hel1 Hall Hoff
              ltac:(lia))
    as (metas & h1 & Hfill & Hlen1 & Hrun & Hloop & Hframe & Hall1).
  destruct (IH (drop B ts) h1 (off + cat_dim_total (take B ts) c))
    as (h2 & Hfast2 & Hslow2).
  { rewrite length_drop. lia. }
  { eapply Forall_impl; [exact Hel2|].
    intros t Ht. eapply eligible_frame; eassumption. }
  { exact Hall1. }
  { pose proof (cat_dim_total_nonneg h _ Hel1). lia. }
  { lia. }
  exists h2. split.
  - change (dim (Some o)) with (Z.of_nat (length (sizes o))) in *.
    rewrite (batch_loop_step fuel _ _ _ _ _ (wrap32 sc)); try assumption.
    + fold B. rewrite Hfill, <- Hlen1, launch_by_input, Hrun. exact Hfast2.
    + cbn [out_param outputStride]. rewrite list_lookup_fmap, Hsc.
      reflexivity.
  - rewrite <- Hsplit, narrow_copy_loop_app, Hloop. exact Hslow2.
Qed.

End Loops.

(** ** The fast path and the fallback of [cat] *)

(** What [cat] knows of an input when it takes the fast path, and what the
    memory holds: the input was not skipped, is contiguous, is 32-bit
    indexable and has the element type of the output; its shape passed
    [check_shape_except_dim] against the shape of the resized output; its
    elements are in memory, in a storage that is not the output's. *)
Record fast_path_input {T : Type} (h : gmap nat (list T)) (o : TensorImpl)
    (dimension : Z) (t : Tensor) : Prop := {
  fp_not_skipped : should_skip t = false;
  fp_contiguous : is_contiguous t = true;
  fp_indexable : canUse32BitIndexMath t = true;
  fp_type : scalar_type_of t = Some (scalar_type o);
  fp_shape :
    sizes_of t =
    <[Z.to_nat dimension := default 0 (size t dimension)]> (sizes o);
  fp_nonneg : 0 <= default 0 (size t dimension);
  fp_strides : length (strides_of t) = length (sizes_of t);
  fp_storage : forall i, t = Some i -> storage i <> storage o;
  fp_memory :
    forall i x, t = Some i -> 0 <= x < numel t ->
                is_Some (load h (data_ptr i) x)
}.

Lemma fast_path_input_eligible {T : Type} (h : gmap nat (list T)) o c t :
  fast_path_input h o c t -> eligible o c h t.
Proof.
  intros [Hskip Hcont _ Hty Hshape Hnn Hlen Hsto Hmem].
  destruct t as [i|]; [|discriminate].
  exists i, (default 0 (size (Some i) c)).
  split; [reflexivity|]. split.
  - constructor; try assumption.
    + injection Hty as Hty. exact Hty.
    + apply Hsto. reflexivity.
  - intros x Hx. apply Hmem; [reflexivity|exact Hx].
Qed.

(** C2 (amended). On inputs that satisfy the conditions of the fast path
    of [cat] (none skipped, output of rank 1 to 3, all contiguous, all of
    the element type of the output, all shapes checked against the
    resized contiguous output), with the elements of the inputs and of
    the output in memory, and under two conditions the fast path does
    not test: the inputs lie in storages other than the output's, and
    the global range of the launch, [numCU * numWI / 2], is a positive
    multiple of the work-group size [numWI] that does not carry the
    32-bit thread index past [2 ^ 32].  Then [parallel_cat] and the
    narrow-and-copy loop both return, and they return the same memory,
    so every element of the output is the same on the two paths. *)
Theorem parallel_cat_matches_narrow_copy {T : Type}
    (cast : ScalarType -> ScalarType -> T -> T) (numCU numWI : Z)
    (h : gmap nat (list T)) (o : TensorImpl) (inputs : list Tensor)
    (dimension : Z) :
  (forall s x, cast s s x = x) ->
  0 < numWI -> 0 < numCU * numWI / 2 ->
  (numCU * numWI / 2) mod numWI = 0 ->
  numel (Some o) + numCU * numWI / 2 <= 2 ^ 32 ->
  1 <= dim (Some o) -> (dim (Some o) <=? CAT_ARRAY_MAX_INPUT_DIMS) = true ->
  0 <= dimension < dim (Some o) ->
  Forall (fun n => 0 <= n) (sizes o) ->
  strides o = contiguous_strides (sizes o) ->
  (forall x, 0 <= x < numel (Some o) -> is_Some (load h (data_ptr o) x)) ->
  Forall (fast_path_input h o dimension) inputs ->
  cat_dim_total inputs dimension <= default 0 (size (Some o) dimension) ->
  exists h',
    parallel_cat numCU numWI h (Some o) inputs dimension (dim (Some o)) =
      Some h' /\
    narrow_copy_loop cast h (Some o) inputs dimension 0 = Some h'.
Proof.
  intros Hcast HnumWI Hglobal Hdivides Hfit Hrank1 Hrank3 Hdim Hnn Hstr
    Hall Hin Htotal.
  apply Z.leb_le in Hrank3. unfold CAT_ARRAY_MAX_INPUT_DIMS in Hrank3.
  assert (HD : (1 <= length (sizes o) <= 3)%nat).
  { unfold dim in Hrank1, Hrank3. cbn [sizes_of] in Hrank1, Hrank3. lia. }
  assert (Hc : 0 <= dimension < Z.of_nat (length (sizes o))) by exact Hdim.
  assert (Hlens : length (strides o) = length (sizes o)).
  { rewrite Hstr. apply length_contiguous_strides. }
  destruct (lookup_lt_is_Some_2 (sizes o) (Z.to_nat dimension)
              ltac:(lia)) as [nc Hnc].
  destruct (lookup_lt_is_Some_2 (strides o) (Z.to_nat dimension)
              ltac:(lia)) as [sc Hsc].
  rewrite size_in_range in Htotal by exact Hdim.
  cbn [sizes_of] in Htotal. rewrite Hnc in Htotal.
  change (default 0 (Some nc)) with nc in Htotal.
  destruct (loops_agree cast Hcast numCU numWI HnumWI Hglobal Hdivides o
              dimension HD Hnn Hstr Hc Hfit nc sc Hnc Hsc (length inputs)
              inputs h 0 (le_n _))
    as (h' & Hfast & Hslow); try assumption; try lia.
  { eapply Forall_impl; [exact Hin|].
    intros t. apply fast_path_input_eligible. }
  exists h'. split; [|exact Hslow].
  unfold parallel_cat.
  assert ((CAT_ARRAY_MAX_INPUT_DIMS <? dim (Some o)) = false) as ->.
  { apply Z.ltb_ge. unfold CAT_ARRAY_MAX_INPUT_DIMS. unfold dim.
    cbn [sizes_of]. lia. }
  rewrite output_param_contiguous by assumption.
  exact Hfast.
Qed.

(** The example after the resize: the output is a contiguous 3x3 matrix
    on storage [0], which now holds nine cells. *)
Definition resized_heap : gmap nat (list Z) :=
  <[0%nat := replicate 9 0]> example_heap.

Definition resized_out : TensorImpl :=
  {| scalar_type := Long; sizes := [3; 3]; strides := [3; 1];
     storage := 0; storage_offset := 0 |}.

(** This is the state in which [cat] reaches the branch on the example:
    what [resize_] makes of [example_out] for the concatenated shape. *)
Lemma resized_example :
  resize_ (fun _ => 0) example_heap
    {| scalar_type := Long; sizes := [0]; strides := [1];
       storage := 0; storage_offset := 0 |}
    [3; 3] (contiguous_strides [3; 3]) =
  (resized_heap, resized_out).
Proof. vm_compute. reflexivity. Qed.

Lemma load_in_buffer {T : Type} (h : gmap nat (list T)) p buf x :
  h !! ptr_storage p = Some buf ->
  0 <= ptr_offset p + x < Z.of_nat (length buf) ->
  is_Some (load h p x).
Proof.
  intros Hbuf Hx. unfold load. rewrite Hbuf.
  rewrite (proj2 (Z.leb_le _ _)) by lia.
  apply lookup_lt_is_Some_2. lia.
Qed.

Lemma parallel_cat_matches_narrow_copy_witness :
  exists h',
    parallel_cat 2 4 resized_heap (Some resized_out) [example_a; example_b]
      0 (dim (Some resized_out)) = Some h' /\
    narrow_copy_loop (fun _ _ x => x) resized_heap (Some resized_out)
      [example_a; example_b] 0 0 = Some h'.
Proof.
  apply (parallel_cat_matches_narrow_copy (fun _ _ x => x) 2 4 resized_heap
           resized_out [example_a; example_b] 0).
  - reflexivity.
  - lia.
  - vm_compute. reflexivity.
  - reflexivity.
  - vm_compute. discriminate.
  - vm_compute. discriminate.
  - reflexivity.
  - vm_compute. split; [discriminate|reflexivity].
  - repeat constructor; discriminate.
  - reflexivity.
  - intros x Hx.
    apply (load_in_buffer _ _ (replicate 9 0));
      [vm_compute; reflexivity|].
    change (numel (Some resized_out)) with 9 in Hx. simpl. lia.
  - apply Forall_cons_2; [|apply Forall_cons_2; [|apply Forall_nil_2]].
    + split.
      * reflexivity.
      * reflexivity.
      * reflexivity.
      * reflexivity.
      * reflexivity.
      * vm_compute. discriminate.
      * reflexivity.
      * intros i [= <-]. simpl. lia.
      * intros i x [= <-] Hx.
        apply (load_in_buffer _ _ [1; 2; 3; 4; 5; 6]);
          [vm_compute; reflexivity|].
        change (numel example_a) with 6 in Hx. simpl. lia.
    + split.
      * reflexivity.
      * reflexivity.
      * reflexivity.
      * reflexivity.
      * reflexivity.
      * vm_compute. discriminate.
      * reflexivity.
      * intros i [= <-]. simpl. lia.
      * intros i x [= <-] Hx.
        apply (load_in_buffer _ _ [7; 8; 9]); [vm_compute; reflexivity|].
        change (numel example_b) with 3 in Hx. simpl. lia.
  - vm_compute. discriminate.
Defined.

(** ** The two conditions are needed *)

(** Storage [0] holds eight cells; the first input is the view of the
    cells [1] to [6], the second the one cell of storage [1], and the
    output is a view without elements at the start of storage [0]. *)
Definition shared_heap : gmap nat (list Z) :=
  <[1%nat := [7]]> (<[0%nat := [10; 20; 30; 40; 50; 60; 70; 80]]> ∅).

Definition shared_out : Tensor := long_tensor [0] [1] 0 0.
Definition shared_a : Tensor := long_tensor [6] [1] 0 1.
Definition shared_b : Tensor := long_tensor [1] [1] 1 0.

(** The output as [cat] resizes it: the first seven cells of storage
    [0], which the storage already holds. *)
Definition shared_result : Tensor := long_tensor [7] [1] 0 0.

(** The buffer of storage [s] after a call that returns. *)
Definition returned_buffer
    (o : outcome (gmap nat (list Z) * Tensor)) (s : nat) : option (list Z) :=
  match o with Return (h, _) => h !! s | _ => None end.

Definition buffer_of (o : option (gmap nat (list Z))) (s : nat)
    : option (list Z) :=
  match o with Some h => h !! s | None => None end.

(** The claim as it stands fails in two ways.  First, the inputs need
    not be apart from the output: [cat] tests the overlap before it
    resizes the output, and an output without elements overlaps nothing.
    On the inputs above every condition of the fast path holds and both
    paths return, from [cat] and from the branch alike, but the fourth
    element differs: the work item that copies it runs after the work
    item that has overwritten its source.  Second, on a device with
    three compute units and work groups of four the global range [6] is
    no multiple of the work-group size: the launch of the fast path
    fails where the fallback returns. *)
Lemma parallel_cat_differs_on_shared_storage :
  ((1 < length [shared_a; shared_b])%nat /\
   Forall (fun t => should_skip t = false /\ is_contiguous t = true /\
                    canUse32BitIndexMath t = true /\
                    scalar_type_of t = scalar_type_of shared_result)
     [shared_a; shared_b] /\
   dim shared_result <= CAT_ARRAY_MAX_INPUT_DIMS /\
   canUse32BitIndexMath shared_result = true /\
   find_overlap simple_overlap_status shared_out [shared_a; shared_b] 0
     = None /\
   snd (resize_ (fun _ => 0) shared_heap
          {| scalar_type := Long; sizes := [0]; strides := [1];
             storage := 0; storage_offset := 0 |}
          [7] (contiguous_strides [7])) =
   {| scalar_type := Long; sizes := [7]; strides := [1];
      storage := 0; storage_offset := 0 |} /\
   returned_buffer
     (simple_cat 2 4 shared_heap shared_out [shared_a; shared_b] 2 0 true) 0
     = Some [20; 30; 40; 60; 60; 70; 7; 80] /\
   returned_buffer
     (simple_cat 2 4 shared_heap shared_out [shared_a; shared_b] 2 0 false) 0
     = Some [20; 30; 40; 50; 60; 70; 7; 80] /\
   buffer_of
     (parallel_cat 2 4 shared_heap shared_result [shared_a; shared_b] 0 1) 0
     = Some [20; 30; 40; 60; 60; 70; 7; 80] /\
   buffer_of
     (narrow_copy_loop (fun _ _ x => x) shared_heap shared_result
        [shared_a; shared_b] 0 0) 0
     = Some [20; 30; 40; 50; 60; 70; 7; 80]) /\
  (simple_cat 3 4 example_heap example_out [example_a; example_b] 2 0 true
     = Fault /\
   returned_buffer
     (simple_cat 3 4 example_heap example_out [example_a; example_b] 2 0
        false) 0
     = Some [1; 2; 3; 4; 5; 6; 7; 8; 9]).
Proof.
  split.
  - split; [cbn; lia|].
    split.
    { apply Forall_cons_2; [|apply Forall_cons_2; [|apply Forall_nil_2]];
        repeat split; vm_compute; reflexivity. }
    split; [vm_compute; discriminate|].
    repeat split; vm_compute; reflexivity.
  - split; vm_compute; reflexivity.
Qed.

(** * Further properties of [cat] *)

(** ** Validation and early returns *)

Lemma sum_cat_dim_Raise ns inputs dimension c e c' :
  sum_cat_dim ns inputs dimension c = Raise e c' ->
  e = IndexError \/ exists msg, e = ShapeMismatchError msg.
Proof.
  revert c. induction inputs as [|t rest IH]; intros c; cbn [sum_cat_dim];
    [discriminate|].
  destruct (should_skip t); [apply IH|].
  destruct (check_shape_except_dim ns t dimension) as [e0|] eqn:Hc.
  - intros [= <- _]. right. unfold check_shape_except_dim in Hc.
    destruct (negb _); [injection Hc as <-; eauto|].
    destruct (forallb _ _); [discriminate|]. injection Hc as <-. eauto.
  - destruct (size t dimension); [|intros [= <- _]; left; reflexivity].
    destruct (in_signed_range 64 _); [apply IH|discriminate].
Qed.

(** X13. When every input that [cat] looks at is skipped, [cat] returns at
    once: the output keeps its sizes and no buffer is touched, whatever the
    dimension and the number of inputs are. *)
Theorem cat_all_skipped_returns_unchanged
    (T : Type) uninit cast canCast result_type get_overlap_status
    has_internal_overlap suggest_memory_format format_strides numCU numWI
    (h : gmap nat (list T)) (result : Tensor) (inputs : list Tensor)
    (numInputs dimension : Z) (allSameType : bool) :
  canCast (result_type inputs) (scalar_type_of result) = true ->
  find_overlap get_overlap_status result inputs 0 = None ->
  has_internal_overlap result = false ->
  numInputs <= Z.of_nat (length inputs) ->
  Forall (fun t => should_skip t = true) (take (Z.to_nat numInputs) inputs) ->
  cat uninit cast canCast result_type get_overlap_status
    has_internal_overlap suggest_memory_format format_strides numCU numWI
    h result inputs numInputs dimension allSameType = Return (h, result).
Proof.
  intros Hcast Hov Hint Hlen Hskip. unfold cat.
  rewrite Hcast, Hov, Hint. cbn [negb].
  rewrite (proj2 (Z.ltb_ge _ _)) by lia.
  pose proof (scan_inputs_spec (take (Z.to_nat numInputs) inputs)
                false 0 None) as Hscan.
  destruct (scan_inputs _ _) as [[hasSkipped nDims] ns].
  destruct Hscan as [(_ & _ & ->)|(Hns & Hin & _)]; [reflexivity|].
  rewrite Forall_forall in Hskip. rewrite (Hskip ns Hin) in Hns.
  discriminate.
Qed.

Lemma cat_all_skipped_returns_unchanged_witness :
  simple_cat 2 4 example_heap example_out [None; None] 2 (-1) true =
  Return (example_heap, example_out).
Proof.
  apply (cat_all_skipped_returns_unchanged Z (fun _ => 0) (fun _ _ x => x)
           (fun _ _ => true) (fun _ => Some Long) simple_overlap_status
           (fun _ => false) (fun _ => Contiguous) simple_format_strides 2 4
           example_heap example_out [None; None] 2 (-1) true).
  - reflexivity.
  - reflexivity.
  - reflexivity.
  - simpl. lia.
  - repeat constructor.
Defined.

(** X14. The check [numInputs > 0] of [cat] can never fail: it is only reached
    when some input among the first [numInputs] is not skipped. *)
Theorem cat_never_reports_invalid_number_of_inputs
    (T : Type) uninit cast canCast result_type get_overlap_status
    has_internal_overlap suggest_memory_format format_strides numCU numWI
    (h : gmap nat (list T)) (result : Tensor) (inputs : list Tensor)
    (numInputs dimension : Z) (allSameType : bool) s :
  cat uninit cast canCast result_type get_overlap_status
    has_internal_overlap suggest_memory_format format_strides numCU numWI
    h result inputs numInputs dimension allSameType <>
  Raise (InvalidArgumentError "invalid number of inputs") s.
Proof.
  unfold cat.
  destruct (negb (canCast _ _)); [discriminate|].
  destruct (find_overlap _ _ _ _); [discriminate|].
  destruct (has_internal_overlap result); [discriminate|].
  destruct (_ <? _); [discriminate|].
  pose proof (scan_inputs_spec (take (Z.to_nat numInputs) inputs)
                false 0 None) as Hscan.
  destruct (scan_inputs _ _) as [[hasSkipped nDims] ns].
  destruct (negb (defined ns)) eqn:Hdef; [discriminate|].
  destruct Hscan as [(_ & _ & ->)|(_ & Hin & _)]; [discriminate|].
  assert (0 < numInputs) as Hpos.
  { destruct (Z.to_nat numInputs) eqn:E; [|lia].
    rewrite take_0 in Hin. inversion Hin. }
  rewrite (proj2 (Z.ltb_lt 0 numInputs) Hpos). cbn [negb].
  destruct (negb (0 <=? dimension)); [discriminate|].
  destruct (sum_cat_dim _ _ _ _) as [c|e c|] eqn:Hsum; try discriminate.
  - destruct result as [r|]; [|discriminate].
    destruct (format_strides _ _); [|discriminate].
    destruct (resize_ _ _ _ _ _) as [h1 r1].
    destruct (_ && _).
    + destruct (parallel_cat _ _ _ _ _ _ _); discriminate.
    + destruct (narrow_copy_loop _ _ _ _ _ _); discriminate.
  - apply sum_cat_dim_Raise in Hsum as [->|[msg ->]]; discriminate.
Qed.

(** X15. A negative dimension is refused, before the output is resized or
    written, whenever some input is not skipped. *)
Theorem cat_negative_dimension_raises
    (T : Type) uninit cast canCast result_type get_overlap_status
    has_internal_overlap suggest_memory_format format_strides numCU numWI
    (h : gmap nat (list T)) (result : Tensor) (inputs : list Tensor)
    (numInputs dimension : Z) (allSameType : bool) (t : Tensor) :
  canCast (result_type inputs) (scalar_type_of result) = true ->
  find_overlap get_overlap_status result inputs 0 = None ->
  has_internal_overlap result = false ->
  numInputs <= Z.of_nat (length inputs) ->
  t ∈ take (Z.to_nat numInputs) inputs -> should_skip t = false ->
  dimension < 0 ->
  cat uninit cast canCast result_type get_overlap_status
    has_internal_overlap suggest_memory_format format_strides numCU numWI
    h result inputs numInputs dimension allSameType =
  Raise (InvalidArgumentError "invalid dimension") (h, result).
Proof.
  intros Hcast Hov Hint Hlen Hin Hns Hneg. unfold cat.
  rewrite Hcast, Hov, Hint. cbn [negb].
  rewrite (proj2 (Z.ltb_ge _ _)) by lia.
  pose proof (scan_inputs_spec (take (Z.to_nat numInputs) inputs)
                false 0 None) as Hscan.
  destruct (scan_inputs _ _) as [[hasSkipped nDims] ns].
  destruct Hscan as [(Hall & _ & _)|(Hskip & Hmem & _)].
  { rewrite Forall_forall in Hall. rewrite (Hall t Hin) in Hns.
    discriminate. }
  rewrite (should_skip_defined ns Hskip). cbn [negb].
  assert (0 < numInputs) as Hpos.
  { destruct (Z.to_nat numInputs) eqn:E; [|lia].
    rewrite take_0 in Hin. inversion Hin. }
  rewrite (proj2 (Z.ltb_lt 0 numInputs) Hpos). cbn [negb].
  rewrite (proj2 (Z.leb_gt 0 dimension)) by lia. reflexivity.
Qed.

Lemma cat_negative_dimension_raises_witness :
  simple_cat 2 4 example_heap example_out [example_a; example_b] 2 (-1) true
  = Raise (InvalidArgumentError "invalid dimension")
      (example_heap, example_out).
Proof.
  apply (cat_negative_dimension_raises Z (fun _ => 0) (fun _ _ x => x)
           (fun _ _ => true) (fun _ => Some Long) simple_overlap_status
           (fun _ => false) (fun _ => Contiguous) simple_format_strides 2 4
           example_heap example_out [example_a; example_b] 2 (-1) true
           example_a).
  - reflexivity.
  - reflexivity.
  - reflexivity.
  - simpl. lia.
  - simpl. left.
  - reflexivity.
  - lia.
Defined.

Lemma check_shape_except_dim_passes (first second : Tensor) dimension :
  dim first = dim second ->
  (forall d, 0 <= d < dim first -> d <> dimension ->
             size first d = size second d) ->
  check_shape_except_dim first second dimension = None.
Proof.
  intros Hd Hsz. unfold check_shape_except_dim.
  rewrite (proj2 (Z.eqb_eq _ _) Hd). cbn [negb].
  assert (forallb
            (fun d => (d =? dimension) ||
                      bool_decide (size first d = size second d))
            (seqZ 0 (dim first)) = true) as ->; [|reflexivity].
  apply forallb_forall. intros d Hin.
  rewrite <- list_elem_of_In, elem_of_seqZ in Hin.
  destruct (Z.eqb_spec d dimension) as [_|Hne]; [reflexivity|].
  cbn [orb]. apply bool_decide_eq_true. apply Hsz; [lia|exact Hne].
Qed.

(** X16. A dimension at or beyond the rank of the inputs is refused as well,
    by the shape check or by [size], before the output is resized or
    written. *)
Theorem cat_dimension_out_of_range_raises
    (T : Type) uninit cast canCast result_type get_overlap_status
    has_internal_overlap suggest_memory_format format_strides numCU numWI
    (h : gmap nat (list T)) (result : Tensor) (inputs : list Tensor)
    (numInputs dimension : Z) (allSameType : bool) (t : Tensor) :
  canCast (result_type inputs) (scalar_type_of result) = true ->
  find_overlap get_overlap_status result inputs 0 = None ->
  has_internal_overlap result = false ->
  numInputs <= Z.of_nat (length inputs) ->
  t ∈ take (Z.to_nat numInputs) inputs -> should_skip t = false ->
  (forall u, u ∈ take (Z.to_nat numInputs) inputs -> dim u <= dimension) ->
  exists e,
    cat uninit cast canCast result_type get_overlap_status
      has_internal_overlap suggest_memory_format format_strides numCU numWI
      h result inputs numInputs dimension allSameType =
    Raise e (h, result) /\
    (e = IndexError \/ exists msg, e = ShapeMismatchError msg).
Proof.
  intros Hcast Hov Hint Hlen Hin Hns Hdim. unfold cat.
  rewrite Hcast, Hov, Hint. cbn [negb].
  rewrite (proj2 (Z.ltb_ge _ _)) by lia.
  pose proof (scan_inputs_spec (take (Z.to_nat numInputs) inputs)
                false 0 None) as Hscan.
  destruct (scan_inputs _ _) as [[hasSkipped nDims] ns].
  destruct Hscan as [(Hall & _ & _)|(Hskip & Hmem & _)].
  { rewrite Forall_forall in Hall. rewrite (Hall t Hin) in Hns.
    discriminate. }
  rewrite (should_skip_defined ns Hskip). cbn [negb].
  assert (0 < numInputs) as Hpos.
  { destruct (Z.to_nat numInputs) eqn:E; [|lia].
    rewrite take_0 in Hin. inversion Hin. }
  rewrite (proj2 (Z.ltb_lt 0 numInputs) Hpos). cbn [negb].
  pose proof (dim_nonneg t) as Ht0. pose proof (Hdim t Hin) as Ht1.
  rewrite (proj2 (Z.leb_le 0 dimension)) by lia. cbn [negb].
  assert (Hsum : forall l c,
            (forall u, u ∈ l -> dim u <= dimension) ->
            (exists u, u ∈ l /\ should_skip u = false) ->
            exists e c',
              sum_cat_dim ns l dimension c = Raise e c' /\
              (e = IndexError \/ exists msg, e = ShapeMismatchError msg)).
  { induction l as [|u l IH]; intros c Hl (v & Hv & Hvs);
      [inversion Hv|].
    cbn [sum_cat_dim]. destruct (should_skip u) eqn:Hu.
    - apply IH; [intros w Hw; apply Hl; right; exact Hw|].
      apply elem_of_cons in Hv as [->|Hv]; [congruence|eauto].
    - destruct (check_shape_except_dim ns u dimension) as [e0|] eqn:Hc.
      + exists e0, c. split; [reflexivity|].
        unfold check_shape_except_dim in Hc.
        destruct (negb _); [injection Hc as <-; eauto|].
        destruct (forallb _ _); [discriminate|]. injection Hc as <-. eauto.
      + assert (size u dimension = None) as ->.
        { pose proof (Hl u ltac:(left)) as Hd. pose proof (dim_nonneg u).
          unfold size.
          rewrite (proj2 (Z.ltb_ge dimension (dim u))) by lia.
          rewrite andb_false_r.
          rewrite (proj2 (Z.ltb_ge dimension 0)) by lia.
          rewrite andb_false_r. reflexivity. }
        exists IndexError, c. split; [reflexivity|left; reflexivity]. }
  destruct (Hsum (take (Z.to_nat numInputs) inputs) 0 Hdim
              ltac:(eauto)) as (e & c' & -> & He).
  exists e. split; [reflexivity|exact He].
Qed.

Lemma cat_dimension_out_of_range_raises_witness :
  exists e,
    simple_cat 2 4 example_heap example_out [example_a; example_b] 2 2 true
    = Raise e (example_heap, example_out) /\
    (e = IndexError \/ exists msg, e = ShapeMismatchError msg).
Proof.
  apply (cat_dimension_out_of_range_raises Z (fun _ => 0) (fun _ _ x => x)
           (fun _ _ => true) (fun _ => Some Long) simple_overlap_status
           (fun _ => false) (fun _ => Contiguous) simple_format_strides 2 4
           example_heap example_out [example_a; example_b] 2 2 true
           example_a).
  - reflexivity.
  - reflexivity.
  - reflexivity.
  - simpl. lia.
  - simpl. left.
  - reflexivity.
  - simpl. intros u Hu.
    apply elem_of_cons in Hu as [->|Hu]; [vm_compute; discriminate|].
    apply elem_of_cons in Hu as [->|Hu]; [vm_compute; discriminate|].
    inversion Hu.
Defined.

(** ** What [cat] writes *)

Section Frame.

Context {T : Type}.
Implicit Types (h : gmap nat (list T)).

(** Every storage other than [s] holds what it held. *)
Definition unchanged_outside (s : nat) h h' : Prop :=
  forall s', s' <> s -> h' !! s' = h !! s'.

Lemma unchanged_outside_refl s h : unchanged_outside s h h.
Proof. intros s' _. reflexivity. Qed.

Lemma unchanged_outside_trans s h1 h2 h3 :
  unchanged_outside s h1 h2 -> unchanged_outside s h2 h3 ->
  unchanged_outside s h1 h3.
Proof. intros H12 H23 s' Hs. rewrite H23, H12 by exact Hs. reflexivity. Qed.

Lemma run_items_unchanged_outside {I : Type} s
    (f : gmap nat (list T) -> I -> option (gmap nat (list T))) l :
  (forall h x h', f h x = Some h' -> unchanged_outside s h h') ->
  forall h h', run_items f h l = Some h' -> unchanged_outside s h h'.
Proof.
  intros Hf. induction l as [|x l IH]; intros h h'; cbn [run_items].
  - intros [= <-]. apply unchanged_outside_refl.
  - destruct (f h x) as [h1|] eqn:E; [|discriminate]. intros Hrun.
    eapply unchanged_outside_trans; [eapply Hf; exact E|apply IH, Hrun].
Qed.

Lemma store_unchanged_outside h p i v h' :
  store h p i v = Some h' -> unchanged_outside (ptr_storage p) h h'.
Proof. intros Hst s' Hs. exact (store_other_storage _ _ _ _ _ s' Hst Hs). Qed.

Lemma copy_element_unchanged_outside Dims output data os dimSize concatDim
    dataOffset h tid h' :
  copy_element Dims output data os dimSize concatDim dataOffset h tid
    = Some h' ->
  unchanged_outside (ptr_storage output) h h'.
Proof.
  unfold copy_element. destruct (compute _ _ _ _ _ _); [|discriminate].
  destruct (load h data tid); [|discriminate].
  apply store_unchanged_outside.
Qed.

Lemma grid_stride_loop_unchanged_outside s fuel
    (body : gmap nat (list T) -> Z -> option (gmap nat (list T)))
    nElements stride :
  (forall h x h', body h x = Some h' -> unchanged_outside s h h') ->
  forall h tid h',
    grid_stride_loop fuel body nElements stride h tid = Some h' ->
    unchanged_outside s h h'.
Proof.
  intros Hb. induction fuel as [|fuel IH]; intros h tid h';
    cbn [grid_stride_loop]; [discriminate|].
  destruct (tid <? nElements).
  - destruct (body h tid) as [h1|] eqn:E; [|discriminate]. intros Hrun.
    eapply unchanged_outside_trans; [eapply Hb; exact E|eapply IH, Hrun].
  - intros [= <-]. apply unchanged_outside_refl.
Qed.

Lemma CatArrayBatchedCopy_unchanged_outside numCU numWI Dims h output inputs
    os concatDim dimStride batchCounter h' :
  CatArrayBatchedCopy numCU numWI Dims h output inputs os concatDim
    dimStride batchCounter = Some h' ->
  unchanged_outside (ptr_storage output) h h'.
Proof.
  unfold CatArrayBatchedCopy. destruct (_ || _); [discriminate|].
  apply run_items_unchanged_outside.
  intros h0 [[inb wg] wi] h1. cbn [batched_copy_item].
  destruct (inputs !! Z.to_nat inb) as [meta|]; [|discriminate].
  unfold work_item_copy. destruct (_ <=? _).
  - intros [= <-]. apply unchanged_outside_refl.
  - apply grid_stride_loop_unchanged_outside.
    intros h2 x h3. apply copy_element_unchanged_outside.
Qed.

Lemma batch_loop_unchanged_outside numCU numWI fuel ty data param
    dimension nDims :
  forall h rest off h',
    batch_loop numCU numWI fuel ty data param dimension nDims h rest off
      = Some h' ->
    unchanged_outside (ptr_storage data) h h'.
Proof.
  induction fuel as [|fuel IH]; intros h rest off h'.
  - destruct rest; cbn [batch_loop]; [|discriminate].
    intros [= <-]. apply unchanged_outside_refl.
  - destruct rest as [|t rest]; cbn [batch_loop].
    { intros [= <-]. apply unchanged_outside_refl. }
    destruct (fill_batch _ _ dimension off) as [[stackInputs off']|];
      [|discriminate].
    set (dso := if (0 <=? dimension) && (dimension <? CAT_ARRAY_MAX_INPUT_DIMS)
                then outputStride param !! Z.to_nat dimension else None).
    set (n := Z.of_nat (length (take (Z.to_nat CAT_ARRAY_BATCH_SIZE)
                                  (t :: rest)))).
    assert (Hl : forall Dims h1,
              match dso with
              | Some dimStride =>
                  CatArrayBatchedCopy numCU numWI Dims h data stackInputs
                    param dimension dimStride n
              | None => None
              end = Some h1 ->
              unchanged_outside (ptr_storage data) h h1).
    { intros Dims h1. destruct dso as [ds|]; [|discriminate].
      apply CatArrayBatchedCopy_unchanged_outside. }
    destruct (nDims =? 1); [|destruct (nDims =? 2); [|destruct (nDims =? 3)]].
    1-3: match goal with
         | |- match ?m with _ => _ end = _ -> _ =>
             destruct m as [h1|] eqn:E; [|discriminate]
         end;
         intros Hrun;
         (eapply unchanged_outside_trans; [eapply Hl, E|eapply IH, Hrun]).
    apply IH.
Qed.

Lemma parallel_cat_unchanged_outside numCU numWI h (o : TensorImpl) inputs
    dimension nDims h' :
  parallel_cat numCU numWI h (Some o) inputs dimension nDims = Some h' ->
  unchanged_outside (storage o) h h'.
Proof.
  unfold parallel_cat. destruct (_ <? _); [discriminate|].
  destruct (output_param _ _); [|discriminate].
  apply (batch_loop_unchanged_outside numCU numWI (length inputs)
           (scalar_type o) (data_ptr o)).
Qed.

Lemma copy__unchanged_outside cast h (dst : TensorImpl) src h' :
  copy_ cast h dst src = Some h' -> unchanged_outside (storage dst) h h'.
Proof.
  unfold copy_. destruct src as [s|]; [|discriminate].
  destruct (bool_decide _); [|discriminate].
  apply run_items_unchanged_outside.
  intros h0 x h1. unfold copy_element_strided.
  destruct (load _ _ _); [|discriminate].
  apply (store_unchanged_outside h0 (data_ptr dst)).
Qed.

Lemma narrow_storage (o nt : TensorImpl) dimension start len :
  narrow (Some o) dimension start len = Some nt -> storage nt = storage o.
Proof.
  unfold narrow. destruct (size _ _); [|discriminate].
  destruct (stride _ _); [|discriminate].
  destruct (_ && _); [|discriminate]. intros [= <-]. reflexivity.
Qed.

Lemma narrow_copy_loop_unchanged_outside cast (o : TensorImpl) rest
    dimension :
  forall h off h',
    narrow_copy_loop cast h (Some o) rest dimension off = Some h' ->
    unchanged_outside (storage o) h h'.
Proof.
  induction rest as [|t rest IH]; intros h off h'; cbn [narrow_copy_loop].
  - intros [= <-]. apply unchanged_outside_refl.
  - destruct (should_skip t); [apply IH|].
    destruct (size t dimension) as [d|]; [|discriminate].
    destruct (narrow (Some o) dimension off d) as [nt|] eqn:En;
      [|discriminate].
    destruct (copy_ cast h nt t) as [h1|] eqn:Ec; [|discriminate].
    intros Hrun. eapply unchanged_outside_trans; [|eapply IH, Hrun].
    rewrite <- (narrow_storage _ _ _ _ _ En).
    eapply copy__unchanged_outside, Ec.
Qed.

End Frame.

(** X17. Whenever [cat] returns, the output is still a view of the same storage
    at the same offset, with the same element type, and every other
    storage, those of the inputs included, holds exactly what it held
    before the call. *)
Theorem cat_writes_only_output_storage
    (T : Type) uninit cast canCast result_type get_overlap_status
    has_internal_overlap suggest_memory_format format_strides numCU numWI
    (h : gmap nat (list T)) (result : Tensor) (inputs : list Tensor)
    (numInputs dimension : Z) (allSameType : bool)
    (h' : gmap nat (list T)) (result' : Tensor) :
  cat uninit cast canCast result_type get_overlap_status
    has_internal_overlap suggest_memory_format format_strides numCU numWI
    h result inputs numInputs dimension allSameType = Return (h', result') ->
  match result, result' with
  | Some r, Some r' =>
      storage r' = storage r /\ storage_offset r' = storage_offset r /\
      scalar_type r' = scalar_type r /\
      unchanged_outside (storage r) h h'
  | None, None => h' = h
  | _, _ => False
  end.
Proof.
  unfold cat.
  destruct (negb (canCast _ _)); [discriminate|].
  destruct (find_overlap _ _ _ _); [discriminate|].
  destruct (has_internal_overlap result); [discriminate|].
  destruct (_ <? _); [discriminate|].
  destruct (scan_inputs _ _) as [[hasSkipped nDims] ns].
  destruct (negb (defined ns)).
  { intros [= <- <-]. destruct result as [r|]; [|reflexivity].
    do 3 (split; [reflexivity|]). apply unchanged_outside_refl. }
  destruct (negb (0 <? numInputs)); [discriminate|].
  destruct (negb (0 <=? dimension)); [discriminate|].
  destruct (sum_cat_dim _ _ _ _) as [c|e c|]; try discriminate.
  destruct result as [r|]; [|discriminate].
  destruct (format_strides _ _) as [st|]; [|discriminate].
  cbn [resize_].
  set (r1 := {| scalar_type := scalar_type r;
                sizes := result_size ns nDims dimension c;
                strides := st; storage := storage r;
                storage_offset := storage_offset r |}).
  match goal with
  | |- context [<[storage r := ?b]> h] => set (h1 := <[storage r := b]> h)
  end.
  assert (H1 : unchanged_outside (storage r) h h1).
  { intros s' Hs. unfold h1. rewrite lookup_insert_ne by congruence.
    reflexivity. }
  destruct (_ && _).
  - destruct (parallel_cat _ _ _ _ _ _ _) as [h2|] eqn:E; [|discriminate].
    intros [= <- <-]. do 3 (split; [reflexivity|]).
    eapply unchanged_outside_trans; [exact H1|].
    apply (parallel_cat_unchanged_outside _ _ _ r1 _ _ _ _ E).
  - destruct (narrow_copy_loop _ _ _ _ _ _) as [h2|] eqn:E; [|discriminate].
    intros [= <- <-]. do 3 (split; [reflexivity|]).
    eapply unchanged_outside_trans; [exact H1|].
    apply (narrow_copy_loop_unchanged_outside _ r1 _ _ _ _ _ E).
Qed.

Lemma cat_writes_only_output_storage_witness :
  storage resized_out = 0%nat /\ storage_offset resized_out = 0 /\
  scalar_type resized_out = Long /\
  unchanged_outside 0 example_heap
    (<[0%nat := [1; 2; 3; 4; 5; 6; 7; 8; 9]]> example_heap).
Proof.
  apply (cat_writes_only_output_storage Z (fun _ => 0) (fun _ _ x => x)
           (fun _ _ => true) (fun _ => Some Long) simple_overlap_status
           (fun _ => false) (fun _ => Contiguous) simple_format_strides 2 4
           example_heap example_out [example_a; example_b] 2 0 true
           (<[0%nat := [1; 2; 3; 4; 5; 6; 7; 8; 9]]> example_heap)
           (Some resized_out)).
  vm_compute. reflexivity.
Defined.

(** ** Where the elements of the inputs end up *)

(** Quotient and remainder of [a * n + b] for [0 <= b < n]. *)
Lemma div_mod_decomp a b n :
  0 <= b < n -> (a * n + b) / n = a /\ (a * n + b) mod n = b.
Proof.
  intros Hb. split.
  - symmetry. apply (Z.div_unique_pos _ _ a b); lia.
  - symmetry. apply (Z.mod_unique_pos _ _ a b); lia.
Qed.

Lemma split_index t m M :
  0 < m -> 0 <= t < M * m ->
  0 <= t / m < M /\ 0 <= t mod m < m /\ t = (t / m) * m + t mod m.
Proof.
  intros Hm Ht. pose proof (Z.div_mod t m ltac:(lia)).
  pose proof (Z.mod_pos_bound t m Hm).
  assert (0 <= t / m) by (apply Z.div_pos; lia).
  assert (t / m < M) by (apply Z.div_lt_upper_bound; lia).
  lia.
Qed.

(** The coordinate along the concat dimension of an offset into the dense
    output: the element of an input placed at [off] lands in the slab
    [off, off + d). *)
Lemma slab_coordinate (n : list Z) (c off d nc sc t : Z) :
  (1 <= length n <= 3)%nat -> Forall (fun x => 0 < x) n ->
  0 <= c < Z.of_nat (length n) ->
  n !! Z.to_nat c = Some nc ->
  contiguous_strides n !! Z.to_nat c = Some sc ->
  0 < d -> 0 <= off -> off + d <= nc ->
  0 <= t < prod_list (<[Z.to_nat c := d]> n) ->
  let p := off * sc +
           offset_of_linear_rev (rev (<[Z.to_nat c := d]> n))
             (rev (contiguous_strides n)) t in
  0 < sc /\ 0 <= p < prod_list n /\ off <= (p / sc) mod nc < off + d.
Proof.
  intros Hlen Hpos Hc Hnc Hsc Hd Hoff Hle Ht.
  destruct n as [|n0 [|n1 [|n2 [|? ?]]]]; cbn [length] in Hlen, Hc; try lia.
  - (* rank 1 *)
    assert (c = 0) as -> by lia.
    injection Hnc as <-. injection Hsc as <-.
    change (<[Z.to_nat 0 := d]> [n0]) with [d] in *.
    change (contiguous_strides [n0]) with [1].
    change (prod_list [d]) with (d * 1) in Ht.
    change (prod_list [n0]) with (n0 * 1).
    cbv zeta. rewrite offset_rev_1.
    rewrite (Z.mod_small t d) by lia.
    rewrite Z.div_1_r. rewrite Z.mod_small by lia. lia.
  - (* rank 2 *)
    inversion Hpos as [|? ? H0 Hp']; subst.
    inversion Hp' as [|? ? H1 _]; subst.
    assert (Hs : contiguous_strides [n0; n1] = [n1; 1]).
    { simpl. rewrite !Z.max_r by lia. f_equal. lia. }
    rewrite Hs in *.
    change (prod_list [n0; n1]) with (n0 * (n1 * 1)).
    assert (c = 0 \/ c = 1) as [-> | ->] by lia.
    + injection Hnc as <-. injection Hsc as <-.
      change (<[Z.to_nat 0 := d]> [n0; n1]) with [d; n1] in *.
      change (prod_list [d; n1]) with (d * (n1 * 1)) in Ht.
      cbv zeta. rewrite offset_rev_2.
      destruct (split_index t n1 d H1 ltac:(lia)) as (Ha & Hb & _).
      rewrite (Z.mod_small (t / n1) d) by lia.
      set (a := t / n1) in *. set (b := t mod n1) in *.
      replace (off * n1 + (b * 1 + (a * n1 + 0)))
        with ((off + a) * n1 + b) by lia.
      destruct (div_mod_decomp (off + a) b n1 Hb) as [-> _].
      rewrite Z.mod_small by lia. nia.
    + injection Hnc as <-. injection Hsc as <-.
      change (<[Z.to_nat 1 := d]> [n0; n1]) with [n0; d] in *.
      change (prod_list [n0; d]) with (n0 * (d * 1)) in Ht.
      cbv zeta. rewrite offset_rev_2.
      destruct (split_index t d n0 Hd ltac:(lia)) as (Ha & Hb & _).
      rewrite (Z.mod_small (t / d) n0) by lia.
      set (a := t / d) in *. set (b := t mod d) in *.
      rewrite Z.div_1_r.
      replace (off * 1 + (b * 1 + (a * n1 + 0)))
        with (a * n1 + (off + b)) by lia.
      destruct (div_mod_decomp a (off + b) n1 ltac:(lia)) as [_ ->].
      nia.
  - (* rank 3 *)
    inversion Hpos as [|? ? H0 Hp']; subst.
    inversion Hp' as [|? ? H1 Hp'']; subst.
    inversion Hp'' as [|? ? H2 _]; subst.
    assert (Hs : contiguous_strides [n0; n1; n2] = [n1 * n2; n2; 1]).
    { simpl. rewrite !Z.max_r by lia. f_equal; [lia|f_equal; lia]. }
    rewrite Hs in *.
    change (prod_list [n0; n1; n2]) with (n0 * (n1 * (n2 * 1))).
    assert (H12 : 0 < n1 * n2) by nia.
    assert (c = 0 \/ c = 1 \/ c = 2) as [-> | [-> | ->]] by lia.
    + injection Hnc as <-. injection Hsc as <-.
      change (<[Z.to_nat 0 := d]> [n0; n1; n2]) with [d; n1; n2] in *.
      change (prod_list [d; n1; n2]) with (d * (n1 * (n2 * 1))) in Ht.
      cbv zeta. rewrite offset_rev_3.
      destruct (split_index t n2 (d * n1) H2 ltac:(lia)) as (Hq & Hi2 & _).
      destruct (split_index (t / n2) n1 d H1 ltac:(lia)) as (Hi0 & Hi1 & _).
      rewrite (Z.mod_small (t / n2 / n1) d) by lia.
      set (i2 := t mod n2) in *. set (i1 := t / n2 mod n1) in *.
      set (i0 := t / n2 / n1) in *.
      assert (Hin : 0 <= i1 * n2 + i2 < n1 * n2) by nia.
      replace (off * (n1 * n2) + (i2 * 1 + (i1 * n2 + (i0 * (n1 * n2) + 0))))
        with ((off + i0) * (n1 * n2) + (i1 * n2 + i2)) by lia.
      destruct (div_mod_decomp (off + i0) (i1 * n2 + i2) (n1 * n2) Hin)
        as [-> _].
      rewrite Z.mod_small by lia. nia.
    + injection Hnc as <-. injection Hsc as <-.
      change (<[Z.to_nat 1 := d]> [n0; n1; n2]) with [n0; d; n2] in *.
      change (prod_list [n0; d; n2]) with (n0 * (d * (n2 * 1))) in Ht.
      cbv zeta. rewrite offset_rev_3.
      destruct (split_index t n2 (n0 * d) H2 ltac:(lia)) as (Hq & Hi2 & _).
      destruct (split_index (t / n2) d n0 Hd ltac:(lia)) as (Hi0 & Hi1 & _).
      rewrite (Z.mod_small (t / n2 / d) n0) by lia.
      set (i2 := t mod n2) in *. set (i1 := t / n2 mod d) in *.
      set (i0 := t / n2 / d) in *.
      replace (off * n2 + (i2 * 1 + (i1 * n2 + (i0 * (n1 * n2) + 0))))
        with ((i0 * n1 + (off + i1)) * n2 + i2) by lia.
      destruct (div_mod_decomp (i0 * n1 + (off + i1)) i2 n2 Hi2) as [-> _].
      destruct (div_mod_decomp i0 (off + i1) n1 ltac:(lia)) as [_ ->].
      nia.
    + injection Hnc as <-. injection Hsc as <-.
      change (<[Z.to_nat 2 := d]> [n0; n1; n2]) with [n0; n1; d] in *.
      change (prod_list [n0; n1; d]) with (n0 * (n1 * (d * 1))) in Ht.
      cbv zeta. rewrite offset_rev_3.
      destruct (split_index t d (n0 * n1) Hd ltac:(lia)) as (Hq & Hi2 & _).
      destruct (split_index (t / d) n1 n0 H1 ltac:(lia)) as (Hi0 & Hi1 & _).
      rewrite (Z.mod_small (t / d / n1) n0) by lia.
      set (i2 := t mod d) in *. set (i1 := t / d mod n1) in *.
      set (i0 := t / d / n1) in *.
      rewrite Z.div_1_r.
      replace (off * 1 + (i2 * 1 + (i1 * n2 + (i0 * (n1 * n2) + 0))))
        with ((i0 * n1 + i1) * n2 + (off + i2)) by lia.
      destruct (div_mod_decomp (i0 * n1 + i1) (off + i2) n2 ltac:(lia))
        as [_ ->].
      nia.
Qed.

Section Content.

Context {T : Type}.
Variable cast : ScalarType -> ScalarType -> T -> T.
Hypothesis cast_same : forall s x, cast s s x = x.

Variables (numCU numWI : Z).

(** The output after the resize, and the concat dimension. *)
Variable o : TensorImpl.
Variable c : Z.
Hypothesis HD : (1 <= length (sizes o) <= 3)%nat.
Hypothesis Hnn : Forall (fun n => 0 <= n) (sizes o).
Hypothesis Hstr : strides o = contiguous_strides (sizes o).
Hypothesis Hc : 0 <= c < Z.of_nat (length (sizes o)).

Variables nc sc : Z.
Hypothesis Hnc : sizes o !! Z.to_nat c = Some nc.
Hypothesis Hsc : strides o !! Z.to_nat c = Some sc.

(** An input that has elements has positive sizes, and so has the
    output. *)
Lemma nonempty_input_sizes i d off :
  input_ok o c i d -> 0 <= off -> off + d <= nc -> 0 < numel (Some i) ->
  Forall (fun n => 0 < n) (sizes i) /\ 0 < d /\
  Forall (fun n => 0 < n) (sizes o).
Proof.
  intros [Hsz Hlen Hd Hcont Hty Hsto] Hoff Hle HN.
  assert (Hnni : Forall (fun n => 0 <= n) (sizes i)).
  { rewrite Hsz. apply Forall_insert; assumption. }
  assert (Hposi : Forall (fun n => 0 < n) (sizes i)).
  { apply prod_list_pos_all; [exact Hnni|exact HN]. }
  assert (Hdpos : 0 < d).
  { assert (sizes i !! Z.to_nat c = Some d) as Hl.
    { rewrite Hsz. apply list_lookup_insert_eq. lia. }
    apply (Forall_lookup_1 _ _ _ _ Hposi Hl). }
  split; [exact Hposi|]. split; [exact Hdpos|].
  rewrite <- (list_insert_id (sizes o) (Z.to_nat c) nc Hnc).
  rewrite <- (list_insert_insert_eq (sizes o) (Z.to_nat c) nc d).
  rewrite <- Hsz. apply Forall_insert; [exact Hposi|lia].
Qed.

(** The elements of an input placed at [off] land inside the output, in
    the slab [off, off + d) along the concat dimension. *)
Lemma slab_of_input i d off t :
  input_ok o c i d -> 0 <= off -> off + d <= nc ->
  0 <= t < numel (Some i) ->
  let p := off * sc + offset_of_linear (slice o c off d sc) t in
  0 <= p < numel (Some o) /\ off <= (p / sc) mod nc < off + d.
Proof.
  intros Hok Hoff Hle Ht.
  destruct (nonempty_input_sizes i d off Hok Hoff Hle ltac:(lia))
    as (Hposi & Hdpos & Hposo).
  unfold offset_of_linear. cbn [sizes strides slice].
  rewrite Hstr in Hsc |- *.
  destruct (slab_coordinate (sizes o) c off d nc sc t HD Hposo Hc Hnc Hsc
              Hdpos Hoff Hle) as (_ & Hp & Hco).
  { rewrite <- (ok_sizes _ _ _ _ Hok). exact Ht. }
  split; [exact Hp|exact Hco].
Qed.

(** One [copy_] into the slice of an input: the slice then holds the
    input element for element, and nothing outside the slab of the slice
    has changed. *)
Lemma copy_slice_content (h : gmap nat (list T)) i d off h1 :
  input_ok o c i d -> 0 <= off -> off + d <= nc ->
  (forall x, 0 <= x < numel (Some i) -> is_Some (load h (data_ptr i) x)) ->
  allocated o h ->
  copy_ cast h (slice o c off d sc) (Some i) = Some h1 ->
  (forall t, 0 <= t < numel (Some i) ->
     load h1 (data_ptr (slice o c off d sc))
       (offset_of_linear (slice o c off d sc) t) =
     load h (data_ptr i) (offset_of_linear i t)) /\
  (forall x, ~ (0 <= x < numel (Some o) /\
                off <= (x / sc) mod nc < off + d) ->
     load h1 (data_ptr o) x = load h (data_ptr o) x) /\
  (forall p x, ptr_storage p <> storage o -> load h1 p x = load h p x) /\
  allocated o h1.
Proof.
  intros Hok Hoff Hle Hin Hall.
  pose proof Hok as [Hsz Hlen Hd Hcont Hty Hsto].
  set (N := numel (Some i)) in *.
  assert (HNdef : N = prod_list (sizes i)) by reflexivity.
  set (body := copy_one (data_ptr i) (data_ptr (slice o c off d sc))
                 (offset_of_linear i) (offset_of_linear (slice o c off d sc))
                 (cast (scalar_type i) (scalar_type o))).
  assert (Hcopy : copy_ cast h (slice o c off d sc) (Some i) =
                  run_items body h (seqZ 0 N)).
  { unfold copy_. cbn [sizes slice].
    rewrite bool_decide_eq_true_2 by exact Hsz.
    rewrite <- Hsz, <- HNdef. reflexivity. }
  rewrite Hcopy. clear Hcopy.
  assert (Hnni : Forall (fun n => 0 <= n) (sizes i)).
  { rewrite Hsz. apply Forall_insert; assumption. }
  pose proof (prod_list_nonneg _ Hnni) as HN0. rewrite <- HNdef in HN0.
  destruct (Z.eq_dec N 0) as [HNz|HNz].
  { rewrite HNz. intros [= <-].
    split; [intros t Ht; lia|]. split; [reflexivity|].
    split; [reflexivity|exact Hall]. }
  assert (HNpos : 0 < N) by lia.
  destruct (nonempty_input_sizes i d off Hok Hoff Hle HNpos)
    as (Hposi & Hdpos & Hposo).
  assert (Hfs : forall t, 0 <= t < N -> offset_of_linear i t = t).
  { intros t Ht. unfold offset_of_linear.
    rewrite (offset_of_linear_rev_contiguous _ _ 1 t).
    - lia.
    - rewrite !length_rev. symmetry. exact Hlen.
    - apply Forall_rev. exact Hposi.
    - unfold is_contiguous in Hcont. cbn [sizes_of strides_of] in Hcont.
      fold N in Hcont.
      rewrite (proj2 (Z.eqb_neq N 0)) in Hcont by lia.
      exact Hcont.
    - rewrite prod_list_rev, <- HNdef. exact Ht. }
  assert (Hslab : forall t, 0 <= t < N ->
            0 <= off * sc + offset_of_linear (slice o c off d sc) t
              < numel (Some o) /\
            off <= ((off * sc + offset_of_linear (slice o c off d sc) t)
                    / sc) mod nc < off + d).
  { intros t Ht. apply (slab_of_input i d off t Hok Hoff Hle Ht). }
  (* distinct elements have distinct destinations *)
  destruct (contiguous_layout (sizes o) HD Hposo) as (Hrm & _ & _ & _).
  rewrite <- Hstr in Hrm.
  assert (Hlens : length (strides o) = length (sizes o)).
  { rewrite Hstr. apply length_contiguous_strides. }
  destruct (input_view_in_output (length (sizes o)) (sizes o) (strides o)
              d c off nc sc HD eq_refl Hlens Hrm Hc Hnc Hsc Hdpos Hoff Hle)
    as ([Hnest (st & Hst & Hstpos)] & _).
  unfold input_sizes in Hnest. rewrite <- Hsz in Hnest.
  assert (Hinj : forall x y, 0 <= x < N -> 0 <= y < N ->
            offset_of_linear (slice o c off d sc) x =
            offset_of_linear (slice o c off d sc) y -> x = y).
  { intros x y Hx Hy E. unfold offset_of_linear in E.
    cbn [sizes strides slice] in E. rewrite <- Hsz in E.
    apply (offset_of_linear_rev_injective _ _ st x y Hnest Hst Hstpos);
      rewrite ?prod_list_rev, <- ?HNdef; assumption. }
  destruct (run_copy_written (data_ptr i) (data_ptr (slice o c off d sc))
              (offset_of_linear i) (offset_of_linear (slice o c off d sc))
              (cast (scalar_type i) (scalar_type o))
              ltac:(cbn; exact Hsto) (seqZ 0 N) h)
    as (h2 & Hrun & Hf1 & _ & _ & Hf3 & Hf4 & Hf5).
  { intros t Ht. apply elem_of_seqZ in Ht. split.
    - rewrite (Hfs t ltac:(lia)). apply Hin. lia.
    - unfold data_ptr. cbn [storage storage_offset slice].
      rewrite load_ptr_shift. apply Hall.
      apply (Hslab t ltac:(lia)). }
  { intros x y Hx Hy E. apply elem_of_seqZ in Hx, Hy.
    rewrite (Hinj x y ltac:(lia) ltac:(lia) E). reflexivity. }
  fold body in Hrun. rewrite Hrun. intros [= <-].
  assert (Hshift : forall (g : gmap nat (list T)) x,
            load g (data_ptr o) x =
            load g (data_ptr (slice o c off d sc)) (x - off * sc)).
  { intros g x. unfold data_ptr. cbn [storage storage_offset slice].
    rewrite load_ptr_shift. f_equal. lia. }
  split; [|split; [|split]].
  - intros t Ht.
    destruct (Hf4 t ltac:(apply elem_of_seqZ; lia)) as (v & Hv & Hw).
    rewrite Hw, Hv, Hty, cast_same. reflexivity.
  - intros x Hx. rewrite !Hshift. apply Hf5.
    intros t Ht E. apply elem_of_seqZ in Ht. apply Hx.
    replace x with (off * sc + offset_of_linear (slice o c off d sc) t)
      by lia.
    apply Hslab. lia.
  - intros p x Hp. apply Hf1. cbn. exact Hp.
  - intros x Hx. rewrite Hshift. apply Hf3. rewrite <- Hshift.
    apply Hall, Hx.
Qed.

(** The narrow-and-copy loop: slice [j] of the output holds input [j]. *)
Lemma narrow_copy_loop_content ts :
  forall (h : gmap nat (list T)) off h',
    Forall (eligible o c h) ts -> allocated o h ->
    0 <= off -> off + cat_dim_total ts c <= nc ->
    narrow_copy_loop cast h (Some o) ts c off = Some h' ->
    (forall j i, ts !! j = Some (Some i) ->
       forall t, 0 <= t < numel (Some i) ->
         let sl := slice o c (off + cat_dim_total (take j ts) c)
                     (default 0 (size (Some i) c)) sc in
         load h' (data_ptr sl) (offset_of_linear sl t) =
         load h (data_ptr i) (offset_of_linear i t)) /\
    (forall x, ~ (0 <= x < numel (Some o) /\
                  off <= (x / sc) mod nc < off + cat_dim_total ts c) ->
       load h' (data_ptr o) x = load h (data_ptr o) x) /\
    (forall p x, ptr_storage p <> storage o -> load h' p x = load h p x) /\
    allocated o h'.
Proof.
  induction ts as [|t0 ts IH]; intros h off h' Hel Hall Hoff Hle.
  - cbn [narrow_copy_loop]. intros [= <-].
    split; [intros j i Hj; discriminate|].
    split; [reflexivity|]. split; [reflexivity|exact Hall].
  - apply Forall_cons in Hel as [Ht0 Hts].
    pose proof (cat_dim_total_nonneg numCU numWI o c HD Hc h ts Hts) as Hrest.
    destruct (eligible_size numCU numWI o c HD Hc h t0 Ht0)
      as (i0 & d & -> & Hok & Hsize & Hskip).
    destruct Ht0 as (i' & d' & [= <-] & _ & Hmem).
    cbn [cat_dim_total] in Hle. rewrite Hskip, Hsize in Hle.
    change (default 0 (Some d)) with d in Hle.
    pose proof (ok_d _ _ _ _ Hok) as Hd.
    cbn [narrow_copy_loop]. rewrite Hskip, Hsize.
    rewrite (narrow_slice o c HD Hc off d nc sc Hnc Hsc Hoff Hd ltac:(lia)).
    destruct (copy_ cast h (slice o c off d sc) (Some i0)) as [h1|] eqn:Ecp;
      [|discriminate].
    destruct (copy_slice_content h i0 d off h1 Hok Hoff ltac:(lia) Hmem
                Hall Ecp) as (Ha & Hb & Hfr & Hall1).
    intros Hloop.
    destruct (IH h1 (off + d) h') as (Ha' & Hb' & Hfr' & Hall').
    { eapply Forall_impl; [exact Hts|].
      intros u Hu. eapply (eligible_frame o c); eassumption. }
    { exact Hall1. }
    { lia. }
    { lia. }
    { exact Hloop. }
    split; [|split; [|split]].
    + intros [|j] i Hj u Hu.
      * injection Hj as <-. cbn [take cat_dim_total]. rewrite Z.add_0_r.
        rewrite Hsize. change (default 0 (Some d)) with d. cbv zeta.
        rewrite <- (Ha u Hu).
        unfold data_ptr. cbn [storage storage_offset slice].
        rewrite !load_ptr_shift. apply Hb'.
        intros [_ Hco].
        pose proof (slab_of_input i0 d off u Hok Hoff ltac:(lia) Hu) as Hs.
        cbv zeta in Hs. lia.
      * cbn [lookup] in Hj. cbn [take cat_dim_total].
        rewrite Hskip, Hsize. change (default 0 (Some d)) with d.
        specialize (Ha' j i Hj u Hu). cbv zeta in Ha' |- *.
        rewrite Z.add_assoc. rewrite Ha'. apply Hfr.
        rewrite Forall_forall in Hts.
        destruct (Hts (Some i) ltac:(eapply list_elem_of_lookup_2; eauto))
          as (i'' & d'' & [= <-] & Hok'' & _).
        cbn. apply (ok_storage _ _ _ _ Hok'').
    + intros x Hx. cbn [cat_dim_total] in Hx. rewrite Hskip, Hsize in Hx.
      change (default 0 (Some d)) with d in Hx.
      rewrite Hb' by (intros [? ?]; apply Hx; lia).
      apply Hb. intros [? ?]. apply Hx. lia.
    + intros p x Hp. rewrite Hfr', Hfr by exact Hp. reflexivity.
    + exact Hall'.
Qed.

End Content.

(** Both loops over the inputs return the same memory, in which slice
    [j] of the output holds input [j]. *)
Lemma cat_loops_content {T : Type}
    (cast : ScalarType -> ScalarType -> T -> T) (numCU numWI : Z)
    (h : gmap nat (list T)) (o : TensorImpl) (inputs : list Tensor)
    (dimension nc : Z) :
  (forall s x, cast s s x = x) ->
  0 < numWI -> 0 < numCU * numWI / 2 ->
  (numCU * numWI / 2) mod numWI = 0 ->
  numel (Some o) + numCU * numWI / 2 <= 2 ^ 32 ->
  (1 <= length (sizes o) <= 3)%nat ->
  0 <= dimension < Z.of_nat (length (sizes o)) ->
  Forall (fun n => 0 <= n) (sizes o) ->
  strides o = contiguous_strides (sizes o) ->
  allocated o h ->
  Forall (eligible o dimension h) inputs ->
  sizes o !! Z.to_nat dimension = Some nc ->
  cat_dim_total inputs dimension <= nc ->
  exists h',
    parallel_cat numCU numWI h (Some o) inputs dimension (dim (Some o)) =
      Some h' /\
    narrow_copy_loop cast h (Some o) inputs dimension 0 = Some h' /\
    forall j i, inputs !! j = Some (Some i) ->
      exists nt,
        narrow (Some o) dimension (cat_dim_total (take j inputs) dimension)
          (default 0 (size (Some i) dimension)) = Some nt /\
        forall t, 0 <= t < numel (Some i) ->
          load h' (data_ptr nt) (offset_of_linear nt t) =
          load h (data_ptr i) (offset_of_linear i t).
Proof.
  intros Hcast HnumWI Hglobal Hdivides Hfit HD Hc Hnn Hstr Hall Hel Hnc
    Htotal.
  assert (Hlens : length (strides o) = length (sizes o)).
  { rewrite Hstr. apply length_contiguous_strides. }
  destruct (lookup_lt_is_Some_2 (strides o) (Z.to_nat dimension)
              ltac:(lia)) as [sc Hsc].
  destruct (loops_agree cast Hcast numCU numWI HnumWI Hglobal Hdivides o
              dimension HD Hnn Hstr Hc Hfit nc sc Hnc Hsc (length inputs)
              inputs h 0 (le_n _) Hel Hall ltac:(lia) ltac:(lia))
    as (h' & Hfast & Hslow).
  exists h'. split.
  { unfold parallel_cat.
    assert ((CAT_ARRAY_MAX_INPUT_DIMS <? dim (Some o)) = false) as ->.
    { apply Z.ltb_ge. unfold CAT_ARRAY_MAX_INPUT_DIMS. unfold dim.
      cbn [sizes_of]. lia. }
    rewrite output_param_contiguous by assumption.
    exact Hfast. }
  split; [exact Hslow|].
  destruct (narrow_copy_loop_content cast Hcast numCU numWI o dimension HD
              Hnn Hstr Hc nc sc Hnc Hsc inputs h 0 h' Hel Hall ltac:(lia)
              ltac:(lia) Hslow) as (Hcontent & _).
  intros j i Hj.
  pose proof (take_drop_middle inputs j (Some i) Hj) as Hsplit.
  assert (Hparts : Forall (eligible o dimension h) (take j inputs) /\
                   Forall (eligible o dimension h)
                     (Some i :: drop (S j) inputs)).
  { rewrite <- Forall_app, Hsplit. exact Hel. }
  destruct Hparts as [Hpre Hpost].
  pose proof (cat_dim_total_nonneg numCU numWI o dimension HD Hc h _ Hpre)
    as Hpre0.
  apply Forall_cons in Hpost as [Hi Hpost].
  pose proof (cat_dim_total_nonneg numCU numWI o dimension HD Hc h _ Hpost)
    as Hpost0.
  destruct (eligible_size numCU numWI o dimension HD Hc h _ Hi)
    as (i' & d & [= <-] & Hok & Hsize & Hskip).
  pose proof (ok_d _ _ _ _ Hok) as Hd.
  assert (Hsum : cat_dim_total inputs dimension =
                 cat_dim_total (take j inputs) dimension + d +
                 cat_dim_total (drop (S j) inputs) dimension).
  { rewrite <- Hsplit at 1. rewrite cat_dim_total_app.
    cbn [cat_dim_total]. rewrite Hskip, Hsize.
    change (default 0 (Some d)) with d. lia. }
  rewrite Hsize. change (default 0 (Some d)) with d.
  exists (slice o dimension (cat_dim_total (take j inputs) dimension) d sc).
  split.
  { apply (narrow_slice o dimension HD Hc _ d nc sc Hnc Hsc); lia. }
  intros t Ht. specialize (Hcontent j i Hj t Ht). cbv zeta in Hcontent.
  rewrite Hsize, Z.add_0_l in Hcontent.
  exact Hcontent.
Qed.

(** X18. On the inputs of the fast path, when the inputs lie in storages
    other than the output's and the global range of the launch,
    [numCU * numWI / 2], is a positive multiple of the work-group size
    [numWI] with [numel output + numCU * numWI / 2 <= 2 ^ 32]:
    [parallel_cat] returns, and afterwards the slice of the output that
    [at::narrow] cuts out for input [j], at the sum of the sizes of the
    inputs before it along the concat dimension, holds input [j] element
    for element in row-major order: the output is the concatenation of
    the inputs. *)
Theorem parallel_cat_places_inputs {T : Type}
    (cast : ScalarType -> ScalarType -> T -> T) (numCU numWI : Z)
    (h : gmap nat (list T)) (o : TensorImpl) (inputs : list Tensor)
    (dimension : Z) :
  (forall s x, cast s s x = x) ->
  0 < numWI -> 0 < numCU * numWI / 2 ->
  (numCU * numWI / 2) mod numWI = 0 ->
  numel (Some o) + numCU * numWI / 2 <= 2 ^ 32 ->
  1 <= dim (Some o) -> (dim (Some o) <=? CAT_ARRAY_MAX_INPUT_DIMS) = true ->
  0 <= dimension < dim (Some o) ->
  Forall (fun n => 0 <= n) (sizes o) ->
  strides o = contiguous_strides (sizes o) ->
  (forall x, 0 <= x < numel (Some o) -> is_Some (load h (data_ptr o) x)) ->
  Forall (fast_path_input h o dimension) inputs ->
  cat_dim_total inputs dimension <= default 0 (size (Some o) dimension) ->
  exists h',
    parallel_cat numCU numWI h (Some o) inputs dimension (dim (Some o)) =
      Some h' /\
    forall j i, inputs !! j = Some (Some i) ->
      exists nt,
        narrow (Some o) dimension (cat_dim_total (take j inputs) dimension)
          (default 0 (size (Some i) dimension)) = Some nt /\
        forall t, 0 <= t < numel (Some i) ->
          load h' (data_ptr nt) (offset_of_linear nt t) =
          load h (data_ptr i) (offset_of_linear i t).
Proof.
  intros Hcast HnumWI Hglobal Hdivides Hfit Hrank1 Hrank3 Hdim Hnn Hstr
    Hall Hin Htotal.
  apply Z.leb_le in Hrank3. unfold CAT_ARRAY_MAX_INPUT_DIMS in Hrank3.
  assert (HD : (1 <= length (sizes o) <= 3)%nat).
  { unfold dim in Hrank1, Hrank3. cbn [sizes_of] in Hrank1, Hrank3. lia. }
  assert (Hc : 0 <= dimension < Z.of_nat (length (sizes o))) by exact Hdim.
  destruct (lookup_lt_is_Some_2 (sizes o) (Z.to_nat dimension)
              ltac:(lia)) as [nc Hnc].
  rewrite size_in_range in Htotal by exact Hdim.
  cbn [sizes_of] in Htotal. rewrite Hnc in Htotal.
  change (default 0 (Some nc)) with nc in Htotal.
  destruct (cat_loops_content cast numCU numWI h o inputs dimension nc)
    as (h' & Hfast & _ & Hcontent); try assumption.
  { eapply Forall_impl; [exact Hin|].
    intros t. apply fast_path_input_eligible. }
  exists h'. split; assumption.
Qed.

Lemma parallel_cat_places_inputs_witness :
  exists h',
    parallel_cat 2 4 resized_heap (Some resized_out) [example_a; example_b]
      0 (dim (Some resized_out)) = Some h' /\
    forall j i, [example_a; example_b] !! j = Some (Some i) ->
      exists nt,
        narrow (Some resized_out) 0
          (cat_dim_total (take j [example_a; example_b]) 0)
          (default 0 (size (Some i) 0)) = Some nt /\
        forall t, 0 <= t < numel (Some i) ->
          load h' (data_ptr nt) (offset_of_linear nt t) =
          load resized_heap (data_ptr i) (offset_of_linear i t).
Proof.
  apply (parallel_cat_places_inputs (fun _ _ x => x) 2 4 resized_heap
           resized_out [example_a; example_b] 0).
  - reflexivity.
  - lia.
  - vm_compute. reflexivity.
  - reflexivity.
  - vm_compute. discriminate.
  - vm_compute. discriminate.
  - reflexivity.
  - vm_compute. split; [discriminate|reflexivity].
  - repeat constructor; discriminate.
  - reflexivity.
  - intros x Hx.
    apply (load_in_buffer _ _ (replicate 9 0));
      [vm_compute; reflexivity|].
    change (numel (Some resized_out)) with 9 in Hx. simpl. lia.
  - apply Forall_cons_2; [|apply Forall_cons_2; [|apply Forall_nil_2]].
    + split.
      * reflexivity.
      * reflexivity.
      * reflexivity.
      * reflexivity.
      * reflexivity.
      * vm_compute. discriminate.
      * reflexivity.
      * intros i [= <-]. simpl. lia.
      * intros i x [= <-] Hx.
        apply (load_in_buffer _ _ [1; 2; 3; 4; 5; 6]);
          [vm_compute; reflexivity|].
        change (numel example_a) with 6 in Hx. simpl. lia.
    + split.
      * reflexivity.
      * reflexivity.
      * reflexivity.
      * reflexivity.
      * reflexivity.
      * vm_compute. discriminate.
      * reflexivity.
      * intros i [= <-]. simpl. lia.
      * intros i x [= <-] Hx.
        apply (load_in_buffer _ _ [7; 8; 9]); [vm_compute; reflexivity|].
        change (numel example_b) with 3 in Hx. simpl. lia.
  - vm_compute. discriminate.
Defined.

(** ** [cat] from the checks to the copies *)

Lemma scan_inputs_all_defined (l : list TensorImpl) :
  forall b n ns, l <> [] ->
    exists x, x ∈ l /\
      scan_inputs (Some <$> l) (b, n, ns) = (b, dim (Some x), Some x).
Proof.
  induction l as [|i l IH]; intros b n ns Hne; [congruence|].
  rewrite fmap_cons. cbn [scan_inputs].
  change (should_skip (Some i)) with false. cbv iota.
  destruct l as [|i' l'].
  - exists i. split; [left|reflexivity].
  - destruct (IH b (dim (Some i)) (Some i) ltac:(discriminate))
      as (x & Hx & E).
    exists x. split; [right; exact Hx|exact E].
Qed.

Lemma sum_cat_dim_all_checked ns (l : list TensorImpl) dimension :
  forall c,
    (forall i, i ∈ l ->
       check_shape_except_dim ns (Some i) dimension = None /\
       exists d, size (Some i) dimension = Some d /\ 0 <= d) ->
    0 <= c -> c + cat_dim_total (Some <$> l) dimension < 2 ^ 63 ->
    sum_cat_dim ns (Some <$> l) dimension c =
    Return (c + cat_dim_total (Some <$> l) dimension).
Proof.
  induction l as [|i l IH]; intros c Hl Hc Hb.
  - cbn. rewrite Z.add_0_r. reflexivity.
  - rewrite fmap_cons in *. cbn [sum_cat_dim cat_dim_total] in *.
    change (should_skip (Some i)) with false in *. cbv iota in *.
    destruct (Hl i ltac:(left)) as (-> & d & Hd & Hd0).
    rewrite Hd in *. change (default 0 (Some d)) with d in Hb.
    assert (Htail : 0 <= cat_dim_total (Some <$> l) dimension).
    { clear -Hl. induction l as [|j l IHl]; [cbn; lia|].
      rewrite fmap_cons. cbn [cat_dim_total].
      change (should_skip (Some j)) with false. cbv iota.
      destruct (Hl j ltac:(right; left)) as (_ & dj & -> & Hj).
      change (default 0 (Some dj)) with dj.
      assert (0 <= cat_dim_total (Some <$> l) dimension).
      { apply IHl. intros x Hx. apply Hl.
        apply elem_of_cons in Hx as [->|Hx]; [left|right; right; exact Hx]. }
      lia. }
    assert (in_signed_range 64 (c + d) = true) as ->.
    { unfold in_signed_range. apply andb_true_iff. split.
      - apply Z.leb_le. change (64 - 1) with 63. lia.
      - apply Z.ltb_lt. change (64 - 1) with 63. lia. }
    rewrite IH; [f_equal; change (default 0 (Some d)) with d; lia| |lia|lia].
    intros x Hx. apply Hl. right. exact Hx.
Qed.

Lemma result_size_is_insert (x : TensorImpl) dimension total :
  0 <= dimension < Z.of_nat (length (sizes x)) ->
  result_size (Some x) (dim (Some x)) dimension total =
  <[Z.to_nat dimension := total]> (sizes x).
Proof.
  intros Hd. apply list_eq. intros k.
  destruct (decide (k < length (sizes x))%nat) as [Hk|Hk].
  - pose proof (result_size_lookup (Some x) (dim (Some x)) dimension total
                  (Z.of_nat k)) as E.
    rewrite Nat2Z.id in E. rewrite E by (unfold dim; cbn [sizes_of]; lia).
    destruct (Z.eqb_spec (Z.of_nat k) dimension) as [<-|Hne].
    + rewrite Nat2Z.id. symmetry. apply list_lookup_insert_eq. exact Hk.
    + rewrite list_lookup_insert_ne by lia.
      rewrite size_in_range by (unfold dim; cbn [sizes_of]; lia).
      cbn [sizes_of]. rewrite Nat2Z.id.
      destruct (lookup_lt_is_Some_2 (sizes x) k Hk) as [v ->]. reflexivity.
  - rewrite !lookup_ge_None_2; [reflexivity| |].
    + rewrite length_insert. lia.
    + pose proof (result_size_length (Some x) (dim (Some x)) dimension total
                    (dim_nonneg _)) as E.
      unfold dim in E at 2. cbn [sizes_of] in E. lia.
Qed.

(** An input that [cat] can concatenate into the output [r] without a
    conversion: it has the shape of the first input off the concat
    dimension, a dense layout, the element type of the output, and its
    elements in memory, in a storage that is not the output's. *)
Record cat_operand {T : Type} (h : gmap nat (list T)) (r first : TensorImpl)
    (dimension : Z) (i : TensorImpl) : Prop := {
  op_shape :
    <[Z.to_nat dimension := 0]> (sizes i) =
    <[Z.to_nat dimension := 0]> (sizes first);
  op_nonneg : Forall (fun n => 0 <= n) (sizes i);
  op_strides : length (strides i) = length (sizes i);
  op_contiguous : is_contiguous (Some i) = true;
  op_type : scalar_type i = scalar_type r;
  op_storage : storage i <> storage r;
  op_memory :
    forall x, 0 <= x < numel (Some i) -> is_Some (load h (data_ptr i) x)
}.

Lemma cat_operand_sizes {T : Type} (h : gmap nat (list T)) r first
    dimension i :
  cat_operand h r first dimension i ->
  0 <= dimension < Z.of_nat (length (sizes first)) ->
  length (sizes i) = length (sizes first) /\
  exists d, sizes i !! Z.to_nat dimension = Some d /\ 0 <= d /\
            sizes i = <[Z.to_nat dimension := d]> (sizes first) /\
            forall k, k <> Z.to_nat dimension ->
                      sizes i !! k = sizes first !! k.
Proof.
  intros Hop Hd. pose proof (op_shape _ _ _ _ _ Hop) as Hs.
  assert (Hlen : length (sizes i) = length (sizes first)).
  { apply (f_equal length) in Hs. rewrite !length_insert in Hs. exact Hs. }
  split; [exact Hlen|].
  destruct (lookup_lt_is_Some_2 (sizes i) (Z.to_nat dimension) ltac:(lia))
    as [d Hdi].
  exists d. split; [exact Hdi|]. split.
  { apply (Forall_lookup_1 _ _ _ _ (op_nonneg _ _ _ _ _ Hop) Hdi). }
  assert (Hk : forall k, k <> Z.to_nat dimension ->
                         sizes i !! k = sizes first !! k).
  { intros k Hne.
    rewrite <- (list_lookup_insert_ne (sizes i) (Z.to_nat dimension) k 0)
      by congruence.
    rewrite Hs. apply list_lookup_insert_ne. congruence. }
  split; [|exact Hk].
  rewrite <- (list_insert_id (sizes i) (Z.to_nat dimension) d Hdi) at 1.
  rewrite <- (list_insert_insert_eq (sizes i) (Z.to_nat dimension) d 0).
  rewrite Hs. apply list_insert_insert_eq.
Qed.

(** The size of the result along the concat dimension, and its sizes. *)
Definition cat_total (inputs : list TensorImpl) (dimension : Z) : Z :=
  cat_dim_total (Some <$> inputs) dimension.

Definition cat_sizes (first : TensorImpl) (inputs : list TensorImpl)
    (dimension : Z) : list Z :=
  <[Z.to_nat dimension := cat_total inputs dimension]> (sizes first).

(** X19. [cat] on dense inputs of rank one to three that have the element
    type of the output, agree in shape off the concat dimension and lie
    in storages other than the output's, when the validation passes, the
    memory format of the first input prescribes the dense strides, and
    the device has a global range [numCU * numWI / 2] that is a positive
    multiple of the work-group size [numWI], with an output of at most
    [2 ^ 32 - numCU * numWI / 2] elements.  Whichever of its two copy
    paths the call takes, it returns, the output has the shape of the
    first input with the sum of the sizes along the concat dimension, and
    the slice of the output at the place of input [j] holds input [j]
    element for element. *)
Theorem cat_concatenates
    (T : Type) uninit cast canCast result_type get_overlap_status
    has_internal_overlap suggest_memory_format format_strides numCU numWI
    (h : gmap nat (list T)) (r first : TensorImpl) (rest : list TensorImpl)
    (dimension : Z) (allSameType : bool) :
  (forall s x, cast s s x = x) ->
  0 < numWI -> 0 < numCU * numWI / 2 ->
  (numCU * numWI / 2) mod numWI = 0 ->
  canCast (result_type (Some <$> first :: rest)) (Some (scalar_type r))
    = true ->
  find_overlap get_overlap_status (Some r) (Some <$> first :: rest) 0
    = None ->
  has_internal_overlap (Some r) = false ->
  format_strides (suggest_memory_format (Some first))
    (cat_sizes first (first :: rest) dimension) =
  Some (contiguous_strides (cat_sizes first (first :: rest) dimension)) ->
  (1 <= length (sizes first) <= 3)%nat ->
  0 <= dimension < Z.of_nat (length (sizes first)) ->
  Forall (cat_operand h r first dimension) (first :: rest) ->
  cat_total (first :: rest) dimension < 2 ^ 63 ->
  prod_list (cat_sizes first (first :: rest) dimension)
    + numCU * numWI / 2 <= 2 ^ 32 ->
  0 <= storage_offset r ->
  exists h' r',
    cat uninit cast canCast result_type get_overlap_status
      has_internal_overlap suggest_memory_format format_strides numCU numWI
      h (Some r) (Some <$> first :: rest)
      (Z.of_nat (length (first :: rest))) dimension allSameType
    = Return (h', Some r') /\
    sizes r' = cat_sizes first (first :: rest) dimension /\
    forall j i, (first :: rest) !! j = Some i ->
      exists nt,
        narrow (Some r') dimension
          (cat_total (take j (first :: rest)) dimension)
          (default 0 (size (Some i) dimension)) = Some nt /\
        forall t, 0 <= t < numel (Some i) ->
          load h' (data_ptr nt) (offset_of_linear nt t) =
          load h (data_ptr i) (offset_of_linear i t).
Proof.
  intros Hcast HnumWI Hglobal Hdivides Htype Hov Hint Hfmt Hrank Hdim
    Hops Htot Hfit Hoff.
  set (inputs := first :: rest) in *.
  set (ts := Some <$> inputs) in *.
  set (total := cat_total inputs dimension) in *.
  set (out_sizes := cat_sizes first inputs dimension) in *.
  rewrite Forall_forall in Hops.
  assert (Hsz : forall i, i ∈ inputs ->
            length (sizes i) = length (sizes first) /\
            exists d, sizes i !! Z.to_nat dimension = Some d /\ 0 <= d /\
                      sizes i = <[Z.to_nat dimension := d]> (sizes first) /\
                      forall k, k <> Z.to_nat dimension ->
                                sizes i !! k = sizes first !! k).
  { intros i Hi. apply (cat_operand_sizes h r first dimension i);
      [apply Hops, Hi|exact Hdim]. }
  assert (Hsize : forall i, i ∈ inputs ->
            exists d, size (Some i) dimension = Some d /\ 0 <= d /\
                      sizes i = <[Z.to_nat dimension := d]> (sizes first)).
  { intros i Hi. destruct (Hsz i Hi) as (Hl & d & Hd & Hd0 & Hs & _).
    exists d. rewrite size_in_range by (unfold dim; cbn [sizes_of]; lia).
    auto. }
  unfold cat. cbn [scalar_type_of]. rewrite Htype, Hov, Hint. cbn [negb].
  assert (Hlen : length ts = length inputs) by apply length_fmap.
  rewrite (proj2 (Z.ltb_ge _ _)) by lia.
  rewrite Nat2Z.id, <- Hlen, firstn_all.
  destruct (scan_inputs_all_defined inputs false 0 None ltac:(discriminate))
    as (x & Hx & Hscan).
  fold ts in Hscan. rewrite Hscan.
  cbn [defined negb].
  assert ((0 <? Z.of_nat (length ts)) = true) as ->.
  { apply Z.ltb_lt. rewrite Hlen. cbn [inputs length]. lia. }
  rewrite (proj2 (Z.leb_le 0 dimension)) by lia. cbn [negb].
  destruct (Hsz x Hx) as (Hlx & dx & Hdx & Hdx0 & Hsx & Hkx).
  pose proof (sum_cat_dim_all_checked (Some x) inputs dimension 0) as Hsum.
  fold ts in Hsum. rewrite Hsum; [| |lia|exact Htot].
  2:{ intros i Hi. destruct (Hsz i Hi) as (Hli & d & Hd & Hd0 & Hs & Hk).
      split.
      - apply check_shape_except_dim_passes.
        + unfold dim. cbn [sizes_of]. lia.
        + intros k Hk0 Hne. unfold dim in Hk0. cbn [sizes_of] in Hk0.
          rewrite !size_in_range by (unfold dim; cbn [sizes_of]; lia).
          cbn [sizes_of]. rewrite Hkx, Hk by lia. reflexivity.
      - exists d. rewrite size_in_range
          by (unfold dim; cbn [sizes_of]; lia).
        auto. }
  rewrite Z.add_0_l. change (cat_dim_total ts dimension) with total.
  rewrite result_size_is_insert by lia.
  assert (Hout : <[Z.to_nat dimension := total]> (sizes x) = out_sizes).
  { rewrite Hsx. apply list_insert_insert_eq. }
  rewrite Hout.
  change (default None (ts !! 0%nat)) with (Some first).
  rewrite Hfmt. cbn [resize_].
  set (r1 := {| scalar_type := scalar_type r; sizes := out_sizes;
                strides := contiguous_strides out_sizes;
                storage := storage r;
                storage_offset := storage_offset r |}).
  match goal with
  | |- context [<[storage r := ?b]> h] => set (h1 := <[storage r := b]> h)
  end.
  assert (Hh1 : h1 = fst (resize_ uninit h r out_sizes
                            (contiguous_strides out_sizes)))
    by reflexivity.
  assert (Hlo : length out_sizes = length (sizes first)).
  { unfold out_sizes, cat_sizes. apply length_insert. }
  assert (Htotal0 : 0 <= total).
  { unfold total, cat_total. fold ts.
    clear -Hsize. subst ts. induction inputs as [|j l IHl]; [cbn; lia|].
    rewrite fmap_cons. cbn [cat_dim_total].
    change (should_skip (Some j)) with false. cbv iota.
    destruct (Hsize j ltac:(left)) as (dj & -> & Hj & _).
    change (default 0 (Some dj)) with dj.
    assert (0 <= cat_dim_total (Some <$> l) dimension).
    { apply IHl. intros y Hy. apply Hsize. right. exact Hy. }
    lia. }
  assert (Hnn1 : Forall (fun n => 0 <= n) out_sizes).
  { unfold out_sizes, cat_sizes. apply Forall_insert; [|exact Htotal0].
    apply (op_nonneg _ _ _ _ _ (Hops first ltac:(left))). }
  assert (Hnumel1 : numel (Some r1) = prod_list out_sizes) by reflexivity.
  assert (Hnc : out_sizes !! Z.to_nat dimension = Some total).
  { unfold out_sizes, cat_sizes. apply list_lookup_insert_eq. lia. }
  assert (Hdimx : dim (Some x) = dim (Some r1)).
  { unfold dim. cbn [sizes_of sizes r1]. lia. }
  rewrite Hdimx.
  destruct (cat_loops_content cast numCU numWI h1 r1 ts dimension total
              Hcast HnumWI Hglobal Hdivides)
    as (h' & Hfast & Hslow & Hcontent).
  { rewrite Hnumel1. exact Hfit. }
  { cbn [sizes r1]. lia. }
  { cbn [sizes r1]. lia. }
  { exact Hnn1. }
  { reflexivity. }
  { intros y Hy. rewrite Hh1.
    apply (BatchLinearAlgebra.resize_room uninit h r out_sizes
             (contiguous_strides out_sizes) y Hoff).
    rewrite <- Hnumel1. exact Hy. }
  { apply Forall_forall. intros t Ht. unfold ts in Ht.
    apply list_elem_of_fmap in Ht as (i & -> & Hi).
    destruct (Hsize i Hi) as (d & Hd & Hd0 & Hs).
    pose proof (Hops i Hi) as Hop.
    exists i, d. split; [reflexivity|]. split.
    - constructor.
      + cbn [sizes r1]. unfold out_sizes, cat_sizes.
        rewrite list_insert_insert_eq. exact Hs.
      + apply (op_strides _ _ _ _ _ Hop).
      + exact Hd0.
      + apply (op_contiguous _ _ _ _ _ Hop).
      + apply (op_type _ _ _ _ _ Hop).
      + apply (op_storage _ _ _ _ _ Hop).
    - intros y Hy. rewrite Hh1.
      rewrite (BatchLinearAlgebra.resize_other uninit h r out_sizes
                 (contiguous_strides out_sizes) (data_ptr i) y)
        by (cbn; apply (op_storage _ _ _ _ _ Hop)).
      apply (op_memory _ _ _ _ _ Hop), Hy. }
  { exact Hnc. }
  { unfold total, cat_total. fold ts. lia. }
  exists h', r1. split.
  { destruct (_ && _); [rewrite Hfast|rewrite Hslow]; reflexivity. }
  split; [reflexivity|].
  intros j i Hj.
  assert (Hjt : ts !! j = Some (Some i)).
  { unfold ts. rewrite list_lookup_fmap, Hj. reflexivity. }
  destruct (Hcontent j i Hjt) as (nt & Hnar & Hload).
  exists nt. split.
  { unfold cat_total. rewrite fmap_take. exact Hnar. }
  intros t Ht. rewrite (Hload t Ht). rewrite Hh1.
  apply (BatchLinearAlgebra.resize_other uninit h r out_sizes
           (contiguous_strides out_sizes) (data_ptr i)).
  cbn. apply (op_storage _ _ _ _ _ (Hops i ltac:(
    eapply list_elem_of_lookup_2; exact Hj))).
Qed.

Definition example_a_impl : TensorImpl :=
  {| scalar_type := Long; sizes := [2; 3]; strides := [3; 1];
     storage := 1; storage_offset := 0 |}.

Definition example_b_impl : TensorImpl :=
  {| scalar_type := Long; sizes := [1; 3]; strides := [3; 1];
     storage := 2; storage_offset := 0 |}.

Definition example_out_impl : TensorImpl :=
  {| scalar_type := Long; sizes := [0]; strides := [1];
     storage := 0; storage_offset := 0 |}.

Lemma cat_concatenates_witness :
  exists h' r',
    simple_cat 2 4 example_heap (Some example_out_impl)
      (Some <$> [example_a_impl; example_b_impl])
      (Z.of_nat (length [example_a_impl; example_b_impl])) 0 true
    = Return (h', Some r') /\
    sizes r' = cat_sizes example_a_impl [example_a_impl; example_b_impl] 0 /\
    forall j i, [example_a_impl; example_b_impl] !! j = Some i ->
      exists nt,
        narrow (Some r') 0
          (cat_total (take j [example_a_impl; example_b_impl]) 0)
          (default 0 (size (Some i) 0)) = Some nt /\
        forall t, 0 <= t < numel (Some i) ->
          load h' (data_ptr nt) (offset_of_linear nt t) =
          load example_heap (data_ptr i) (offset_of_linear i t).
Proof.
  apply (cat_concatenates Z (fun _ => 0) (fun _ _ x => x)
           (fun _ _ => true) (fun _ => Some Long) simple_overlap_status
           (fun _ => false) (fun _ => Contiguous) simple_format_strides 2 4
           example_heap example_out_impl example_a_impl [example_b_impl] 0
           true).
  - reflexivity.
  - lia.
  - vm_compute. reflexivity.
  - reflexivity.
  - reflexivity.
  - reflexivity.
  - reflexivity.
  - reflexivity.
  - simpl. lia.
  - simpl. lia.
  - apply Forall_cons_2; [|apply Forall_cons_2; [|apply Forall_nil_2]].
    + split.
      * reflexivity.
      * repeat constructor; discriminate.
      * reflexivity.
      * reflexivity.
      * reflexivity.
      * simpl. lia.
      * intros x Hx.
        apply (load_in_buffer _ _ [1; 2; 3; 4; 5; 6]);
          [vm_compute; reflexivity|].
        change (numel (Some example_a_impl)) with 6 in Hx. simpl. lia.
    + split.
      * reflexivity.
      * repeat constructor; discriminate.
      * reflexivity.
      * reflexivity.
      * reflexivity.
      * simpl. lia.
      * intros x Hx.
        apply (load_in_buffer _ _ [7; 8; 9]); [vm_compute; reflexivity|].
        change (numel (Some example_b_impl)) with 3 in Hx. simpl. lia.
  - vm_compute. reflexivity.
  - vm_compute. discriminate.
  - reflexivity.
Defined.

End Cat.
